(** * Playground session core: a shallow embedding of [src/app.js]

    The development follows the source file section by section: JavaScript
    strings and the two regular expressions of [isHelpRequest], the global
    session state, the console and its history, the plot gallery, and the
    runner [runCode] with its [try]/[finally]/[catch] structure.

    Conventions of the embedding:
    - the module globals and the widget properties the handlers read or
      write are the fields of one record [State]; the elements looked up by
      [getElement] exist;
    - a handler is a function on [State]; an [async] handler is run to its
      end, the way each awaited call of the interpreter settles being a
      parameter ([Interp], [Boot]); where a statement depends on the state
      at a suspension point, the handler is cut there ([runCode_begin],
      [runCode_try], [runCode_end], [initWebR_begin]);
    - an exception is the message of the thrown error;
    - the requests sent to the interpreter are logged in [webRcalls]. *)

From Stdlib Require Import List NArith ZArith Bool String Ascii Lia.
Import ListNotations.

Local Open Scope N_scope.

(** ** JavaScript strings *)

(** A JavaScript string is a sequence of UTF-16 code units. *)
Definition jsstring : Type := list N.

(** ASCII literals of the source, written as Rocq strings. *)
Definition js (s : string) : jsstring :=
  List.map N_of_ascii (list_ascii_of_string s).

Fixpoint jsstring_eqb (a b : jsstring) : bool :=
  match a, b with
  | [], [] => true
  | x :: a', y :: b' => (x =? y) && jsstring_eqb a' b'
  | _, _ => false
  end.

(** LineTerminator of ECMAScript: LF, CR, LS, PS. *)
Definition isLineTerminator (c : N) : bool :=
  (c =? 10) || (c =? 13) || (c =? 8232) || (c =? 8233).

(** WhiteSpace of ECMAScript: TAB, VT, FF, SP, NBSP, ZWNBSP and the
    code points of category Zs. *)
Definition isWhiteSpace (c : N) : bool :=
  (c =? 9) || (c =? 11) || (c =? 12) || (c =? 32) || (c =? 160)
  || (c =? 5760) || ((8192 <=? c) && (c <=? 8202))
  || (c =? 8239) || (c =? 8287) || (c =? 12288) || (c =? 65279).

(** What [String.prototype.trim] strips at both ends. *)
Definition isTrimmed (c : N) : bool := isWhiteSpace c || isLineTerminator c.

Fixpoint trimStart (s : jsstring) : jsstring :=
  match s with
  | [] => []
  | c :: s' => if isTrimmed c then trimStart s' else s
  end.

Definition trimEnd (s : jsstring) : jsstring := rev (trimStart (rev s)).

Definition trim (s : jsstring) : jsstring := trimEnd (trimStart s).

(** A string is truthy when it is not empty. *)
Definition truthy (s : jsstring) : bool :=
  match s with [] => false | _ :: _ => true end.

(** [s.split('\n')]: the pieces between line feeds; never empty. *)
Fixpoint split_lf (s : jsstring) : list jsstring :=
  match s with
  | [] => [[]]
  | c :: s' =>
      if c =? 10 then [] :: split_lf s'
      else match split_lf s' with
           | [] => [[c]]
           | l :: ls => (c :: l) :: ls
           end
  end.

(** ** Regular expressions

    The fragment the source uses, with the backtracking semantics of
    ECMAScript: greedy quantifiers, alternatives tried in priority order,
    one capture group.  No flag is set, so [.] excludes line terminators
    and [^], [$] are the ends of the input. *)
Module Regex.

Inductive t : Type :=
| Bol                               (* ^ *)
| Eol                               (* $ *)
| Class (p : N -> bool)             (* one code unit of a class *)
| Opt (r : t)                       (* r?  greedy *)
| Plus (p : N -> bool)              (* [class]+  greedy *)
| Seq (r1 r2 : t)
| Group (r : t).                    (* ( r ), capture 1 *)

Definition lit (a : ascii) : t := Class (N.eqb (N_of_ascii a)).
Definition dot : N -> bool := fun c => negb (isLineTerminator c).
Definition none_of (l : list ascii) : N -> bool :=
  fun c => negb (existsb (fun a => N_of_ascii a =? c) l).
Definition one_of (l : list ascii) : N -> bool :=
  fun c => existsb (fun a => N_of_ascii a =? c) l.

Fixpoint lits (l : list ascii) (k : t) : t :=
  match l with
  | [] => k
  | a :: l' => Seq (lit a) (lits l' k)
  end.

(** The matcher threads the number of code units consumed so far, the
    rest of the input and capture 1, and calls the continuation [k] on
    every way to match, in priority order, until one succeeds. *)
Section Matcher.
Context {R : Type}.
Definition cont : Type := nat -> jsstring -> option jsstring -> option R.

Fixpoint plus (p : N -> bool) (pos : nat) (s : jsstring)
    (cap : option jsstring) (k : cont) : option R :=
  match s with
  | [] => None
  | c :: s' =>
      if p c then
        match plus p (S pos) s' cap k with
        | Some x => Some x
        | None => k (S pos) s' cap
        end
      else None
  end.

Fixpoint run (r : t) (pos : nat) (s : jsstring)
    (cap : option jsstring) (k : cont) : option R :=
  match r with
  | Bol => match pos with O => k pos s cap | S _ => None end
  | Eol => match s with [] => k pos s cap | _ :: _ => None end
  | Class p =>
      match s with
      | [] => None
      | c :: s' => if p c then k (S pos) s' cap else None
      end
  | Opt r1 =>
      match run r1 pos s cap k with
      | Some x => Some x
      | None => k pos s cap
      end
  | Plus p => plus p pos s cap k
  | Seq r1 r2 =>
      run r1 pos s cap (fun pos' s' cap' => run r2 pos' s' cap' k)
  | Group r1 =>
      run r1 pos s cap
        (fun pos' s' _ => k pos' s' (Some (firstn (pos' - pos) s)))
  end.
End Matcher.

(** [str.match(re)] without the [g] flag: the first start position, from
    the left, at which the expression matches; the result is capture 1
    ([None] when there is no match). *)
Fixpoint exec_from (r : t) (pos : nat) (s : jsstring) : option jsstring :=
  match run r pos s None (fun _ _ cap => Some cap) with
  | Some cap => Some (match cap with Some g => g | None => [] end)
  | None =>
      match s with
      | [] => None
      | _ :: s' => exec_from r (S pos) s'
      end
  end.

Definition exec (r : t) (s : jsstring) : option jsstring := exec_from r 0 s.

End Regex.

(** ** Help *)

(** [/^\?(.+)$/] *)
Definition re_question : Regex.t :=
  Regex.Seq Regex.Bol
    (Regex.Seq (Regex.lit "?")
       (Regex.Seq (Regex.Group (Regex.Plus Regex.dot)) Regex.Eol)).

(** The double quote, code unit 34. *)
Definition dquote : ascii := ascii_of_nat 34.
Definition quote : list ascii := [dquote; "'"%char].
Definition quote_or_paren : list ascii := [dquote; "'"%char; ")"%char].

(** [/^help\(Q?([^Q)]+)Q?\)$/] where Q stands for the class of the double
    and the single quote. *)
Definition re_help : Regex.t :=
  Regex.Seq Regex.Bol
    (Regex.lits ["h"; "e"; "l"; "p"; "("]%char
       (Regex.Seq (Regex.Opt (Regex.Class (Regex.one_of quote)))
          (Regex.Seq (Regex.Group (Regex.Plus (Regex.none_of quote_or_paren)))
             (Regex.Seq (Regex.Opt (Regex.Class (Regex.one_of quote)))
                (Regex.Seq (Regex.lit ")") Regex.Eol))))).

(** [code.match(re_question) || code.match(re_help)], then
    [helpMatch[1].trim()]; [None] is [null]. *)
Definition isHelpRequest (code : jsstring) : option jsstring :=
  match Regex.exec re_question code with
  | Some g => Some (trim g)
  | None =>
      match Regex.exec re_help code with
      | Some g => Some (trim g)
      | None => None
      end
  end.

(** ** State *)

(** The editor widget, as far as [runFromEditor] reads and moves it.  The
    widget keeps [ed_cursorLine < length ed_lines]. *)
Record Editor : Type := mkEditor {
  ed_selection : jsstring;
  ed_lines : list jsstring;
  ed_cursorLine : nat
}.

(** Second argument of [appendConsole]: the class of the appended line. *)
Inductive LineType : Type := stdout | stderr | command | system.

Record ConsoleLine : Type := mkLine {
  line_text : jsstring;
  line_type : LineType
}.

(** First argument of [setStatus]. *)
Inductive StatusClass : Type := loading | ready | error.

(** What the interpreter hands to [addPlot], and what [addPlot] stores. *)
Inductive ImageData : Type :=
| ImageBitmap (id : N)
| ImageString (s : jsstring)
| ImageBlob (id : N)
| ImageOther.

Inductive DataUrl : Type :=
| CanvasPng (bitmap : N)      (* imageBitmapToDataUrl(bitmap) *)
| UrlString (s : jsstring)
| ObjectUrl (blob : N)        (* URL.createObjectURL(blob) *)
| Undefined.

(** One element of [result.output]. *)
Record OutputRecord : Type := mkOut {
  out_type : jsstring;
  out_data : jsstring
}.

(** What [shelter.captureR] resolves to. *)
Record CaptureResult : Type := mkResult {
  output : list OutputRecord;
  images : list ImageData
}.

(** Requests the session sends to the interpreter. *)
Inductive Call : Type :=
| CallInit
| CallEvalR (stage : nat)
| CallEvalRString (topic : jsstring)
| CallShelter (acquired : bool)
| CallCaptureR (code : jsstring)
| CallPurge.

Record State : Type := mkState {
  webR : bool;   (* [webR !== null] *)
  isRunning : bool;   (* the run lock *)
  commandHistory : list jsstring;   (* most recent first *)
  historyIndex : Z;   (* -1 while not browsing *)
  plotImages : list DataUrl;
  currentPlotIndex : Z;
  editor : option Editor;   (* [None] is [null] *)
  consoleValue : jsstring;   (* [consoleInput.getValue()] *)
  consoleReadOnly : bool;   (* option [readOnly] of the console input *)
  runBtnDisabled : bool;
  status : option (StatusClass * jsstring);
                                    (* [None] before the first [setStatus] *)
  consoleOutput : list ConsoleLine; (* lines of the console, oldest first *)
  helpPanel : option (jsstring * jsstring);
                                    (* topic and text; [None]: placeholder *)
  webRcalls : list Call             (* requests sent, oldest first *)
}.

(** Assignments to one global or one widget property. *)

Definition set_webR (v : bool) (st : State) : State :=
  mkState v (isRunning st) (commandHistory st) (historyIndex st)
    (plotImages st) (currentPlotIndex st) (editor st) (consoleValue st)
    (consoleReadOnly st) (runBtnDisabled st) (status st) (consoleOutput st)
    (helpPanel st) (webRcalls st).

Definition set_isRunning (v : bool) (st : State) : State :=
  mkState (webR st) v (commandHistory st) (historyIndex st) (plotImages st)
    (currentPlotIndex st) (editor st) (consoleValue st) (consoleReadOnly st)
    (runBtnDisabled st) (status st) (consoleOutput st) (helpPanel st)
    (webRcalls st).

Definition set_commandHistory (v : list jsstring) (st : State) : State :=
  mkState (webR st) (isRunning st) v (historyIndex st) (plotImages st)
    (currentPlotIndex st) (editor st) (consoleValue st) (consoleReadOnly st)
    (runBtnDisabled st) (status st) (consoleOutput st) (helpPanel st)
    (webRcalls st).

Definition set_historyIndex (v : Z) (st : State) : State :=
  mkState (webR st) (isRunning st) (commandHistory st) v (plotImages st)
    (currentPlotIndex st) (editor st) (consoleValue st) (consoleReadOnly st)
    (runBtnDisabled st) (status st) (consoleOutput st) (helpPanel st)
    (webRcalls st).

Definition set_plotImages (v : list DataUrl) (st : State) : State :=
  mkState (webR st) (isRunning st) (commandHistory st) (historyIndex st) v
    (currentPlotIndex st) (editor st) (consoleValue st) (consoleReadOnly st)
    (runBtnDisabled st) (status st) (consoleOutput st) (helpPanel st)
    (webRcalls st).

Definition set_currentPlotIndex (v : Z) (st : State) : State :=
  mkState (webR st) (isRunning st) (commandHistory st) (historyIndex st)
    (plotImages st) v (editor st) (consoleValue st) (consoleReadOnly st)
    (runBtnDisabled st) (status st) (consoleOutput st) (helpPanel st)
    (webRcalls st).

Definition set_editor (v : option Editor) (st : State) : State :=
  mkState (webR st) (isRunning st) (commandHistory st) (historyIndex st)
    (plotImages st) (currentPlotIndex st) v (consoleValue st)
    (consoleReadOnly st) (runBtnDisabled st) (status st) (consoleOutput st)
    (helpPanel st) (webRcalls st).

Definition set_consoleValue (v : jsstring) (st : State) : State :=
  mkState (webR st) (isRunning st) (commandHistory st) (historyIndex st)
    (plotImages st) (currentPlotIndex st) (editor st) v (consoleReadOnly st)
    (runBtnDisabled st) (status st) (consoleOutput st) (helpPanel st)
    (webRcalls st).

Definition set_consoleReadOnly (v : bool) (st : State) : State :=
  mkState (webR st) (isRunning st) (commandHistory st) (historyIndex st)
    (plotImages st) (currentPlotIndex st) (editor st) (consoleValue st) v
    (runBtnDisabled st) (status st) (consoleOutput st) (helpPanel st)
    (webRcalls st).

Definition set_runBtnDisabled (v : bool) (st : State) : State :=
  mkState (webR st) (isRunning st) (commandHistory st) (historyIndex st)
    (plotImages st) (currentPlotIndex st) (editor st) (consoleValue st)
    (consoleReadOnly st) v (status st) (consoleOutput st) (helpPanel st)
    (webRcalls st).

Definition set_status (v : option (StatusClass * jsstring)) (st : State)
  : State :=
  mkState (webR st) (isRunning st) (commandHistory st) (historyIndex st)
    (plotImages st) (currentPlotIndex st) (editor st) (consoleValue st)
    (consoleReadOnly st) (runBtnDisabled st) v (consoleOutput st)
    (helpPanel st) (webRcalls st).

Definition set_consoleOutput (v : list ConsoleLine) (st : State) : State :=
  mkState (webR st) (isRunning st) (commandHistory st) (historyIndex st)
    (plotImages st) (currentPlotIndex st) (editor st) (consoleValue st)
    (consoleReadOnly st) (runBtnDisabled st) (status st) v (helpPanel st)
    (webRcalls st).

Definition set_helpPanel (v : option (jsstring * jsstring)) (st : State)
  : State :=
  mkState (webR st) (isRunning st) (commandHistory st) (historyIndex st)
    (plotImages st) (currentPlotIndex st) (editor st) (consoleValue st)
    (consoleReadOnly st) (runBtnDisabled st) (status st) (consoleOutput st)
    v (webRcalls st).

Definition set_webRcalls (v : list Call) (st : State) : State :=
  mkState (webR st) (isRunning st) (commandHistory st) (historyIndex st)
    (plotImages st) (currentPlotIndex st) (editor st) (consoleValue st)
    (consoleReadOnly st) (runBtnDisabled st) (status st) (consoleOutput st)
    (helpPanel st) v.

(** ** Asynchronous calls and exceptions

    Every [await] of the source either resolves with a value or rejects
    with an error; only [error.message] is ever read.  A computation runs
    on the session state and ends normally or by a throw. *)

Inductive Outcome (A : Type) : Type :=
| Resolved (a : A)
| Rejected (message : jsstring).
Arguments Resolved {A} a.
Arguments Rejected {A} message.

Definition M (A : Type) : Type := State -> State * Outcome A.

Definition ret {A : Type} (a : A) : M A := fun st => (st, Resolved a).

Definition bind {A B : Type} (m : M A) (f : A -> M B) : M B :=
  fun st =>
    match m st with
    | (st', Resolved a) => f a st'
    | (st', Rejected e) => (st', Rejected e)
    end.

Notation "x <- m ;; k" := (bind m (fun x => k))
  (at level 61, m at next level, right associativity).
Notation "m ;;; k" := (bind m (fun _ => k))
  (at level 61, right associativity).

(** A statement that cannot throw. *)
Definition exec (f : State -> State) : M unit := fun st => (f st, Resolved tt).

(** [try { m } catch (error) { h error.message }] *)
Definition try_catch {A : Type} (m : M A) (h : jsstring -> M A) : M A :=
  fun st =>
    match m st with
    | (st', Resolved a) => (st', Resolved a)
    | (st', Rejected e) => h e st'
    end.

(** [try { m } finally { f }]: [f] runs on both exits; a throw of [f]
    replaces the completion of [m]. *)
Definition try_finally {A : Type} (m : M A) (f : M unit) : M A :=
  fun st =>
    match m st with
    | (st', r) =>
        match f st' with
        | (st'', Resolved _) => (st'', r)
        | (st'', Rejected e) => (st'', Rejected e)
        end
    end.

(** [for (const x of l) { body x }] *)
Fixpoint for_of {A : Type} (l : list A) (body : A -> M unit) : M unit :=
  match l with
  | [] => ret tt
  | x :: l' => body x ;;; for_of l' body
  end.

(** The interpreter's answers during one handler: how each awaited call
    settles. *)
Record Interp : Type := mkInterp {
  on_Shelter : Outcome unit;               (* new webR.Shelter() *)
  on_captureR : Outcome CaptureResult;     (* shelter.captureR(code, ...) *)
  on_purge : Outcome unit;                 (* shelter.purge() *)
  on_evalRString : Outcome jsstring        (* webR.evalRString(...) *)
}.

Definition call (c : Call) (st : State) : State :=
  set_webRcalls (webRcalls st ++ [c]) st.

Definition settled {A : Type} (r : Outcome A) : bool :=
  match r with Resolved _ => true | Rejected _ => false end.

Definition new_Shelter (io : Interp) : M unit :=
  fun st => (call (CallShelter (settled (on_Shelter io))) st, on_Shelter io).

Definition captureR (io : Interp) (code : jsstring) : M CaptureResult :=
  fun st => (call (CallCaptureR code) st, on_captureR io).

Definition purge (io : Interp) : M unit :=
  fun st => (call CallPurge st, on_purge io).

Definition evalRString (io : Interp) (topic : jsstring) : M jsstring :=
  fun st => (call (CallEvalRString topic) st, on_evalRString io).

(** ** Status and console *)

Definition setStatus (state : StatusClass) (text : jsstring) (st : State)
  : State :=
  set_status (Some (state, text)) st.

Definition appendConsole (text : jsstring) (type : LineType) (st : State)
  : State :=
  set_consoleOutput (consoleOutput st ++ [mkLine text type]) st.

Definition clearConsole (st : State) : State := set_consoleOutput [] st.

(** ** Help panel *)

Definition clearHelp (st : State) : State := set_helpPanel None st.

(** The panel keeps the topic and the text; the markup that [displayHelp]
    derives from the text is a function of the text alone. *)
Definition displayHelp (topic text : jsstring) (st : State) : State :=
  set_helpPanel (Some (topic, text)) st.

Definition getHelp (io : Interp) (topic : jsstring) : M unit :=
  fun st =>
    if negb (webR st) then (st, Resolved tt)
    else
      try_catch
        (result <- evalRString io topic ;;
         exec (displayHelp topic result))
        (fun message =>
           exec (displayHelp topic (js "Error getting help: " ++ message)))
        st.

(** ** Plots *)

Local Open Scope Z_scope.

Definition zlength {A : Type} (l : list A) : Z := Z.of_nat (List.length l).

(** [l[i]] of JavaScript; [None] is [undefined]. *)
Definition index {A : Type} (l : list A) (i : Z) : option A :=
  if i <? 0 then None else nth_error l (Z.to_nat i).

(** What [updatePlotDisplay] shows: it is called after every change of
    [plotImages] or [currentPlotIndex] and writes a function of the two. *)
Record PlotView : Type := mkView {
  image : option DataUrl;       (* plotImage.src *)
  position : Z;                 (* the counter reads position / total *)
  total : Z;
  prevDisabled : bool;
  nextDisabled : bool
}.

(** [None]: the placeholder is shown, image and navigation are hidden. *)
Definition updatePlotDisplay (st : State) : option PlotView :=
  if zlength (plotImages st) =? 0 then None
  else
    Some (mkView (index (plotImages st) (currentPlotIndex st))
            (currentPlotIndex st + 1)
            (zlength (plotImages st))
            (currentPlotIndex st =? 0)
            (currentPlotIndex st =? zlength (plotImages st) - 1)).

Definition toDataUrl (imageData : ImageData) : DataUrl :=
  match imageData with
  | ImageBitmap b => CanvasPng b
  | ImageString s => UrlString s
  | ImageBlob b => ObjectUrl b
  | ImageOther => Undefined
  end.

Definition addPlot (imageData : ImageData) (st : State) : State :=
  let st1 := set_plotImages (plotImages st ++ [toDataUrl imageData]) st in
  set_currentPlotIndex (zlength (plotImages st1) - 1) st1.

Definition clearPlots (st : State) : State :=
  set_currentPlotIndex 0 (set_plotImages [] st).

(** Click handlers of [#plotPrev] and [#plotNext]. *)
Definition plotPrev_click (st : State) : State :=
  if currentPlotIndex st >? 0
  then set_currentPlotIndex (currentPlotIndex st - 1) st
  else st.

Definition plotNext_click (st : State) : State :=
  if currentPlotIndex st <? zlength (plotImages st) - 1
  then set_currentPlotIndex (currentPlotIndex st + 1) st
  else st.

Inductive Key : Type := ArrowLeft | ArrowRight | OtherKey.

(** The [keydown] listener of the document. *)
Definition keydown (inEditor : bool) (key : Key) (st : State) : State :=
  if inEditor then st
  else
    match key with
    | ArrowLeft =>
        if (zlength (plotImages st) >? 0) && (currentPlotIndex st >? 0)
        then set_currentPlotIndex (currentPlotIndex st - 1) st
        else st
    | ArrowRight =>
        if (zlength (plotImages st) >? 0)
           && (currentPlotIndex st <? zlength (plotImages st) - 1)
        then set_currentPlotIndex (currentPlotIndex st + 1) st
        else st
    | OtherKey => st
    end.

(** ** Runner *)

(** [lines.forEach((line, i) => appendConsole(prefix(i) + line, 'command'))]
    where the prefix is ['> '] for [i === 0] and ['+ '] otherwise. *)
Fixpoint forEach_echo (lines : list jsstring) (i : nat) (st : State) : State :=
  match lines with
  | [] => st
  | line :: rest =>
      forEach_echo rest (S i)
        (appendConsole
           ((match i with O => js "> " | S _ => js "+ " end) ++ line)
           command st)
  end.

(** Body of the loop over [result.output]. *)
Definition route (out : OutputRecord) (st : State) : State :=
  if jsstring_eqb (out_type out) (js "stdout") && truthy (trim (out_data out))
  then appendConsole (out_data out) stdout st
  else if jsstring_eqb (out_type out) (js "stderr")
          && truthy (trim (out_data out))
  then appendConsole (out_data out) stderr st
  else if jsstring_eqb (out_type out) (js "message")
  then appendConsole (out_data out) stderr st
  else st.

(** From [isRunning = true] to the last echoed line. *)
Definition runCode_begin (code : jsstring) (st : State) : State :=
  let st := set_isRunning true st in
  let st := set_runBtnDisabled true st in
  let st := set_consoleReadOnly true st in
  let st := setStatus loading (js "Running...") st in
  forEach_echo (split_lf code) 0 st.

(** The outer [try] statement. *)
Definition runCode_try (io : Interp) (code : jsstring) : M unit :=
  try_catch
    (new_Shelter io ;;;
     try_finally
       (result <- captureR io code ;;
        for_of (output result) (fun out => exec (route out)) ;;;
        for_of (images result) (fun img => exec (addPlot img)))
       (purge io))
    (fun message => exec (appendConsole (js "Error: " ++ message) stderr)).

(** From [isRunning = false] to the end of the function. *)
Definition runCode_end (st : State) : State :=
  let st := set_isRunning false st in
  let st := set_runBtnDisabled false st in
  let st := set_consoleReadOnly false st in
  setStatus ready (js "Ready") st.

(** The topic when [helpTopicMatch] is truthy. *)
Definition helpTopicMatch (code : jsstring) : option jsstring :=
  match isHelpRequest code with
  | Some topic => if truthy topic then Some topic else None
  | None => None
  end.

Definition runCode (io : Interp) (code : jsstring) (st : State) : State :=
  if isRunning st || negb (webR st) || negb (truthy code) then st
  else
    match helpTopicMatch code with
    | Some topic =>
        fst (getHelp io topic (appendConsole (js "> " ++ code) command st))
    | None =>
        runCode_end (fst (runCode_try io code (runCode_begin code st)))
    end.

(** ** Console input and editor *)

Definition handleConsoleEnter (io : Interp) (st : State) : State :=
  let code := trim (consoleValue st) in
  if truthy code then
    let st := set_commandHistory (code :: commandHistory st) st in
    let st := set_historyIndex (-1) st in
    let st := set_consoleValue [] st in
    runCode io code st
  else st.

(** [consoleInput.setValue(commandHistory[historyIndex])]; the widget
    raises on [undefined] and the value stays. *)
Definition setValue_history (st : State) : State :=
  match index (commandHistory st) (historyIndex st) with
  | Some v => set_consoleValue v st
  | None => st
  end.

Definition handleConsoleUp (st : State) : State :=
  if historyIndex st <? zlength (commandHistory st) - 1
  then setValue_history (set_historyIndex (historyIndex st + 1) st)
  else st.

Definition handleConsoleDown (st : State) : State :=
  if historyIndex st >? 0
  then setValue_history (set_historyIndex (historyIndex st - 1) st)
  else if historyIndex st =? 0
  then set_consoleValue [] (set_historyIndex (-1) st)
  else st.

Definition runFromEditor (io : Interp) (st : State) : State :=
  match editor st with
  | None => st
  | Some ed =>
      if truthy (ed_selection ed) then
        let code := ed_selection ed in
        if truthy (trim code) then runCode io (trim code) st else st
      else
        let code := nth (ed_cursorLine ed) (ed_lines ed) [] in
        let st :=
          if Z.of_nat (ed_cursorLine ed) <? zlength (ed_lines ed) - 1
          then set_editor
                 (Some (mkEditor [] (ed_lines ed) (S (ed_cursorLine ed)))) st
          else st in
        if truthy (trim code) then runCode io (trim code) st else st
  end.

(** ** Start of the session *)

(** How the four awaited calls of [initWebR] settle. *)
Record Boot : Type := mkBoot {
  on_init : Outcome unit;
  on_options : Outcome unit;
  on_install : Outcome unit;
  on_library : Outcome unit
}.

Definition webR_init (boot : Boot) : M unit :=
  fun st => (call CallInit st, on_init boot).

Definition evalR (stage : nat) (r : Outcome unit) : M unit :=
  fun st => (call (CallEvalR stage) st, r).

(** [initWebR] up to its first suspension, [await webR.init()]. *)
Definition initWebR_begin (st : State) : State :=
  set_webR true (setStatus loading (js "Initializing WebR...") st).

Definition initWebR (boot : Boot) (st : State) : State :=
  fst (try_catch
         (exec initWebR_begin ;;;
          webR_init boot ;;;
          exec (setStatus loading (js "Configuring repositories...")) ;;;
          evalR 0 (on_options boot) ;;;
          exec (setStatus loading (js "Installing animovement...")) ;;;
          exec clearConsole ;;;
          exec (appendConsole (js "Installing animovement package...")
                  system) ;;;
          evalR 1 (on_install boot) ;;;
          exec (appendConsole (js "Loading animovement...") system) ;;;
          evalR 2 (on_library boot) ;;;
          exec (appendConsole (js "Ready! animovement is loaded.") system) ;;;
          exec (appendConsole [] system) ;;;
          exec (setStatus ready (js "Ready")) ;;;
          exec (set_runBtnDisabled false) ;;;
          exec (set_consoleReadOnly false))
         (fun message =>
            exec (setStatus error (js "Initialization failed")) ;;;
            exec (appendConsole (js "Error: " ++ message) stderr))
         st).

(** The globals as declared, after [init] has built the two widgets and
    made the console input read-only. *)
Definition loaded (ed : Editor) : State :=
  mkState false false [] (-1) [] 0 (Some ed) [] true true None [] None [].

(** The session is ready when the status dot says so. *)
Definition isReady (st : State) : bool :=
  match status st with
  | Some (ready, _) => true
  | _ => false
  end.

(** ** Events *)

Inductive Event : Type :=
| ConsoleType (text : jsstring)      (* the user edits the console input *)
| ConsoleEnter (io : Interp)
| ConsoleUp
| ConsoleDown
| EditorChange (ed : Editor)         (* the user edits or moves in the editor *)
| EditorRun (io : Interp)            (* Cmd-Enter, Ctrl-Enter or #runBtn *)
| ClickClearConsole
| ClickClearHelp
| ClickClearPlots
| ClickPlotPrev
| ClickPlotNext
| KeyDown (inEditor : bool) (key : Key).

Definition step (st : State) (ev : Event) : State :=
  match ev with
  | ConsoleType text =>
      if consoleReadOnly st then st else set_consoleValue text st
  | ConsoleEnter io => handleConsoleEnter io st
  | ConsoleUp => handleConsoleUp st
  | ConsoleDown => handleConsoleDown st
  | EditorChange ed =>
      match editor st with
      | Some _ => set_editor (Some ed) st
      | None => st
      end
  | EditorRun io => runFromEditor io st
  | ClickClearConsole => clearConsole st
  | ClickClearHelp => clearHelp st
  | ClickClearPlots => clearPlots st
  | ClickPlotPrev => plotPrev_click st
  | ClickPlotNext => plotNext_click st
  | KeyDown inEditor key => keydown inEditor key st
  end.

Definition steps (evs : list Event) (st : State) : State :=
  fold_left step evs st.

(** The states a session goes through. *)
Inductive reachable : State -> Prop :=
| reach_loaded (ed : Editor) : reachable (loaded ed)
| reach_boot (boot : Boot) (st : State) :
    reachable st -> reachable (initWebR boot st)
| reach_step (ev : Event) (st : State) :
    reachable st -> reachable (step st ev).

(** ** Scenarios and specification-side definitions *)

(** One plot gallery operation; [Append] is what the runner does for each
    image of a result. *)
Inductive GalleryOp : Type :=
| Append (imageData : ImageData)
| Clear
| Next
| Prev.

Definition gallery_step (st : State) (op : GalleryOp) : State :=
  match op with
  | Append imageData => addPlot imageData st
  | Clear => clearPlots st
  | Next => plotNext_click st
  | Prev => plotPrev_click st
  end.

Definition gallery_run (ops : list GalleryOp) (st : State) : State :=
  fold_left gallery_step ops st.

(** A submission: the user fills the console input and presses Enter, or
    sets up the editor and runs from it. *)
Inductive Submission : Type :=
| ViaConsole (text : jsstring) (io : Interp)
| ViaEditor (ed : Editor) (io : Interp).

Definition submit (st : State) (s : Submission) : State :=
  match s with
  | ViaConsole text io => handleConsoleEnter io (set_consoleValue text st)
  | ViaEditor ed io => runFromEditor io (set_editor (Some ed) st)
  end.

Definition submit_all (subs : list Submission) (st : State) : State :=
  fold_left submit subs st.

(** The command a submission adds to the history, if any. *)
Definition pushed (s : Submission) : list jsstring :=
  match s with
  | ViaConsole text _ => if truthy (trim text) then [trim text] else []
  | ViaEditor _ _ => []
  end.

Definition console_only (texts : list (jsstring * Interp)) : list Submission :=
  map (fun p => ViaConsole (fst p) (snd p)) texts.

(** [handleConsoleUp] called [n] times. *)
Definition ups (n : nat) (st : State) : State :=
  Nat.iter n handleConsoleUp st.

(** A non-empty string equal to its own trim. *)
Definition trimmed_command (s : jsstring) : Prop := s <> [] /\ trim s = s.

(** The output records of the specification: a closed variant. *)
Inductive SpecRecord : Type :=
| Stdout (text : jsstring)
| Stderr (text : jsstring)
| Condition (text : jsstring).

(** The interpreter's record for each variant. *)
Definition of_spec (r : SpecRecord) : OutputRecord :=
  match r with
  | Stdout text => mkOut (js "stdout") text
  | Stderr text => mkOut (js "stderr") text
  | Condition text => mkOut (js "message") text
  end.

(** Blank or whitespace-only. *)
Definition blank (text : jsstring) : bool := forallb isTrimmed text.

(** The lines the specification asks for one record. *)
Definition spec_lines (r : SpecRecord) : list ConsoleLine :=
  match r with
  | Stdout text => if blank text then [] else [mkLine text stdout]
  | Stderr text => if blank text then [] else [mkLine text stderr]
  | Condition text => [mkLine text stderr]
  end.

(** The lines [route] appends for one record of the interpreter. *)
Definition routed (out : OutputRecord) : list ConsoleLine :=
  consoleOutput (route out (set_consoleOutput [] (loaded (mkEditor [] [] 0)))).

(** The echo of the submitted code. *)
Definition echo (code : jsstring) : list ConsoleLine :=
  match split_lf code with
  | [] => []
  | first :: rest =>
      mkLine (js "> " ++ first) command
      :: map (fun line => mkLine (js "+ " ++ line) command) rest
  end.

(** The record of a failure. *)
Definition error_line (message : jsstring) : ConsoleLine :=
  mkLine (js "Error: " ++ message) stderr.

(** Evaluation contexts acquired and not yet purged. *)
Fixpoint unreleased (calls : list Call) : Z :=
  match calls with
  | [] => 0
  | CallShelter true :: rest => unreleased rest + 1
  | CallPurge :: rest => unreleased rest - 1
  | _ :: rest => unreleased rest
  end.

(** The help syntax in words: a question mark followed by a non-empty
    topic without line terminator, or [help(topic)] where the topic is a
    non-empty run without quote or closing parenthesis and a quote may
    stand on either side. *)
Definition optional_quote (q : jsstring) : Prop :=
  q = [] \/ q = [34%N] \/ q = [39%N].

Definition plain (c : N) : Prop := c <> 34%N /\ c <> 39%N /\ c <> 41%N.

Inductive HelpSyntax : jsstring -> jsstring -> Prop :=
| help_question (topic : jsstring) :
    topic <> [] ->
    Forall (fun c => isLineTerminator c = false) topic ->
    HelpSyntax (63%N :: topic) topic
| help_call (q1 q2 topic : jsstring) :
    optional_quote q1 -> optional_quote q2 ->
    topic <> [] ->
    Forall plain topic ->
    HelpSyntax (js "help(" ++ q1 ++ topic ++ q2 ++ js ")") topic.

(** The two loops over a result, run on a state. *)
Definition consume (result : CaptureResult) (st : State) : State :=
  fold_left (fun s img => addPlot img s) (images result)
    (fold_left (fun s out => route out s) (output result) st).

(** A direct reading of the two patterns of [isHelpRequest]. *)
Definition is_quote (c : N) : bool := Regex.one_of quote c.
Definition is_plain (c : N) : bool := Regex.none_of quote_or_paren c.

(** The longest prefix in a class, and the rest. *)
Fixpoint span (p : N -> bool) (s : jsstring) : jsstring * jsstring :=
  match s with
  | [] => ([], [])
  | c :: s' =>
      if p c then let (u, v) := span p s' in (c :: u, v) else ([], s)
  end.

Definition match_question (code : jsstring) : option jsstring :=
  match code with
  | c :: topic =>
      if (63 =? c)%N && (truthy topic && forallb Regex.dot topic)
      then Some topic else None
  | [] => None
  end.

Definition strip_quote (s : jsstring) : jsstring :=
  match s with
  | c :: s' => if is_quote c then s' else s
  | [] => []
  end.

(** An optional quote, the closing parenthesis, the end. *)
Definition closes (v : jsstring) : bool :=
  match v with
  | [c] => (41 =? c)%N
  | [q; c] => is_quote q && (41 =? c)%N
  | _ => false
  end.

Definition match_help (code : jsstring) : option jsstring :=
  match code with
  | h :: e :: l :: p :: o :: rest =>
      if (104 =? h)%N && (101 =? e)%N && (108 =? l)%N && (112 =? p)%N
         && (40 =? o)%N
      then
        let (topic, v) := span is_plain (strip_quote rest) in
        if truthy topic && closes v then Some topic else None
      else None
  | _ => None
  end.

(** The parts of [re_help] after the opening quote: the captured topic
    and what follows it. *)
Definition tail_re : Regex.t :=
  Regex.Seq (Regex.Opt (Regex.Class (Regex.one_of quote)))
    (Regex.Seq (Regex.lit ")") Regex.Eol).

Definition body_re : Regex.t :=
  Regex.Seq (Regex.Group (Regex.Plus (Regex.none_of quote_or_paren))) tail_re.

(** The outcome of [body_re] on an input, read off its longest plain
    prefix. *)
Definition topic_of (s : jsstring) : option (option jsstring) :=
  if truthy (fst (span is_plain s)) && closes (snd (span is_plain s))
  then Some (Some (fst (span is_plain s))) else None.

(** ** Sample sessions *)

Definition boot_ok : Boot :=
  mkBoot (Resolved tt) (Resolved tt) (Resolved tt) (Resolved tt).

(** The installation of the package fails. *)
Definition boot_failed : Boot :=
  mkBoot (Resolved tt) (Resolved tt) (Rejected (js "download failed"))
    (Resolved tt).

Definition sample_editor : Editor := mkEditor [] [js "1 + 1"] 0.

(** A session that has become ready, and one whose start has failed. *)
Definition ready_state : State := initWebR boot_ok (loaded sample_editor).
Definition failed_state : State := initWebR boot_failed (loaded sample_editor).

(** The evaluation of [1 + 1]. *)
Definition result_two : CaptureResult :=
  mkResult [mkOut (js "stdout") (js "[1] 2")] [].

Definition io_two : Interp :=
  mkInterp (Resolved tt) (Resolved result_two) (Resolved tt) (Resolved []).

(** The evaluation succeeds and the release of the context is rejected. *)
Definition io_purge_rejected : Interp :=
  mkInterp (Resolved tt) (Resolved result_two)
    (Rejected (js "worker closed")) (Resolved []).

(** An evaluation that prints, sends blank records and signals
    conditions, one of them with an empty text. *)
Definition records_mixed : list SpecRecord :=
  [Stdout (js "[1] 2"); Stdout (js "  "); Stderr []; Condition [];
   Stderr (js "oops")].

Definition result_mixed : CaptureResult :=
  mkResult (map of_spec records_mixed) [].

Definition io_mixed : Interp :=
  mkInterp (Resolved tt) (Resolved result_mixed) (Resolved tt) (Resolved []).

(** The interpreter raises during the evaluation. *)
Definition io_not_found : Interp :=
  mkInterp (Resolved tt) (Rejected (js "object not found")) (Resolved tt)
    (Resolved []).

(** ** Invariants *)

(** A property kept by a computation, whichever way it ends. *)
Definition preserved {A : Type} (P : State -> Prop) (m : M A) : Prop :=
  forall st, P st -> P (fst (m st)).

(** A property kept by every assignment the runner makes: such a property
    is kept by [runCode] as a whole. *)
Class RunnerStable (P : State -> Prop) : Prop := {
  stable_call : forall c st, P st -> P (call c st);
  stable_appendConsole :
    forall text type st, P st -> P (appendConsole text type st);
  stable_addPlot : forall imageData st, P st -> P (addPlot imageData st);
  stable_isRunning : forall b st, P st -> P (set_isRunning b st);
  stable_runBtnDisabled : forall b st, P st -> P (set_runBtnDisabled b st);
  stable_consoleReadOnly : forall b st, P st -> P (set_consoleReadOnly b st);
  stable_status : forall v st, P st -> P (set_status v st);
  stable_helpPanel : forall v st, P st -> P (set_helpPanel v st)
}.

(** The current index points into the buffer, or is 0 when it is empty. *)
Definition plot_inv (st : State) : Prop :=
  (plotImages st = [] /\ currentPlotIndex st = 0)
  \/ 0 <= currentPlotIndex st < zlength (plotImages st).

(** The cursor is -1 or points into the history. *)
Definition cursor_inv (st : State) : Prop :=
  -1 <= historyIndex st < zlength (commandHistory st).

(** Every history entry is a non-empty trimmed command. *)
Definition history_inv (st : State) : Prop :=
  Forall trimmed_command (commandHistory st).

(** ** Regular expressions with flags

    The expressions of [rAutoIndent] and [displayHelp] need alternation,
    the star, a search from every position and the flags [m] and [g]; the
    matcher is the backtracking one of ECMAScript again.  It runs on the
    code units consumed since the start of the match (most recent first),
    the rest of the input and capture 1. *)
Module Re.

Inductive t : Type :=
| Bol                               (* ^ *)
| Eol                               (* $ *)
| Class (p : N -> bool)             (* one code unit of a class *)
| Star (p : N -> bool)              (* [class]*  greedy *)
| Plus (p : N -> bool)              (* [class]+  greedy *)
| Seq (r1 r2 : t)
| Alt (r1 r2 : t)                   (* r1|r2 *)
| Group (r : t).                    (* ( r ), capture 1 *)

Definition lit (a : ascii) : t := Class (N.eqb (N_of_ascii a)).

Fixpoint lits (l : list ascii) : t :=
  match l with
  | [] => Star (fun _ => false)
  | [a] => lit a
  | a :: l' => Seq (lit a) (lits l')
  end.

Definition range (lo hi : ascii) (c : N) : bool :=
  (N_of_ascii lo <=? c)%N && (c <=? N_of_ascii hi)%N.

(** A match: the text matched, capture 1 and the rest of the input. *)
Record Match : Type := mkMatch {
  matched : jsstring;
  group1 : option jsstring;
  rest : jsstring
}.

Section Matcher.
Context {R : Type}.
Variable multiline : bool.          (* flag m *)
Variable before : option N.         (* the code unit before the match *)

Definition cont : Type := jsstring -> jsstring -> option jsstring -> option R.

Definition previous (acc : jsstring) : option N :=
  match acc with
  | c :: _ => Some c
  | [] => before
  end.

Definition at_bol (acc : jsstring) : bool :=
  match previous acc with
  | None => true
  | Some c => multiline && isLineTerminator c
  end.

Definition at_eol (s : jsstring) : bool :=
  match s with
  | [] => true
  | c :: _ => multiline && isLineTerminator c
  end.

Fixpoint star (p : N -> bool) (acc s : jsstring) (cap : option jsstring)
    (k : cont) : option R :=
  match s with
  | [] => k acc s cap
  | c :: s' =>
      if p c then
        match star p (c :: acc) s' cap k with
        | Some x => Some x
        | None => k acc s cap
        end
      else k acc s cap
  end.

Fixpoint run (r : t) (acc s : jsstring) (cap : option jsstring) (k : cont)
  : option R :=
  match r with
  | Bol => if at_bol acc then k acc s cap else None
  | Eol => if at_eol s then k acc s cap else None
  | Class p =>
      match s with
      | [] => None
      | c :: s' => if p c then k (c :: acc) s' cap else None
      end
  | Star p => star p acc s cap k
  | Plus p =>
      match s with
      | [] => None
      | c :: s' => if p c then star p (c :: acc) s' cap k else None
      end
  | Seq r1 r2 =>
      run r1 acc s cap (fun acc' s' cap' => run r2 acc' s' cap' k)
  | Alt r1 r2 =>
      match run r1 acc s cap k with
      | Some x => Some x
      | None => run r2 acc s cap k
      end
  | Group r1 =>
      run r1 acc s cap
        (fun acc' s' _ =>
           k acc' s'
             (Some (rev (firstn (List.length acc' - List.length acc) acc'))))
  end.
End Matcher.

(** The match starting at the current position, if any. *)
Definition exec_at (multiline : bool) (r : t) (before : option N)
    (s : jsstring) : option Match :=
  run multiline before r [] s None
    (fun acc s' cap => Some (mkMatch (rev acc) cap s')).

(** The first match from the left, with the text skipped before it. *)
Fixpoint search (multiline : bool) (r : t) (before : option N)
    (s : jsstring) : option (jsstring * Match) :=
  match exec_at multiline r before s with
  | Some m => Some ([], m)
  | None =>
      match s with
      | [] => None
      | c :: s' =>
          match search multiline r (Some c) s' with
          | Some (skipped, m) => Some (c :: skipped, m)
          | None => None
          end
      end
  end.

(** [re.test(s)] *)
Definition test (multiline : bool) (r : t) (s : jsstring) : bool :=
  match search multiline r None s with
  | Some _ => true
  | None => false
  end.

(** A replacement string: text and [$1]. *)
Inductive piece : Type :=
| Text (s : jsstring)
| Group1.

Definition expand (template : list piece) (m : Match) : jsstring :=
  flat_map
    (fun p =>
       match p with
       | Text s => s
       | Group1 => match group1 m with Some g => g | None => [] end
       end)
    template.

(** [s.replace(re, template)] with the flag [g]: the matches are taken
    from the left without overlap; [skip] counts the code units of the
    last match still to pass; after an empty match one code unit is
    copied. *)
Fixpoint replace_from (multiline : bool) (r : t) (template : list piece)
    (before : option N) (s : jsstring) (skip : nat) : jsstring :=
  match skip with
  | S k =>
      match s with
      | [] => []
      | c :: s' => replace_from multiline r template (Some c) s' k
      end
  | O =>
      match exec_at multiline r before s with
      | Some m =>
          expand template m
          ++ match s with
             | [] => []
             | c :: s' =>
                 match matched m with
                 | [] => c :: replace_from multiline r template (Some c) s' 0
                 | _ :: w =>
                     replace_from multiline r template (Some c) s'
                       (List.length w)
                 end
             end
      | None =>
          match s with
          | [] => []
          | c :: s' => c :: replace_from multiline r template (Some c) s' 0
          end
      end
  end.

Definition replace_all (multiline : bool) (r : t) (template : list piece)
    (s : jsstring) : jsstring :=
  replace_from multiline r template None s 0.

End Re.

(** ** Editor: automatic indentation *)

(** [/^\s*/]; the class [\s] is the white space and the line terminators,
    what [trim] strips. *)
Definition re_indent : Re.t := Re.Seq Re.Bol (Re.Star isTrimmed).

(** [/(\|>|%>%|\+|\{|\(|\[|,)$/] *)
Definition re_continues : Re.t :=
  Re.Seq
    (Re.Group
       (Re.Alt (Re.lits ["|"; ">"]%char)
          (Re.Alt (Re.lits ["%"; ">"; "%"]%char)
             (Re.Alt (Re.lit "+")
                (Re.Alt (Re.lit "{")
                   (Re.Alt (Re.lit "(")
                      (Re.Alt (Re.lit "[") (Re.lit ","))))))))
    Re.Eol.

(** [str.match(re)[0]] for an expression that always matches. *)
Definition match0 (found : option (jsstring * Re.Match)) : jsstring :=
  match found with
  | Some (_, m) => Re.matched m
  | None => []
  end.

(** The line [cm.getLine(line - 1)], or the empty string on line 0. *)
Definition prevLine_of (ed : Editor) : jsstring :=
  match ed_cursorLine ed with
  | O => []
  | S l => nth l (ed_lines ed) []
  end.

Definition rAutoIndent (ed : Editor) : jsstring :=
  let prevLine := prevLine_of ed in
  let prevIndent := match0 (Re.search false re_indent None prevLine) in
  let trimmedPrev := trimEnd prevLine in
  let shouldIndent := Re.test false re_continues trimmedPrev in
  if shouldIndent then prevIndent ++ js "  " else prevIndent.

(** ** Help panel: the markup *)

Definition help_section_open : jsstring :=
  js "<div class=" ++ [34%N] ++ js "help-section" ++ [34%N] ++ js ">".

Definition div_close : jsstring := js "</div>".

(** [/^_([^_]+)_$/gm] *)
Definition re_underlined : Re.t :=
  Re.Seq Re.Bol
    (Re.Seq (Re.lit "_")
       (Re.Seq (Re.Group (Re.Plus (fun c => negb (N_of_ascii "_" =? c)%N)))
          (Re.Seq (Re.lit "_") Re.Eol))).

Definition upper (c : N) : bool := Re.range "A" "Z" c.
Definition letter_or_space (c : N) : bool :=
  Re.range "A" "Z" c || Re.range "a" "z" c || (N_of_ascii " " =? c)%N.

(** [/^([A-Z][A-Za-z ]+):$/gm] *)
Definition re_heading : Re.t :=
  Re.Seq Re.Bol
    (Re.Seq
       (Re.Group (Re.Seq (Re.Class upper) (Re.Plus letter_or_space)))
       (Re.Seq (Re.lit ":") Re.Eol)).

(** The chain of [replace] calls of [displayHelp]: the three that escape,
    then the two that mark the section headings. *)
Definition escapeHelp (text : jsstring) : jsstring :=
  let s := Re.replace_all false (Re.lit "&") [Re.Text (js "&amp;")] text in
  let s := Re.replace_all false (Re.lit "<") [Re.Text (js "&lt;")] s in
  Re.replace_all false (Re.lit ">") [Re.Text (js "&gt;")] s.

Definition sectionsHelp (s : jsstring) : jsstring :=
  let s :=
    Re.replace_all true re_underlined
      [Re.Text help_section_open; Re.Group1; Re.Text div_close] s in
  Re.replace_all true re_heading
    [Re.Text help_section_open; Re.Group1; Re.Text (js ":</div>")] s.

Definition formatHelp (text : jsstring) : jsstring :=
  sectionsHelp (escapeHelp text).

(** [helpContent.innerHTML] after [displayHelp] and after [clearHelp]. *)
Definition help_innerHTML (st : State) : jsstring :=
  match helpPanel st with
  | Some (_, text) =>
      js "<div class=" ++ [34%N] ++ js "help-content" ++ [34%N] ++ js ">"
      ++ formatHelp text ++ js "</div>"
  | None =>
      js "<span class=" ++ [34%N] ++ js "help-empty" ++ [34%N]
      ++ js ">Run ?topic or help(topic) to view documentation</span>"
  end.

(** *** Specification-side definitions for the editor and the help panel *)

(** The tokens after which a line continues. *)
Definition continuation_tokens : list jsstring :=
  [js "|>"; js "%>%"; js "+"; js "{"; js "("; js "["; js ","].

(** The escape of one code unit. *)
Definition escape_char (c : N) : jsstring :=
  if (c =? 38)%N then js "&amp;"
  else if (c =? 60)%N then js "&lt;"
  else if (c =? 62)%N then js "&gt;"
  else [c].

(** Every [<] of [s] is the first code unit of an occurrence of one of
    [tags]. *)
Definition tag_starts (tags : list jsstring) (s : jsstring) : Prop :=
  forall pre suf,
    s = pre ++ 60%N :: suf ->
    exists tag rest, In tag tags /\ 60%N :: suf = tag ++ rest.

(** The tags [displayHelp] and [clearHelp] write. *)
Definition help_content_open : jsstring :=
  js "<div class=" ++ [34%N] ++ js "help-content" ++ [34%N] ++ js ">".
Definition help_empty_open : jsstring :=
  js "<span class=" ++ [34%N] ++ js "help-empty" ++ [34%N] ++ js ">".
Definition section_tags : list jsstring := [help_section_open; div_close].
Definition help_tags : list jsstring :=
  [help_content_open; help_section_open; div_close; help_empty_open;
   js "</span>"].

(** A line that reads as a heading: a capital letter, then letters and
    spaces, at least one, then a colon. *)
Definition is_heading (l : jsstring) : bool :=
  match l with
  | c :: w =>
      upper c
      && match rev w with
         | colon :: rw =>
             (colon =? 58)%N && truthy rw && forallb letter_or_space rw
         | [] => false
         end
  | [] => false
  end.

(** What the panel shows for one line of a text without underscore. *)
Definition format_line (l : jsstring) : jsstring :=
  if is_heading l then help_section_open ++ l ++ div_close
  else flat_map escape_char l.

(** The second pass of [sectionsHelp] from a position of its input. *)
Definition heading_template : list Re.piece :=
  [Re.Text help_section_open; Re.Group1; Re.Text (js ":</div>")].

Definition heading_pass (before : option N) (s : jsstring) (skip : nat)
  : jsstring :=
  Re.replace_from true re_heading heading_template before s skip.

(** The pass on what follows a line: nothing, or a line feed and the rest. *)
Definition after_line (tail : jsstring) : jsstring :=
  match tail with
  | [] => []
  | c :: t => c :: heading_pass (Some c) t 0
  end.

(** ** Further scenarios *)

(** [handleConsoleDown] called [n] times. *)
Definition downs (n : nat) (st : State) : State :=
  Nat.iter n handleConsoleDown st.

(** The run key pressed once per element of [ios], nothing else happening
    in the editor in between. *)
Definition editor_runs (ios : list Interp) (st : State) : State :=
  fold_left (fun s io => runFromEditor io s) ios st.

(** The message of the first awaited call of [initWebR] that is rejected,
    in the order of the calls. *)
Definition boot_error (boot : Boot) : option jsstring :=
  match on_init boot, on_options boot, on_install boot, on_library boot with
  | Rejected e, _, _, _ => Some e
  | Resolved _, Rejected e, _, _ => Some e
  | Resolved _, Resolved _, Rejected e, _ => Some e
  | Resolved _, Resolved _, Resolved _, Rejected e => Some e
  | Resolved _, Resolved _, Resolved _, Resolved _ => None
  end.

(** [lines.join('\n')], the inverse of [split('\n')]. *)
Fixpoint join_lf (lines : list jsstring) : jsstring :=
  match lines with
  | [] => []
  | [l] => l
  | l :: rest => l ++ 10%N :: join_lf rest
  end.

(** ** Strings: facts about [trim] *)

Lemma trimStart_app (u v : jsstring) :
  trimStart v = v -> trimStart (u ++ v) = trimStart u ++ v.
Proof.
  intro Hv. induction u as [|a u IH]; cbn.
  - exact Hv.
  - destruct (isTrimmed a); [exact IH | reflexivity].
Qed.

Lemma trimStart_idem (s : jsstring) : trimStart (trimStart s) = trimStart s.
Proof.
  induction s as [|a s IH]; cbn; [reflexivity|].
  destruct (isTrimmed a) eqn:E; [exact IH|].
  cbn. now rewrite E.
Qed.

Lemma trimStart_blank (s : jsstring) :
  truthy (trimStart s) = negb (forallb isTrimmed s).
Proof.
  induction s as [|a s IH]; cbn; [reflexivity|].
  destruct (isTrimmed a); cbn; [exact IH | reflexivity].
Qed.

Lemma trimEnd_cons (c : N) (s : jsstring) :
  isTrimmed c = false -> trimEnd (c :: s) = c :: trimEnd s.
Proof.
  intro Hc. unfold trimEnd. cbn [rev].
  rewrite trimStart_app by (cbn; now rewrite Hc).
  rewrite rev_app_distr. reflexivity.
Qed.

Lemma trimEnd_idem (s : jsstring) : trimEnd (trimEnd s) = trimEnd s.
Proof.
  unfold trimEnd. now rewrite rev_involutive, trimStart_idem.
Qed.

Lemma trimStart_head (s : jsstring) :
  trimStart s = [] \/
  exists c t, trimStart s = c :: t /\ isTrimmed c = false.
Proof.
  induction s as [|a s IH]; cbn; [now left|].
  destruct (isTrimmed a) eqn:E; [exact IH|].
  right. now exists a, s.
Qed.

Lemma trimStart_trim (s : jsstring) : trimStart (trim s) = trim s.
Proof.
  unfold trim.
  destruct (trimStart_head s) as [-> | (c & t & -> & Hc)]; [reflexivity|].
  rewrite trimEnd_cons by exact Hc. cbn. now rewrite Hc.
Qed.

Lemma trim_idem (s : jsstring) : trim (trim s) = trim s.
Proof.
  unfold trim at 1. rewrite trimStart_trim.
  unfold trim. apply trimEnd_idem.
Qed.

Lemma truthy_rev (s : jsstring) : truthy (rev s) = truthy s.
Proof.
  destruct s as [|a s]; [reflexivity|]. cbn.
  destruct (rev s); reflexivity.
Qed.

Lemma forallb_rev (p : N -> bool) (s : jsstring) :
  forallb p (rev s) = forallb p s.
Proof.
  induction s as [|a s IH]; [reflexivity|]. cbn.
  rewrite forallb_app, IH. cbn. rewrite andb_true_r. apply andb_comm.
Qed.

Lemma forallb_trimStart (s : jsstring) :
  forallb isTrimmed (trimStart s) = forallb isTrimmed s.
Proof.
  induction s as [|a s IH]; cbn; [reflexivity|].
  destruct (isTrimmed a) eqn:E; cbn; [exact IH | now rewrite E].
Qed.

(** [code.trim()] is truthy exactly when [code] is not blank. *)
Lemma truthy_trim (s : jsstring) : truthy (trim s) = negb (blank s).
Proof.
  unfold trim, trimEnd, blank.
  rewrite truthy_rev, trimStart_blank, forallb_rev.
  now rewrite forallb_trimStart.
Qed.

Lemma truthy_true (s : jsstring) : truthy s = true <-> s <> [].
Proof. destruct s; cbn; split; congruence. Qed.

Lemma truthy_false (s : jsstring) : truthy s = false <-> s = [].
Proof. destruct s; cbn; split; congruence. Qed.

Lemma trimmed_command_trim (s : jsstring) :
  truthy (trim s) = true -> trimmed_command (trim s).
Proof.
  intro H. split; [now apply truthy_true | apply trim_idem].
Qed.

(** ** The exception monad *)

Lemma for_of_exec {A : Type} (f : A -> State -> State) (l : list A)
    (st : State) :
  for_of l (fun x => exec (f x)) st
  = (fold_left (fun s x => f x s) l st, Resolved tt).
Proof.
  revert st. induction l as [|x l IH]; intro st; cbn; [reflexivity|].
  unfold bind, exec at 1. apply IH.
Qed.

Section Preserved.
Variable P : State -> Prop.

Lemma preserved_ret {A : Type} (a : A) : preserved P (ret a).
Proof. intros st H. exact H. Qed.

Lemma preserved_exec (f : State -> State) :
  (forall st, P st -> P (f st)) -> preserved P (exec f).
Proof. intros Hf st H. cbn. now apply Hf. Qed.

Lemma preserved_bind {A B : Type} (m : M A) (f : A -> M B) :
  preserved P m -> (forall a, preserved P (f a)) -> preserved P (bind m f).
Proof.
  intros Hm Hf st H. unfold bind. specialize (Hm st H).
  destruct (m st) as [st' [a|e]]; cbn in *; [now apply Hf | exact Hm].
Qed.

Lemma preserved_try_catch {A : Type} (m : M A) (h : jsstring -> M A) :
  preserved P m -> (forall e, preserved P (h e)) ->
  preserved P (try_catch m h).
Proof.
  intros Hm Hh st H. unfold try_catch. specialize (Hm st H).
  destruct (m st) as [st' [a|e]]; cbn in *; [exact Hm | now apply Hh].
Qed.

Lemma preserved_try_finally {A : Type} (m : M A) (f : M unit) :
  preserved P m -> preserved P f -> preserved P (try_finally m f).
Proof.
  intros Hm Hf st H. unfold try_finally. specialize (Hm st H).
  destruct (m st) as [st' r]; cbn in *. specialize (Hf st' Hm).
  destruct (f st') as [st'' [u|e]]; cbn in *; exact Hf.
Qed.

Lemma preserved_for_of {A : Type} (l : list A) (body : A -> M unit) :
  (forall x, preserved P (body x)) -> preserved P (for_of l body).
Proof.
  intro Hb. induction l as [|x l IH]; cbn.
  - apply preserved_ret.
  - apply preserved_bind; [apply Hb | intros _; exact IH].
Qed.

Context {stable : RunnerStable P}.

Lemma stable_route (out : OutputRecord) (st : State) :
  P st -> P (route out st).
Proof.
  intro H. unfold route.
  repeat match goal with
         | |- context [if ?b then _ else _] => destruct b
         end; try exact H; now apply stable_appendConsole.
Qed.

Lemma stable_forEach_echo (lines : list jsstring) (i : nat) (st : State) :
  P st -> P (forEach_echo lines i st).
Proof.
  revert i st. induction lines as [|l lines IH]; intros i st H; cbn.
  - exact H.
  - apply IH. now apply stable_appendConsole.
Qed.

Lemma stable_runCode_begin (code : jsstring) (st : State) :
  P st -> P (runCode_begin code st).
Proof.
  intro H. unfold runCode_begin, setStatus.
  apply stable_forEach_echo, stable_status, stable_consoleReadOnly,
    stable_runBtnDisabled, stable_isRunning, H.
Qed.

Lemma stable_runCode_end (st : State) : P st -> P (runCode_end st).
Proof.
  intro H. unfold runCode_end, setStatus.
  apply stable_status, stable_consoleReadOnly, stable_runBtnDisabled,
    stable_isRunning, H.
Qed.

Lemma stable_runCode_try (io : Interp) (code : jsstring) :
  preserved P (runCode_try io code).
Proof.
  unfold runCode_try.
  apply preserved_try_catch.
  - apply preserved_bind.
    + intros st H. cbn. now apply stable_call.
    + intros _. apply preserved_try_finally.
      * apply preserved_bind.
        { intros st H. cbn. now apply stable_call. }
        intro result. apply preserved_bind.
        { apply preserved_for_of. intro out. apply preserved_exec.
          intros st H. now apply stable_route. }
        intros _. apply preserved_for_of. intro img. apply preserved_exec.
        intros st H. now apply stable_addPlot.
      * intros st H. cbn. now apply stable_call.
  - intro e. apply preserved_exec. intros st H.
    now apply stable_appendConsole.
Qed.

Lemma stable_getHelp (io : Interp) (topic : jsstring) :
  preserved P (getHelp io topic).
Proof.
  intros st H. unfold getHelp. destruct (negb (webR st)); [exact H|].
  revert st H. apply preserved_try_catch.
  - apply preserved_bind.
    + intros st H. cbn. now apply stable_call.
    + intro result. apply preserved_exec. intros st H.
      now apply stable_helpPanel.
  - intro e. apply preserved_exec. intros st H. now apply stable_helpPanel.
Qed.

(** The runner keeps every stable property. *)
Lemma stable_runCode (io : Interp) (code : jsstring) (st : State) :
  P st -> P (runCode io code st).
Proof.
  intro H. unfold runCode.
  destruct (isRunning st || negb (webR st) || negb (truthy code));
    [exact H|].
  destruct (helpTopicMatch code) as [topic|].
  - apply stable_getHelp. now apply stable_appendConsole.
  - apply stable_runCode_end, stable_runCode_try, stable_runCode_begin, H.
Qed.
End Preserved.


(** ** Plot gallery *)

Ltac by_fields :=
  repeat match goal with
         | st : State |- _ => destruct st
         end;
  cbn in *; try reflexivity; try assumption.

Lemma zlength_app {A : Type} (l : list A) (x : A) :
  zlength (l ++ [x]) = zlength l + 1.
Proof. unfold zlength. rewrite length_app. cbn. lia. Qed.

Lemma zlength_nonneg {A : Type} (l : list A) : 0 <= zlength l.
Proof. unfold zlength. lia. Qed.

Lemma zlength_nil_inv {A : Type} (l : list A) : zlength l = 0 -> l = [].
Proof. destruct l; [reflexivity | unfold zlength; cbn; lia]. Qed.

Lemma plotImages_addPlot (imageData : ImageData) (st : State) :
  plotImages (addPlot imageData st) = plotImages st ++ [toDataUrl imageData].
Proof. by_fields. Qed.

Lemma currentPlotIndex_addPlot (imageData : ImageData) (st : State) :
  currentPlotIndex (addPlot imageData st) = zlength (plotImages st).
Proof.
  unfold addPlot. destruct st; cbn. rewrite zlength_app. lia.
Qed.

Lemma index_last {A : Type} (l : list A) (x : A) :
  index (l ++ [x]) (zlength l) = Some x.
Proof.
  unfold index, zlength.
  destruct (Z.ltb_spec (Z.of_nat (List.length l)) 0) as [E|E]; [lia|].
  rewrite Nat2Z.id, nth_error_app2 by lia.
  now rewrite Nat.sub_diag.
Qed.

Lemma plot_inv_frame (st st' : State) :
  plotImages st' = plotImages st ->
  currentPlotIndex st' = currentPlotIndex st ->
  plot_inv st -> plot_inv st'.
Proof. unfold plot_inv. intros -> ->. exact (fun H => H). Qed.

Lemma plot_inv_addPlot (imageData : ImageData) (st : State) :
  plot_inv (addPlot imageData st).
Proof.
  right. rewrite currentPlotIndex_addPlot, plotImages_addPlot, zlength_app.
  pose proof (zlength_nonneg (plotImages st)). lia.
Qed.

Lemma plot_inv_clearPlots (st : State) : plot_inv (clearPlots st).
Proof. left. by_fields. now split. Qed.

Lemma plot_inv_prev (st : State) : plot_inv st -> plot_inv (plotPrev_click st).
Proof.
  unfold plotPrev_click, plot_inv.
  destruct (currentPlotIndex st >? 0) eqn:E; [|exact (fun H => H)].
  destruct st; cbn in *. intros [[_ ->]|H]; [discriminate|]. right. lia.
Qed.

Lemma plot_inv_next (st : State) : plot_inv st -> plot_inv (plotNext_click st).
Proof.
  unfold plotNext_click, plot_inv.
  destruct (currentPlotIndex st <? zlength (plotImages st) - 1) eqn:E;
    [|exact (fun H => H)].
  destruct st; cbn in *. intros [[-> ->]|H]; [discriminate|]. right. lia.
Qed.

Lemma plot_inv_keydown (inEditor : bool) (key : Key) (st : State) :
  plot_inv st -> plot_inv (keydown inEditor key st).
Proof.
  unfold keydown. destruct inEditor; [exact (fun H => H)|].
  destruct key; [| |exact (fun H => H)].
  - destruct (zlength (plotImages st) >? 0); cbn; [|exact (fun H => H)].
    exact (plot_inv_prev st).
  - destruct (zlength (plotImages st) >? 0); cbn; [|exact (fun H => H)].
    exact (plot_inv_next st).
Qed.

#[local] Instance plot_inv_stable : RunnerStable plot_inv.
Proof.
  split; intros;
    try solve [eapply plot_inv_frame; [| |eassumption]; by_fields].
  apply plot_inv_addPlot.
Qed.

Lemma plot_inv_gallery_step (op : GalleryOp) (st : State) :
  plot_inv st -> plot_inv (gallery_step st op).
Proof.
  destruct op; cbn; intro H.
  - apply plot_inv_addPlot.
  - apply plot_inv_clearPlots.
  - now apply plot_inv_next.
  - now apply plot_inv_prev.
Qed.

Lemma plot_inv_gallery_run (ops : list GalleryOp) (st : State) :
  plot_inv st -> plot_inv (gallery_run ops st).
Proof.
  revert st. induction ops as [|op ops IH]; intros st H; cbn; [exact H|].
  apply IH, plot_inv_gallery_step, H.
Qed.

Lemma plot_inv_handleConsoleEnter (io : Interp) (st : State) :
  plot_inv st -> plot_inv (handleConsoleEnter io st).
Proof.
  intro H. unfold handleConsoleEnter.
  destruct (truthy (trim (consoleValue st))); [|exact H].
  apply stable_runCode; [exact plot_inv_stable|].
  eapply plot_inv_frame; [| |exact H]; by_fields.
Qed.

Lemma plot_inv_runFromEditor (io : Interp) (st : State) :
  plot_inv st -> plot_inv (runFromEditor io st).
Proof.
  intro H. unfold runFromEditor.
  destruct (editor st) as [ed|]; [|exact H].
  destruct (truthy (ed_selection ed)).
  - destruct (truthy (trim (ed_selection ed))); [|exact H].
    now apply stable_runCode; [exact plot_inv_stable|].
  - set (st1 := if _ <? _ then _ else st).
    assert (H1 : plot_inv st1).
    { subst st1. destruct (_ <? _); [|exact H].
      eapply plot_inv_frame; [| |exact H]; by_fields. }
    destruct (truthy _); [|exact H1].
    now apply stable_runCode; [exact plot_inv_stable|].
Qed.

Lemma plot_inv_step (ev : Event) (st : State) :
  plot_inv st -> plot_inv (step st ev).
Proof.
  intro H. destruct ev; cbn.
  - destruct (consoleReadOnly st); [exact H|].
    eapply plot_inv_frame; [| |exact H]; by_fields.
  - now apply plot_inv_handleConsoleEnter.
  - unfold handleConsoleUp, setValue_history.
    destruct (_ <? _); [|exact H].
    destruct (index _ _); eapply plot_inv_frame; try exact H; by_fields.
  - unfold handleConsoleDown, setValue_history.
    destruct (_ >? _).
    + destruct (index _ _); eapply plot_inv_frame; try exact H; by_fields.
    + destruct (_ =? _); [|exact H].
      eapply plot_inv_frame; [| |exact H]; by_fields.
  - destruct (editor st); [|exact H].
    eapply plot_inv_frame; [| |exact H]; by_fields.
  - now apply plot_inv_runFromEditor.
  - eapply plot_inv_frame; [| |exact H]; by_fields.
  - eapply plot_inv_frame; [| |exact H]; by_fields.
  - apply plot_inv_clearPlots.
  - now apply plot_inv_prev.
  - now apply plot_inv_next.
  - now apply plot_inv_keydown.
Qed.

Lemma preserved_initWebR (P : State -> Prop) `{RunnerStable P} :
  (forall b st, P st -> P (set_webR b st)) ->
  (forall st, P st -> P (clearConsole st)) ->
  forall boot st, P st -> P (initWebR boot st).
Proof.
  intros Hw Hc boot. unfold initWebR.
  assert (Hcall : forall c (r : Outcome unit),
             preserved P (fun st => (call c st, r))).
  { intros c r st Hst. cbn. now apply stable_call. }
  assert (Hstat : forall s t, preserved P (exec (setStatus s t))).
  { intros s t. apply preserved_exec. intros st Hst.
    now apply stable_status. }
  assert (Happ : forall s t, preserved P (exec (appendConsole s t))).
  { intros s t. apply preserved_exec. intros st Hst.
    now apply stable_appendConsole. }
  apply preserved_try_catch.
  - repeat (apply preserved_bind; [|intros _]);
      try apply Hstat; try apply Happ; try apply Hcall;
      apply preserved_exec; intros st Hst;
      try (now apply Hc);
      try (now apply stable_runBtnDisabled);
      try (now apply stable_consoleReadOnly).
    unfold initWebR_begin. now apply Hw, stable_status.
  - intro e. apply preserved_bind; [apply Hstat | intros _; apply Happ].
Qed.

Lemma plot_inv_reachable (st : State) : reachable st -> plot_inv st.
Proof.
  induction 1 as [ed|boot st _ IH|ev st _ IH].
  - left. now split.
  - apply (preserved_initWebR plot_inv); try exact IH;
      intros; (eapply plot_inv_frame; [| |eassumption]; by_fields).
  - now apply plot_inv_step.
Qed.

(** C8.  Whatever the state of the gallery, and so after any sequence of
    gallery operations, [addPlot] leaves the current index on the image it
    has just appended: the view shows that image and its position equals
    the total. *)
Theorem addPlot_focuses_newest (imageData : ImageData) (st : State) :
  currentPlotIndex (addPlot imageData st)
  = zlength (plotImages (addPlot imageData st)) - 1
  /\ plotImages (addPlot imageData st)
     = plotImages st ++ [toDataUrl imageData]
  /\ exists view,
       updatePlotDisplay (addPlot imageData st) = Some view
       /\ position view = total view
       /\ image view = Some (toDataUrl imageData)
       /\ (forall ops,
             let st' := addPlot imageData (gallery_run ops st) in
             exists view',
               updatePlotDisplay st' = Some view'
               /\ position view' = total view').
Proof.
  assert (Hview : forall s,
    exists view, updatePlotDisplay (addPlot imageData s) = Some view
      /\ position view = total view
      /\ image view = Some (toDataUrl imageData)).
  { intro s. unfold updatePlotDisplay.
    rewrite currentPlotIndex_addPlot, plotImages_addPlot, zlength_app.
    pose proof (zlength_nonneg (plotImages s)).
    destruct (zlength (plotImages s) + 1 =? 0) eqn:E; [lia|].
    eexists. split; [reflexivity|]. cbn. split; [reflexivity|].
    apply index_last. }
  rewrite currentPlotIndex_addPlot, plotImages_addPlot, zlength_app.
  split; [lia|]. split; [reflexivity|].
  destruct (Hview st) as (view & Hv & Hp & Hi).
  exists view. repeat split; try assumption.
  intros ops st'. destruct (Hview (gallery_run ops st)) as (v' & ? & ? & _).
  now exists v'.
Qed.

(** C9.  Previous at the first plot and next at the last plot change
    nothing, and in every state reached by a session followed by any
    gallery operations the counter shows a position between 1 and the
    total. *)
Theorem plot_navigation_saturates :
  (forall st, currentPlotIndex st = 0 -> plotPrev_click st = st)
  /\ (forall st,
        currentPlotIndex st = zlength (plotImages st) - 1 ->
        plotNext_click st = st)
  /\ (forall st ops view,
        reachable st ->
        updatePlotDisplay (gallery_run ops st) = Some view ->
        1 <= total view /\ 1 <= position view <= total view).
Proof.
  split; [|split].
  - intros st H. unfold plotPrev_click. now rewrite H.
  - intros st H. unfold plotNext_click. rewrite H.
    now rewrite Z.ltb_irrefl.
  - intros st ops view Hr Hv.
    pose proof (plot_inv_gallery_run ops st (plot_inv_reachable st Hr)) as Hi.
    unfold updatePlotDisplay in Hv.
    destruct (zlength (plotImages (gallery_run ops st)) =? 0) eqn:E;
      [discriminate|].
    injection Hv as <-. cbn.
    destruct Hi as [[Hnil _]|Hi]; [rewrite Hnil in E; discriminate|]. lia.
Qed.

(** ** Console history *)

(** The runner never touches the history, the cursor or the input. *)
#[local] Instance console_stable (h : list jsstring) (i : Z) (v : jsstring) :
  RunnerStable (fun st =>
    commandHistory st = h /\ historyIndex st = i /\ consoleValue st = v).
Proof. split; intros; by_fields. Qed.

Lemma runCode_console (io : Interp) (code : jsstring) (st : State) :
  commandHistory (runCode io code st) = commandHistory st
  /\ historyIndex (runCode io code st) = historyIndex st
  /\ consoleValue (runCode io code st) = consoleValue st.
Proof.
  apply (stable_runCode _ (stable := console_stable _ _ _)).
  now repeat split.
Qed.

Lemma handleConsoleEnter_blank (io : Interp) (st : State) :
  truthy (trim (consoleValue st)) = false -> handleConsoleEnter io st = st.
Proof. intro H. unfold handleConsoleEnter. now rewrite H. Qed.

Lemma handleConsoleEnter_push (io : Interp) (st : State) :
  truthy (trim (consoleValue st)) = true ->
  commandHistory (handleConsoleEnter io st)
  = trim (consoleValue st) :: commandHistory st
  /\ historyIndex (handleConsoleEnter io st) = -1
  /\ consoleValue (handleConsoleEnter io st) = [].
Proof.
  intro H. unfold handleConsoleEnter. rewrite H.
  destruct (runCode_console io (trim (consoleValue st))
              (set_consoleValue []
                 (set_historyIndex (-1)
                    (set_commandHistory
                       (trim (consoleValue st) :: commandHistory st) st))))
    as (-> & -> & ->).
  by_fields. now repeat split.
Qed.

Lemma runFromEditor_console (io : Interp) (st : State) :
  commandHistory (runFromEditor io st) = commandHistory st
  /\ historyIndex (runFromEditor io st) = historyIndex st
  /\ consoleValue (runFromEditor io st) = consoleValue st.
Proof.
  unfold runFromEditor. destruct (editor st) as [ed|]; [|now repeat split].
  destruct (truthy (ed_selection ed)).
  - destruct (truthy (trim (ed_selection ed))); [|now repeat split].
    apply runCode_console.
  - set (st1 := if _ <? _ then _ else st).
    assert (H1 : commandHistory st1 = commandHistory st
                 /\ historyIndex st1 = historyIndex st
                 /\ consoleValue st1 = consoleValue st).
    { subst st1. destruct (_ <? _); by_fields; now repeat split. }
    destruct H1 as (H1 & H2 & H3).
    destruct (truthy _); [|now repeat split].
    rewrite <- H1, <- H2, <- H3. apply runCode_console.
Qed.

Lemma submit_history (s : Submission) (st : State) :
  commandHistory (submit st s) = pushed s ++ commandHistory st
  /\ (historyIndex st = -1 -> historyIndex (submit st s) = -1).
Proof.
  destruct s as [text io|ed io]; cbn [submit pushed].
  - destruct (truthy (trim text)) eqn:E.
    + destruct (handleConsoleEnter_push io (set_consoleValue text st))
        as (-> & -> & _); [by_fields|].
      split; [by_fields | reflexivity].
    + rewrite handleConsoleEnter_blank by by_fields.
      split; [by_fields | intro; by_fields].
  - destruct (runFromEditor_console io (set_editor (Some ed) st))
      as (-> & -> & _).
    split; [by_fields | intro; by_fields].
Qed.

Lemma submit_all_history (subs : list Submission) (st : State) :
  commandHistory (submit_all subs st)
  = rev (flat_map pushed subs) ++ commandHistory st
  /\ (historyIndex st = -1 -> historyIndex (submit_all subs st) = -1).
Proof.
  revert st. induction subs as [|s subs IH]; intro st; cbn.
  - now split.
  - destruct (IH (submit st s)) as [IH1 IH2].
    destruct (submit_history s st) as [H1 H2].
    fold (submit_all subs (submit st s)). rewrite IH1, H1.
    split; [|now intro H; apply IH2, H2].
    rewrite rev_app_distr, <- app_assoc. do 2 f_equal.
    destruct s as [text io|ed io]; cbn; [|reflexivity].
    now destruct (truthy (trim text)).
Qed.

Lemma console_only_pushed (texts : list (jsstring * Interp)) :
  Forall (fun p => truthy (trim (fst p)) = true) texts ->
  flat_map pushed (console_only texts) = map (fun p => trim (fst p)) texts.
Proof.
  unfold console_only.
  induction 1 as [|p texts Hp _ IH]; cbn; [reflexivity|].
  now rewrite Hp, IH.
Qed.

Lemma console_only_cursor (texts : list (jsstring * Interp)) (st : State) :
  Forall (fun p => truthy (trim (fst p)) = true) texts ->
  texts <> [] \/ historyIndex st = -1 ->
  historyIndex (submit_all (console_only texts) st) = -1.
Proof.
  intros Hall Hor. destruct Hall as [|p texts Hp _].
  - destruct Hor as [H|H]; [congruence | exact H].
  - cbn. apply submit_all_history.
    now apply handleConsoleEnter_push.
Qed.

Lemma console_only_history (texts : list (jsstring * Interp)) (st : State) :
  Forall (fun p => truthy (trim (fst p)) = true) texts ->
  commandHistory st = [] ->
  commandHistory (submit_all (console_only texts) st)
  = rev (map (fun p => trim (fst p)) texts).
Proof.
  intros Hall Hnil.
  rewrite (proj1 (submit_all_history _ st)), Hnil, app_nil_r.
  now rewrite console_only_pushed.
Qed.

(** C6.  The history after any submissions is the list of the commands
    pushed by the console submissions, most recent first: a console
    submission pushes its trimmed text when that is not empty, an editor
    submission pushes nothing.  After [k] non-empty console submissions on
    an empty history it is [s_k, ..., s_1], with [s_i] the submitted
    command, and the cursor is -1. *)
Theorem history_most_recent_first :
  (forall subs st,
     commandHistory (submit_all subs st)
     = rev (flat_map pushed subs) ++ commandHistory st)
  /\ (forall texts st,
        Forall (fun p => truthy (trim (fst p)) = true) texts ->
        commandHistory st = [] ->
        commandHistory (submit_all (console_only texts) st)
        = rev (map (fun p => trim (fst p)) texts)
        /\ (texts <> [] \/ historyIndex st = -1 ->
            historyIndex (submit_all (console_only texts) st) = -1))
  /\ (forall texts st,
        Forall (fun p => trimmed_command (fst p)) texts ->
        commandHistory st = [] ->
        commandHistory (submit_all (console_only texts) st)
        = rev (map fst texts))
  /\ (forall io st,
        commandHistory (runFromEditor io st) = commandHistory st
        /\ historyIndex (runFromEditor io st) = historyIndex st).
Proof.
  split; [|split; [|split]].
  - intros subs st. apply submit_all_history.
  - intros texts st Hall Hnil. split; [now apply console_only_history|].
    now apply console_only_cursor.
  - intros texts st Hall Hnil. rewrite console_only_history; trivial.
    + f_equal. apply map_ext_in. intros p Hin.
      rewrite Forall_forall in Hall. now apply Hall.
    + eapply Forall_impl; [|exact Hall]. cbn. intros p [Hne Heq].
      rewrite Heq. now apply truthy_true.
  - intros io st. destruct (runFromEditor_console io st) as (? & ? & _).
    now split.
Qed.

(** *** Recall *)

Lemma index_nth (h : list jsstring) (i : Z) :
  0 <= i < zlength h -> index h i = Some (nth (Z.to_nat i) h []).
Proof.
  unfold index, zlength. intro H.
  destruct (Z.ltb_spec i 0) as [E|E]; [lia|].
  apply nth_error_nth'. lia.
Qed.

Lemma handleConsoleUp_recall (st : State) :
  -1 <= historyIndex st < zlength (commandHistory st) - 1 ->
  commandHistory (handleConsoleUp st) = commandHistory st
  /\ historyIndex (handleConsoleUp st) = historyIndex st + 1
  /\ consoleValue (handleConsoleUp st)
     = nth (Z.to_nat (historyIndex st + 1)) (commandHistory st) [].
Proof.
  intro H. unfold handleConsoleUp, setValue_history.
  destruct (Z.ltb_spec (historyIndex st) (zlength (commandHistory st) - 1))
    as [E|E]; [|lia].
  replace (commandHistory (set_historyIndex (historyIndex st + 1) st))
    with (commandHistory st) by by_fields.
  replace (historyIndex (set_historyIndex (historyIndex st + 1) st))
    with (historyIndex st + 1) by by_fields.
  rewrite index_nth by lia. by_fields. now repeat split.
Qed.

Lemma handleConsoleUp_oldest (st : State) :
  historyIndex st = zlength (commandHistory st) - 1 ->
  handleConsoleUp st = st.
Proof.
  intro H. unfold handleConsoleUp. rewrite H. now rewrite Z.ltb_irrefl.
Qed.

Lemma ups_recall (n : nat) (st : State) :
  historyIndex st = -1 ->
  (n <= List.length (commandHistory st))%nat ->
  commandHistory (ups n st) = commandHistory st
  /\ historyIndex (ups n st) = Z.of_nat n - 1
  /\ ((1 <= n)%nat ->
      consoleValue (ups n st) = nth (n - 1) (commandHistory st) []).
Proof.
  intros H0. induction n as [|n IH]; intro Hn.
  - cbn. repeat split; [lia | lia].
  - destruct IH as (IH1 & IH2 & _); [lia|].
    change (ups (S n) st) with (handleConsoleUp (ups n st)).
    destruct (handleConsoleUp_recall (ups n st)) as (H1 & H2 & H3).
    { rewrite IH1, IH2. unfold zlength. lia. }
    rewrite H1, H2, H3, IH1, IH2. repeat split; [lia|].
    intros _. f_equal. lia.
Qed.

(** C7, as the code has it.  After [k] non-empty console submissions
    [s_1 .. s_k] on an empty history with the cursor at -1, the [i]-th
    [handleConsoleUp] sets the input to [s_(k+1-i)]: the most recent
    command first, the oldest one last; a further call changes nothing. *)
Theorem navigateUp_most_recent_first
    (texts : list (jsstring * Interp)) (st : State) :
  Forall (fun p => truthy (trim (fst p)) = true) texts ->
  commandHistory st = [] ->
  historyIndex st = -1 ->
  let k := List.length texts in
  let s := map (fun p => trim (fst p)) texts in
  let st_k := submit_all (console_only texts) st in
  (forall i, (1 <= i <= k)%nat ->
     consoleValue (ups i st_k) = nth (k - i) s []
     /\ historyIndex (ups i st_k) = Z.of_nat i - 1)
  /\ handleConsoleUp (ups k st_k) = ups k st_k.
Proof.
  intros Hall Hnil Hidx k s st_k.
  pose proof (console_only_history texts st Hall Hnil) as Hhist.
  pose proof (console_only_cursor texts st Hall (or_intror Hidx)) as Hcur.
  fold st_k s in Hhist, Hcur.
  assert (Hlen : List.length (commandHistory st_k) = k).
  { rewrite Hhist, length_rev. subst s. now rewrite length_map. }
  split.
  - intros i Hi.
    destruct (ups_recall i st_k Hcur) as (_ & H2 & H3); [lia|].
    split; [|exact H2]. rewrite H3 by lia. rewrite Hhist.
    rewrite rev_nth by (subst s; rewrite length_map; fold k; lia).
    f_equal. subst s. rewrite length_map. fold k. lia.
  - destruct (ups_recall k st_k Hcur) as (H1 & H2 & _); [lia|].
    apply handleConsoleUp_oldest. rewrite H1, H2. unfold zlength. lia.
Qed.

(** The first recall after the submissions [a] then [b] shows [b], not
    [a]: the order of the claim, oldest first, fails. *)
Lemma navigateUp_oldest_first_counterexample :
  let texts := [(js "a", io_two); (js "b", io_two)] in
  let s := map (fun p => trim (fst p)) texts in
  let st_k := submit_all (console_only texts) ready_state in
  ~ (forall i, (1 <= i <= 2)%nat ->
       consoleValue (ups i st_k) = nth (i - 1) s []).
Proof.
  intros texts s st_k H. specialize (H 1%nat ltac:(lia)).
  vm_compute in H. discriminate H.
Qed.

Lemma navigateUp_most_recent_first_witness :
  let texts := [(js "a", io_two); (js "b", io_two)] in
  consoleValue (ups 1 (submit_all (console_only texts) ready_state)) = js "b"
  /\ consoleValue (ups 2 (submit_all (console_only texts) ready_state))
     = js "a".
Proof.
  intro texts.
  assert (Hall : Forall (fun p => truthy (trim (fst p)) = true) texts).
  { repeat constructor. }
  destruct (navigateUp_most_recent_first texts ready_state Hall
              eq_refl eq_refl) as [H _].
  split.
  - exact (proj1 (H 1%nat (conj (le_n 1) (le_S 1 1 (le_n 1))))).
  - exact (proj1 (H 2%nat (conj (le_S 1 1 (le_n 1)) (le_n 2)))).
Defined.

(** *** Invariants of the history *)

Lemma setValue_history_frame (st : State) :
  commandHistory (setValue_history st) = commandHistory st
  /\ historyIndex (setValue_history st) = historyIndex st.
Proof.
  unfold setValue_history. destruct (index _ _); by_fields; now split.
Qed.

Lemma initWebR_console (boot : Boot) (st : State) :
  commandHistory (initWebR boot st) = commandHistory st
  /\ historyIndex (initWebR boot st) = historyIndex st
  /\ consoleValue (initWebR boot st) = consoleValue st.
Proof.
  apply (preserved_initWebR _ (H := console_stable _ _ _)).
  - intros; by_fields.
  - intros; by_fields.
  - now repeat split.
Qed.

(** Only a console submission changes the history, and it pushes the
    trimmed input, which is not empty. *)
Lemma step_history (st : State) (ev : Event) :
  commandHistory (step st ev) = commandHistory st
  \/ exists io,
       ev = ConsoleEnter io
       /\ truthy (trim (consoleValue st)) = true
       /\ commandHistory (step st ev)
          = trim (consoleValue st) :: commandHistory st.
Proof.
  destruct ev; cbn;
    try (left; by_fields; fail).
  - left. destruct (consoleReadOnly st); by_fields.
  - destruct (truthy (trim (consoleValue st))) eqn:E.
    + right. exists io. repeat split; trivial.
      now apply handleConsoleEnter_push.
    + left. now rewrite handleConsoleEnter_blank.
  - left. unfold handleConsoleUp. destruct (_ <? _); [|reflexivity].
    rewrite (proj1 (setValue_history_frame _)). by_fields.
  - left. unfold handleConsoleDown. destruct (_ >? _).
    + rewrite (proj1 (setValue_history_frame _)). by_fields.
    + destruct (_ =? _); by_fields.
  - left. destruct (editor st); by_fields.
  - left. apply runFromEditor_console.
  - left. unfold plotPrev_click. destruct (_ >? _); by_fields.
  - left. unfold plotNext_click. destruct (_ <? _); by_fields.
  - left. unfold keydown. destruct inEditor; [reflexivity|].
    destruct key; try reflexivity;
      destruct (_ && _); by_fields.
Qed.

Lemma history_inv_step (st : State) (ev : Event) :
  history_inv st -> history_inv (step st ev).
Proof.
  unfold history_inv. intro H.
  destruct (step_history st ev) as [-> | (io & _ & Ht & ->)]; [exact H|].
  constructor; [now apply trimmed_command_trim | exact H].
Qed.

Lemma history_inv_reachable (st : State) : reachable st -> history_inv st.
Proof.
  induction 1 as [ed|boot st _ IH|ev st _ IH].
  - constructor.
  - unfold history_inv. now rewrite (proj1 (initWebR_console boot st)).
  - now apply history_inv_step.
Qed.

Lemma cursor_inv_step (st : State) (ev : Event) :
  cursor_inv st -> cursor_inv (step st ev).
Proof.
  unfold cursor_inv. intro H.
  assert (Hsame : forall st', commandHistory st' = commandHistory st ->
            historyIndex st' = historyIndex st ->
            -1 <= historyIndex st' < zlength (commandHistory st')).
  { intros st' -> ->. exact H. }
  destruct ev; cbn; try (apply Hsame; by_fields; fail).
  - destruct (consoleReadOnly st); [exact H | apply Hsame; by_fields].
  - destruct (truthy (trim (consoleValue st))) eqn:E.
    + destruct (handleConsoleEnter_push io st E) as (-> & -> & _).
      unfold zlength. cbn [List.length]. lia.
    + now rewrite handleConsoleEnter_blank.
  - unfold handleConsoleUp.
    destruct (Z.ltb_spec (historyIndex st) (zlength (commandHistory st) - 1));
      [|exact H].
    destruct (setValue_history_frame
                (set_historyIndex (historyIndex st + 1) st)) as [-> ->].
    destruct st; cbn in *. lia.
  - unfold handleConsoleDown.
    destruct (Z.gtb_spec (historyIndex st) 0).
    + destruct (setValue_history_frame
                  (set_historyIndex (historyIndex st - 1) st)) as [-> ->].
      destruct st; cbn in *. lia.
    + destruct (Z.eqb_spec (historyIndex st) 0); [|exact H].
      destruct st; cbn in *. lia.
  - destruct (editor st); [apply Hsame; by_fields | exact H].
  - destruct (runFromEditor_console io st) as (-> & -> & _). exact H.
  - apply Hsame; unfold plotPrev_click; destruct (_ >? _); by_fields.
  - apply Hsame; unfold plotNext_click; destruct (_ <? _); by_fields.
  - apply Hsame; unfold keydown; destruct inEditor; try reflexivity;
      destruct key; try reflexivity; destruct (_ && _); by_fields.
Qed.

Lemma cursor_inv_reachable (st : State) : reachable st -> cursor_inv st.
Proof.
  induction 1 as [ed|boot st _ IH|ev st _ IH].
  - unfold cursor_inv, zlength. cbn. lia.
  - unfold cursor_inv.
    destruct (initWebR_console boot st) as (-> & -> & _). exact IH.
  - now apply cursor_inv_step.
Qed.

(** C10.  In every state of a session each history entry is a non-empty
    string equal to its own trim; an event either leaves the history as it
    is or is a console submission pushing the non-empty trimmed input; the
    start of the session and the editor path leave it as it is; and a
    recall by [handleConsoleUp] either changes nothing or puts such an
    entry of the history into the input. *)
Theorem history_entries_trimmed :
  (forall st, reachable st -> Forall trimmed_command (commandHistory st))
  /\ (forall st ev,
        commandHistory (step st ev) = commandHistory st
        \/ exists io,
             ev = ConsoleEnter io
             /\ trimmed_command (trim (consoleValue st))
             /\ commandHistory (step st ev)
                = trim (consoleValue st) :: commandHistory st)
  /\ (forall io st, commandHistory (runFromEditor io st) = commandHistory st)
  /\ (forall boot st, commandHistory (initWebR boot st) = commandHistory st)
  /\ (forall st,
        reachable st ->
        handleConsoleUp st = st
        \/ (trimmed_command (consoleValue (handleConsoleUp st))
            /\ In (consoleValue (handleConsoleUp st)) (commandHistory st))).
Proof.
  split; [exact history_inv_reachable|].
  split.
  { intros st ev.
    destruct (step_history st ev) as [H | (io & He & Ht & H)]; [now left|].
    right. exists io. repeat split; trivial;
      now apply trimmed_command_trim. }
  split; [intros io st; apply runFromEditor_console|].
  split; [intros boot st; apply initWebR_console|].
  intros st Hr.
  pose proof (cursor_inv_reachable st Hr) as Hc.
  pose proof (history_inv_reachable st Hr) as Hh.
  unfold cursor_inv in Hc.
  destruct (Z.ltb_spec (historyIndex st) (zlength (commandHistory st) - 1))
    as [E|E].
  - right. destruct (handleConsoleUp_recall st) as (_ & _ & ->); [lia|].
    assert (Hin : In (nth (Z.to_nat (historyIndex st + 1))
                        (commandHistory st) []) (commandHistory st)).
    { apply nth_In. unfold zlength in *. lia. }
    split; [|exact Hin].
    unfold history_inv in Hh. rewrite Forall_forall in Hh. now apply Hh.
  - left. unfold handleConsoleUp.
    destruct (Z.ltb_spec (historyIndex st) (zlength (commandHistory st) - 1));
      [lia | reflexivity].
Qed.

(** ** Output records *)

Lemma consoleOutput_route (out : OutputRecord) (st : State) :
  consoleOutput (route out st) = consoleOutput st ++ routed out.
Proof.
  unfold routed, route.
  repeat match goal with
         | |- context [if ?b then _ else _] => destruct b
         end; by_fields; now rewrite app_nil_r.
Qed.

(** [routed] written out. *)
Lemma routed_cases (out : OutputRecord) :
  routed out
  = if jsstring_eqb (out_type out) (js "stdout")
       && truthy (trim (out_data out))
    then [mkLine (out_data out) stdout]
    else if jsstring_eqb (out_type out) (js "stderr")
            && truthy (trim (out_data out))
    then [mkLine (out_data out) stderr]
    else if jsstring_eqb (out_type out) (js "message")
    then [mkLine (out_data out) stderr]
    else [].
Proof.
  unfold routed, route.
  repeat match goal with
         | |- context [if ?b then _ else _] => destruct b
         end; reflexivity.
Qed.

Lemma routed_of_spec (r : SpecRecord) : routed (of_spec r) = spec_lines r.
Proof.
  destruct r as [text|text|text]; unfold routed, route;
    cbn [of_spec out_type out_data spec_lines].
  - change (jsstring_eqb (js "stdout") (js "stdout")) with true.
    rewrite truthy_trim. cbn [andb]. now destruct (blank text).
  - change (jsstring_eqb (js "stderr") (js "stdout")) with false.
    change (jsstring_eqb (js "stderr") (js "stderr")) with true.
    rewrite truthy_trim. cbn [andb]. now destruct (blank text).
  - reflexivity.
Qed.

Lemma consoleOutput_routes (outs : list OutputRecord) (st : State) :
  consoleOutput (fold_left (fun s out => route out s) outs st)
  = consoleOutput st ++ flat_map routed outs.
Proof.
  revert st. induction outs as [|out outs IH]; intro st; cbn.
  - now rewrite app_nil_r.
  - now rewrite IH, consoleOutput_route, <- app_assoc.
Qed.

(** ** Runner *)

Lemma fold_left_frame {A X : Type} (proj : State -> X)
    (f : A -> State -> State) :
  (forall a s, proj (f a s) = proj s) ->
  forall l s, proj (fold_left (fun s a => f a s) l s) = proj s.
Proof.
  intros Hf l. induction l as [|a l IH]; intro s; cbn; [reflexivity|].
  now rewrite IH, Hf.
Qed.

Lemma route_frame (out : OutputRecord) (st : State) :
  isRunning (route out st) = isRunning st
  /\ webRcalls (route out st) = webRcalls st.
Proof.
  unfold route.
  repeat match goal with
         | |- context [if ?b then _ else _] => destruct b
         end; by_fields; now split.
Qed.

Lemma consume_frame (result : CaptureResult) (st : State) :
  isRunning (consume result st) = isRunning st
  /\ webRcalls (consume result st) = webRcalls st
  /\ consoleOutput (consume result st)
     = consoleOutput st ++ flat_map routed (output result).
Proof.
  unfold consume. repeat split.
  - rewrite (fold_left_frame isRunning) by (intros; by_fields).
    apply (fold_left_frame isRunning). intros. apply route_frame.
  - rewrite (fold_left_frame webRcalls) by (intros; by_fields).
    apply (fold_left_frame webRcalls). intros. apply route_frame.
  - rewrite (fold_left_frame consoleOutput) by (intros; by_fields).
    apply consoleOutput_routes.
Qed.

(** The state after the outer [try] statement, case by case. *)
Lemma runCode_try_cases (io : Interp) (code : jsstring) (st : State) :
  fst (runCode_try io code st)
  = match on_Shelter io with
    | Rejected e =>
        appendConsole (js "Error: " ++ e) stderr (call (CallShelter false) st)
    | Resolved _ =>
        let st1 := call (CallCaptureR code) (call (CallShelter true) st) in
        match on_captureR io, on_purge io with
        | Resolved result, Resolved _ => call CallPurge (consume result st1)
        | Resolved result, Rejected e =>
            appendConsole (js "Error: " ++ e) stderr
              (call CallPurge (consume result st1))
        | Rejected e, Resolved _ =>
            appendConsole (js "Error: " ++ e) stderr (call CallPurge st1)
        | Rejected _, Rejected e =>
            appendConsole (js "Error: " ++ e) stderr (call CallPurge st1)
        end
    end.
Proof.
  unfold runCode_try, try_catch, try_finally, bind, new_Shelter, captureR,
    purge, consume.
  destruct (on_Shelter io) as [[]|e]; cbn [settled]; [|reflexivity].
  destruct (on_captureR io) as [result|e].
  - rewrite for_of_exec, for_of_exec.
    destruct (on_purge io) as [[]|e']; reflexivity.
  - destruct (on_purge io) as [[]|e']; reflexivity.
Qed.

Lemma consoleOutput_forEach_echo (lines : list jsstring) (i : nat)
    (st : State) :
  consoleOutput (forEach_echo lines (S i) st)
  = consoleOutput st
    ++ map (fun line => mkLine (js "+ " ++ line) command) lines.
Proof.
  revert i st. induction lines as [|l lines IH]; intros i st;
    cbn [forEach_echo map].
  - now rewrite app_nil_r.
  - rewrite IH. destruct st; cbn. now rewrite <- app_assoc.
Qed.

Lemma forEach_echo_frame (lines : list jsstring) (i : nat) (st : State) :
  isRunning (forEach_echo lines i st) = isRunning st
  /\ webRcalls (forEach_echo lines i st) = webRcalls st.
Proof.
  revert i st. induction lines as [|l lines IH]; intros i st;
    cbn [forEach_echo].
  - now split.
  - destruct (IH (S i) (appendConsole
       (match i with O => js "> " | S _ => js "+ " end ++ l) command st))
      as [-> ->]. by_fields. now split.
Qed.

Lemma runCode_begin_spec (code : jsstring) (st : State) :
  isRunning (runCode_begin code st) = true
  /\ webRcalls (runCode_begin code st) = webRcalls st
  /\ consoleOutput (runCode_begin code st) = consoleOutput st ++ echo code.
Proof.
  unfold runCode_begin, echo.
  match goal with |- context [forEach_echo _ 0 ?s] => set (st0 := s) end.
  destruct (forEach_echo_frame (split_lf code) 0 st0) as [-> ->].
  split; [subst st0; by_fields|]. split; [subst st0; by_fields|].
  destruct (split_lf code) as [|first rest]; cbn [forEach_echo].
  - subst st0. by_fields. now rewrite app_nil_r.
  - rewrite consoleOutput_forEach_echo. subst st0. destruct st; cbn.
    now rewrite <- app_assoc.
Qed.

Lemma runCode_end_spec (st : State) :
  isRunning (runCode_end st) = false
  /\ webRcalls (runCode_end st) = webRcalls st
  /\ consoleOutput (runCode_end st) = consoleOutput st.
Proof. by_fields. now repeat split. Qed.

(** Past the guard and the help test, [runCode] is its three parts. *)
Lemma runCode_evaluates (io : Interp) (code : jsstring) (st : State) :
  isRunning st = false -> webR st = true -> code <> [] ->
  helpTopicMatch code = None ->
  runCode io code st
  = runCode_end (fst (runCode_try io code (runCode_begin code st))).
Proof.
  intros Hlock Hweb Hcode Hhelp. unfold runCode.
  rewrite Hlock, Hweb, Hhelp.
  apply truthy_true in Hcode. now rewrite Hcode.
Qed.

(** What one run sends to the interpreter. *)
Lemma runCode_try_calls (io : Interp) (code : jsstring) (st : State) :
  isRunning (fst (runCode_try io code st)) = isRunning st
  /\ ((exists e, on_Shelter io = Rejected e
         /\ webRcalls (fst (runCode_try io code st))
            = webRcalls st ++ [CallShelter false])
      \/ (exists u, on_Shelter io = Resolved u
           /\ webRcalls (fst (runCode_try io code st))
              = webRcalls st
                ++ [CallShelter true; CallCaptureR code; CallPurge])).
Proof.
  rewrite runCode_try_cases.
  destruct (on_Shelter io) as [u|e].
  - cbn zeta.
    set (st1 := call (CallCaptureR code) (call (CallShelter true) st)).
    assert (H1 : isRunning st1 = isRunning st
                 /\ webRcalls st1
                    = webRcalls st ++ [CallShelter true; CallCaptureR code]).
    { subst st1. destruct st; cbn. split; [reflexivity|].
      now rewrite <- app_assoc. }
    destruct H1 as [Hr Hc].
    assert (Hgoal : forall s, isRunning s = isRunning st1 ->
              webRcalls s = webRcalls st1 ++ [CallPurge] ->
              isRunning s = isRunning st
              /\ ((exists e, Resolved u = Rejected e
                     /\ webRcalls s = webRcalls st ++ [CallShelter false])
                  \/ (exists u0, Resolved u = Resolved u0
                        /\ webRcalls s
                           = webRcalls st
                             ++ [CallShelter true; CallCaptureR code;
                                 CallPurge]))).
    { intros s Hs1 Hs2. split; [congruence|]. right. exists u.
      split; [reflexivity|]. rewrite Hs2, Hc. now rewrite <- app_assoc. }
    destruct (on_captureR io) as [result|e1];
      destruct (on_purge io) as [[]|e2]; apply Hgoal;
      try (destruct (consume_frame result st1) as (Hq1 & Hq2 & _));
      cbn; try rewrite Hq1; try rewrite Hq2; try reflexivity;
      destruct st1; reflexivity.
  - split; [by_fields|]. left. exists e. split; [reflexivity | by_fields].
Qed.

(** *** Evaluation contexts *)

Lemma unreleased_app (l l' : list Call) :
  unreleased (l ++ l') = unreleased l + unreleased l'.
Proof.
  induction l as [|c l IH]; cbn [app unreleased]; [reflexivity|].
  destruct c as [| | |[]| |]; lia.
Qed.

Lemma getHelp_calls (io : Interp) (topic : jsstring) (st : State) :
  isRunning (fst (getHelp io topic st)) = isRunning st
  /\ unreleased (webRcalls (fst (getHelp io topic st)))
     = unreleased (webRcalls st).
Proof.
  unfold getHelp. destruct (negb (webR st)); [now split|].
  unfold try_catch, bind, evalRString, exec.
  destruct (on_evalRString io) as [text|e]; cbn [fst];
    (split; [by_fields|]); destruct st; cbn;
    rewrite unreleased_app; cbn; lia.
Qed.

Lemma runCode_unreleased (io : Interp) (code : jsstring) (st : State) :
  unreleased (webRcalls (runCode io code st)) = unreleased (webRcalls st).
Proof.
  unfold runCode.
  destruct (isRunning st || negb (webR st) || negb (truthy code));
    [reflexivity|].
  destruct (helpTopicMatch code) as [topic|].
  - rewrite (proj2 (getHelp_calls io topic _)). by_fields.
  - rewrite (proj1 (proj2 (runCode_end_spec _))).
    destruct (runCode_try_calls io code (runCode_begin code st))
      as [_ [(e & _ & ->) | (u & _ & ->)]];
      rewrite unreleased_app, (proj1 (proj2 (runCode_begin_spec code st)));
      cbn; lia.
Qed.

Lemma step_unreleased (st : State) (ev : Event) :
  unreleased (webRcalls (step st ev)) = unreleased (webRcalls st).
Proof.
  destruct ev; cbn; try (by_fields; fail).
  - destruct (consoleReadOnly st); by_fields.
  - unfold handleConsoleEnter. destruct (truthy _); [|reflexivity].
    rewrite runCode_unreleased. by_fields.
  - unfold handleConsoleUp, setValue_history. destruct (_ <? _); [|reflexivity].
    destruct (index _ _); by_fields.
  - unfold handleConsoleDown, setValue_history. destruct (_ >? _).
    + destruct (index _ _); by_fields.
    + destruct (_ =? _); by_fields.
  - destruct (editor st); by_fields.
  - unfold runFromEditor. destruct (editor st) as [ed|]; [|reflexivity].
    destruct (truthy (ed_selection ed)).
    + destruct (truthy _); [apply runCode_unreleased | reflexivity].
    + set (st1 := if _ <? _ then _ else st).
      assert (H1 : webRcalls st1 = webRcalls st).
      { subst st1. destruct (_ <? _); by_fields. }
      destruct (truthy _); [rewrite runCode_unreleased|]; now rewrite H1.
  - unfold plotPrev_click. destruct (_ >? _); by_fields.
  - unfold plotNext_click. destruct (_ <? _); by_fields.
  - unfold keydown. destruct inEditor; [reflexivity|].
    destruct key; try reflexivity; destruct (_ && _); by_fields.
Qed.

Lemma steps_unreleased (evs : list Event) (st : State) :
  unreleased (webRcalls (steps evs st)) = unreleased (webRcalls st).
Proof.
  revert st. induction evs as [|ev evs IH]; intro st; cbn; [reflexivity|].
  fold (steps evs (step st ev)). now rewrite IH, step_unreleased.
Qed.

(** C2.  A run that gets past the guard and the help test is
    [runCode_begin], the outer [try] statement, then [runCode_end].  In the
    state [locked] after the [try] statement the run lock is still held,
    and what the run has sent to the interpreter is either one failed
    request for a context, or a context acquired, one evaluation and one
    [purge] of the context, in this order, whichever way the evaluation and
    the purge end; [runCode_end] then clears the lock and sends nothing.
    So the number of contexts acquired and not purged is the same after a
    run, and after any sequence of events, as before. *)
Theorem shelter_released_before_unlock :
  (forall io code st,
     isRunning st = false -> webR st = true -> code <> [] ->
     helpTopicMatch code = None ->
     let locked := fst (runCode_try io code (runCode_begin code st)) in
     runCode io code st = runCode_end locked
     /\ isRunning locked = true
     /\ isRunning (runCode_end locked) = false
     /\ webRcalls (runCode_end locked) = webRcalls locked
     /\ ((exists e, on_Shelter io = Rejected e
            /\ webRcalls locked = webRcalls st ++ [CallShelter false])
         \/ (exists u, on_Shelter io = Resolved u
               /\ webRcalls locked
                  = webRcalls st
                    ++ [CallShelter true; CallCaptureR code; CallPurge]))
     /\ unreleased (webRcalls locked) = unreleased (webRcalls st))
  /\ (forall evs st,
        unreleased (webRcalls (steps evs st)) = unreleased (webRcalls st)).
Proof.
  split; [|exact steps_unreleased].
  intros io code st Hlock Hweb Hcode Hhelp locked.
  destruct (runCode_begin_spec code st) as (Hb1 & Hb2 & _).
  destruct (runCode_try_calls io code (runCode_begin code st)) as [Ht1 Ht2].
  fold locked in Ht1, Ht2. rewrite Hb2 in Ht2.
  destruct (runCode_end_spec locked) as (He1 & He2 & _).
  split; [now apply runCode_evaluates|].
  split; [congruence|]. split; [exact He1|]. split; [exact He2|].
  split; [exact Ht2|].
  destruct Ht2 as [(e & _ & ->) | (u & _ & ->)];
    rewrite unreleased_app; cbn; lia.
Qed.

(** *** The output of one run *)

Lemma consoleOutput_appendConsole (text : jsstring) (type : LineType)
    (st : State) :
  consoleOutput (appendConsole text type st)
  = consoleOutput st ++ [mkLine text type].
Proof. by_fields. Qed.

Lemma consoleOutput_call (c : Call) (st : State) :
  consoleOutput (call c st) = consoleOutput st.
Proof. by_fields. Qed.

Lemma runCode_keeps_unlocked (io : Interp) (code : jsstring) (st : State) :
  isRunning st = false -> isRunning (runCode io code st) = false.
Proof.
  intro Hlock. unfold runCode.
  destruct (isRunning st || negb (webR st) || negb (truthy code));
    [exact Hlock|].
  destruct (helpTopicMatch code) as [topic|].
  - rewrite (proj1 (getHelp_calls io topic _)). by_fields.
  - apply runCode_end_spec.
Qed.

(** C1, as the code has it.  Let the code be non-empty and no help
    request, and the lock free when [runCode] starts.  Then the lock is
    free after [runCode] on every path.  Without an interpreter object
    [runCode] returns at once and changes nothing.  With one, [runCode]
    appends the echo of the code and then: the routed records of the
    result when the evaluation and the release both succeed; one error
    record when the context cannot be acquired or the evaluation raises;
    and the routed records followed by one error record when the
    evaluation succeeds and the release raises. *)
Theorem runCode_appends_and_unlocks
    (io : Interp) (code : jsstring) (st : State) :
  isRunning st = false -> code <> [] -> helpTopicMatch code = None ->
  isRunning (runCode io code st) = false
  /\ (webR st = false -> runCode io code st = st)
  /\ (webR st = true ->
      exists appended,
        consoleOutput (runCode io code st)
        = consoleOutput st ++ echo code ++ appended
        /\ ((exists u result v,
               on_Shelter io = Resolved u
               /\ on_captureR io = Resolved result
               /\ on_purge io = Resolved v
               /\ appended = flat_map routed (output result))
            \/ (exists u result e,
                  on_Shelter io = Resolved u
                  /\ on_captureR io = Resolved result
                  /\ on_purge io = Rejected e
                  /\ appended
                     = flat_map routed (output result) ++ [error_line e])
            \/ (exists e,
                  appended = [error_line e]
                  /\ (on_Shelter io = Rejected e
                      \/ exists u e0,
                           on_Shelter io = Resolved u
                           /\ on_captureR io = Rejected e0
                           /\ (on_purge io = Rejected e
                               \/ (e = e0
                                   /\ exists v, on_purge io = Resolved v)))))).
Proof.
  intros Hlock Hcode Hhelp.
  split; [now apply runCode_keeps_unlocked|].
  split.
  { intro Hweb. unfold runCode. now rewrite Hlock, Hweb. }
  intro Hweb.
  rewrite runCode_evaluates by assumption.
  rewrite (proj2 (proj2 (runCode_end_spec _))), runCode_try_cases.
  destruct (runCode_begin_spec code st) as (_ & _ & Hecho).
  destruct (on_Shelter io) as [u|e].
  - cbn zeta.
    destruct (on_captureR io) as [result|e0]; destruct (on_purge io) as [v|e1];
      repeat rewrite ?consoleOutput_appendConsole, ?consoleOutput_call,
        ?(proj2 (proj2 (consume_frame _ _)));
      rewrite Hecho.
    + exists (flat_map routed (output result)).
      split; [now rewrite <- app_assoc|].
      left. now exists u, result, v.
    + exists (flat_map routed (output result) ++ [error_line e1]).
      split; [now rewrite <- !app_assoc|].
      right; left. now exists u, result, e1.
    + exists [error_line e0]. split; [now rewrite <- app_assoc|].
      right; right. exists e0. split; [reflexivity|]. right.
      exists u, e0. repeat split. right. split; [reflexivity|]. now exists v.
    + exists [error_line e1]. split; [now rewrite <- app_assoc|].
      right; right. exists e1. split; [reflexivity|]. right.
      exists u, e0. repeat split. now left.
  - rewrite consoleOutput_appendConsole, consoleOutput_call, Hecho.
    exists [error_line e]. split; [now rewrite <- app_assoc|].
    right; right. exists e. split; [reflexivity | now left].
Qed.

Lemma runCode_appends_and_unlocks_witness :
  isRunning (runCode io_not_found (js "x") ready_state) = false
  /\ exists appended,
       consoleOutput (runCode io_not_found (js "x") ready_state)
       = consoleOutput ready_state ++ echo (js "x") ++ appended.
Proof.
  destruct (runCode_appends_and_unlocks io_not_found (js "x") ready_state
              eq_refl ltac:(discriminate) eq_refl) as (Hlock & _ & Hout).
  split; [exact Hlock|].
  destruct (Hout eq_refl) as (appended & Happ & _).
  exists appended. exact Happ.
Defined.

(** The evaluation of [1 + 1] succeeds and the release of the context is
    rejected: the sink receives the result and then an error record, which
    is neither the success records alone nor one error record. *)
Lemma purge_rejected_counterexample :
  isRunning ready_state = false
  /\ webR ready_state = true
  /\ isHelpRequest (js "1 + 1") = None
  /\ on_captureR io_purge_rejected = Resolved result_two
  /\ ~ (exists appended,
          consoleOutput (runCode io_purge_rejected (js "1 + 1") ready_state)
          = consoleOutput ready_state ++ echo (js "1 + 1") ++ appended
          /\ (appended = flat_map routed (output result_two)
              \/ exists e, appended = [error_line e])).
Proof.
  repeat split; try reflexivity.
  intros (appended & Happ & Hor).
  assert (Hval : appended
                 = [mkLine (js "[1] 2") stdout;
                    error_line (js "worker closed")]).
  { apply (app_inv_head (consoleOutput ready_state ++ echo (js "1 + 1"))).
    rewrite <- app_assoc, <- Happ. reflexivity. }
  subst appended. destruct Hor as [H | [e H]]; discriminate H.
Qed.

(** *** The records of a result *)

(** C4.  A run whose evaluation resolves shows the records of the result
    in emission order, between the echo of the code and the error record
    of a rejected release, if any: nothing for a blank [Stdout] or
    [Stderr] record, the text with its own class otherwise, and for a
    [Condition] record its text with class [stderr] whatever the text.
    The loop of [runCode] does so record by record, from any state. *)
Theorem output_records_routed
    (io : Interp) (code : jsstring) (st : State)
    (records : list SpecRecord) (result : CaptureResult) :
  isRunning st = false -> webR st = true -> code <> [] ->
  helpTopicMatch code = None ->
  settled (on_Shelter io) = true ->
  on_captureR io = Resolved result ->
  output result = map of_spec records ->
  consoleOutput (runCode io code st)
  = consoleOutput st ++ echo code ++ flat_map spec_lines records
    ++ match on_purge io with
       | Resolved _ => []
       | Rejected e => [error_line e]
       end
  /\ (forall r st',
        consoleOutput (route (of_spec r) st')
        = consoleOutput st' ++ spec_lines r)
  /\ (forall text st',
        consoleOutput (route (of_spec (Condition text)) st')
        = consoleOutput st' ++ [mkLine text stderr]).
Proof.
  intros Hlock Hweb Hcode Hhelp Hshelter Hcapture Hrecords.
  assert (Hroute : forall r st',
            consoleOutput (route (of_spec r) st')
            = consoleOutput st' ++ spec_lines r).
  { intros r st'. now rewrite consoleOutput_route, routed_of_spec. }
  split; [|split; [exact Hroute|]];
    [|intros text st'; apply (Hroute (Condition text))].
  assert (Hlines : flat_map routed (output result)
                   = flat_map spec_lines records).
  { rewrite Hrecords. clear Hrecords.
    induction records as [|r records IH]; cbn; [reflexivity|].
    now rewrite routed_of_spec, IH. }
  rewrite runCode_evaluates by assumption.
  rewrite (proj2 (proj2 (runCode_end_spec _))), runCode_try_cases.
  destruct (runCode_begin_spec code st) as (_ & _ & Hecho).
  destruct (on_Shelter io) as [u|e]; [|discriminate Hshelter].
  cbn zeta. rewrite Hcapture.
  destruct (on_purge io) as [v|e];
    repeat rewrite ?consoleOutput_appendConsole, ?consoleOutput_call,
      ?(proj2 (proj2 (consume_frame _ _)));
    rewrite Hecho, Hlines, <- ?app_assoc; [now rewrite app_nil_r|].
  reflexivity.
Qed.

Lemma output_records_routed_witness :
  consoleOutput (runCode io_mixed (js "f()") ready_state)
  = consoleOutput ready_state
    ++ [mkLine (js "> f()") command; mkLine (js "[1] 2") stdout;
        mkLine [] stderr; mkLine (js "oops") stderr].
Proof.
  exact (proj1 (output_records_routed io_mixed (js "f()") ready_state
                  records_mixed result_mixed eq_refl eq_refl
                  ltac:(discriminate) eq_refl eq_refl eq_refl eq_refl)).
Defined.

(** *** Rejected input *)

Lemma blank_trim (text : jsstring) :
  blank text = true -> truthy (trim text) = false.
Proof. intro H. now rewrite truthy_trim, H. Qed.

(** C3, as the code has it.  [runCode] returns the state unchanged when
    the lock is held, when the interpreter object does not exist yet or
    when the code is the empty string; so a second run issued while a first
    one is suspended after its echo changes nothing.  Blank input never
    reaches [runCode]: on blank input the console path changes nothing, and
    the editor path leaves the sink, the lock and the interpreter alone. *)
Theorem runCode_rejects_silently :
  (forall io code st,
     isRunning st = true \/ webR st = false \/ code = [] ->
     runCode io code st = st)
  /\ (forall io code first st,
        runCode io code (runCode_begin first st) = runCode_begin first st)
  /\ (forall io st,
        blank (consoleValue st) = true -> handleConsoleEnter io st = st)
  /\ (forall io st ed,
        editor st = Some ed ->
        blank (if truthy (ed_selection ed) then ed_selection ed
               else nth (ed_cursorLine ed) (ed_lines ed) []) = true ->
        consoleOutput (runFromEditor io st) = consoleOutput st
        /\ isRunning (runFromEditor io st) = isRunning st
        /\ webRcalls (runFromEditor io st) = webRcalls st).
Proof.
  assert (Hguard : forall io code st,
            isRunning st = true \/ webR st = false \/ code = [] ->
            runCode io code st = st).
  { intros io code st H. unfold runCode.
    destruct H as [-> | [-> | ->]]; cbn; [reflexivity| |];
      now rewrite orb_true_r. }
  split; [exact Hguard|]. split; [|split].
  - intros io code first st. apply Hguard. left.
    apply runCode_begin_spec.
  - intros io st H. now apply handleConsoleEnter_blank, blank_trim.
  - intros io st ed He Hb. unfold runFromEditor. rewrite He.
    destruct (truthy (ed_selection ed)).
    + rewrite (blank_trim _ Hb). now repeat split.
    + rewrite (blank_trim _ Hb).
      destruct (_ <? _); by_fields; now repeat split.
Qed.

Lemma runCode_rejects_silently_witness :
  runCode io_two (js "1 + 1") (runCode_begin (js "2") ready_state)
  = runCode_begin (js "2") ready_state
  /\ runCode io_two (js "1 + 1") (loaded sample_editor)
     = loaded sample_editor
  /\ handleConsoleEnter io_two (set_consoleValue (js "  ") ready_state)
     = set_consoleValue (js "  ") ready_state.
Proof.
  split; [|split].
  - apply (proj1 runCode_rejects_silently). left. reflexivity.
  - apply (proj1 runCode_rejects_silently). right. left. reflexivity.
  - apply (proj1 (proj2 (proj2 runCode_rejects_silently))). reflexivity.
Defined.

(** After a failed start the session is not ready, yet a run from the
    editor echoes the code, acquires a context and prints the result; and
    a code of one space passes the guard of [runCode] in a ready session. *)
Lemma run_when_not_ready_counterexample :
  reachable failed_state
  /\ isReady failed_state = false
  /\ step failed_state (EditorRun io_two)
     = runCode io_two (js "1 + 1") failed_state
  /\ consoleOutput (runCode io_two (js "1 + 1") failed_state)
     <> consoleOutput failed_state
  /\ webRcalls (runCode io_two (js "1 + 1") failed_state)
     <> webRcalls failed_state
  /\ blank (js " ") = true
  /\ consoleOutput (runCode io_two (js " ") ready_state)
     <> consoleOutput ready_state.
Proof.
  split; [apply reach_boot, reach_loaded|].
  repeat split; try reflexivity;
    intro H; apply (f_equal (@List.length _)) in H;
    vm_compute in H; discriminate H.
Qed.

(** ** Help requests *)

Local Open Scope N_scope.

Lemma exec_from_bol (r : Regex.t) (s : jsstring) (pos : nat) :
  Regex.exec_from (Regex.Seq Regex.Bol r) (S pos) s = None.
Proof.
  revert pos. induction s as [|c s IH]; intro pos; cbn; [reflexivity|].
  apply IH.
Qed.

Lemma exec_anchored (r : Regex.t) (s : jsstring) :
  Regex.exec (Regex.Seq Regex.Bol r) s
  = match Regex.run r 0 s None (fun _ _ cap => Some cap) with
    | Some cap => Some (match cap with Some g => g | None => [] end)
    | None => None
    end.
Proof.
  unfold Regex.exec. destruct s as [|c s]; cbn [Regex.exec_from Regex.run].
  - reflexivity.
  - rewrite exec_from_bol. reflexivity.
Qed.

Lemma plus_eol {R : Type} (p : N -> bool) (G : nat -> option R)
    (pos : nat) (s : jsstring) (cap : option jsstring) :
  Regex.plus p pos s cap
    (fun pos' s' _ => match s' with [] => G pos' | _ :: _ => None end)
  = if truthy s && forallb p s then G (pos + List.length s)%nat else None.
Proof.
  revert pos. induction s as [|c s IH]; intro pos; cbn [Regex.plus].
  - reflexivity.
  - cbn [truthy forallb andb List.length]. destruct (p c); [|reflexivity].
    rewrite IH. destruct s as [|c' s].
    + cbn. f_equal. lia.
    + cbn [truthy andb]. replace (S pos + List.length (c' :: s))%nat
        with (pos + S (List.length (c' :: s)))%nat by lia.
      destruct (forallb p (c' :: s)); [|reflexivity].
      now destruct (G _).
Qed.

Lemma exec_question (code : jsstring) :
  Regex.exec re_question code = match_question code.
Proof.
  unfold re_question. rewrite exec_anchored.
  destruct code as [|c topic]; [reflexivity|].
  cbn [Regex.run Regex.lit match_question].
  change (N_of_ascii "?") with 63.
  destruct (63 =? c); [|reflexivity]. cbn [andb].
  rewrite (plus_eol Regex.dot
             (fun pos' => Some (Some (firstn (pos' - 1) topic)))).
  destruct (truthy topic && forallb Regex.dot topic); [|reflexivity].
  cbn [Nat.add]. rewrite Nat.sub_succ, Nat.sub_0_r.
  now rewrite firstn_all.
Qed.

Lemma span_app (p : N -> bool) (s : jsstring) :
  s = fst (span p s) ++ snd (span p s).
Proof.
  induction s as [|c s IH]; cbn; [reflexivity|].
  destruct (p c); [|reflexivity].
  destruct (span p s) as [u v]. cbn in *. now f_equal.
Qed.

Lemma span_forallb (p : N -> bool) (s : jsstring) :
  forallb p (fst (span p s)) = true.
Proof.
  induction s as [|c s IH]; cbn; [reflexivity|].
  destruct (p c) eqn:E; [|reflexivity].
  destruct (span p s) as [u v]. cbn in *. now rewrite E.
Qed.

Lemma span_nil (p : N -> bool) (s : jsstring) :
  fst (span p s) = [] -> snd (span p s) = s.
Proof.
  destruct s as [|c s]; cbn; [reflexivity|].
  destruct (p c); [|reflexivity].
  destruct (span p s); discriminate.
Qed.

Lemma span_head (p : N -> bool) (s : jsstring) :
  truthy (fst (span p s)) = true ->
  exists c s', s = c :: s' /\ p c = true.
Proof.
  destruct s as [|c s]; cbn; [discriminate|].
  destruct (p c) eqn:E; [|discriminate]. intros _. now exists c, s.
Qed.

Lemma span_stop (p : N -> bool) (u v : jsstring) :
  forallb p u = true ->
  match v with [] => True | c :: _ => p c = false end ->
  span p (u ++ v) = (u, v).
Proof.
  intros Hu Hv. induction u as [|a u IH]; cbn in *.
  - destruct v as [|c v]; [reflexivity|]. cbn. now rewrite Hv.
  - apply andb_true_iff in Hu as [Ha Hu]. rewrite Ha, IH by exact Hu.
    reflexivity.
Qed.

Lemma plus_span {R : Type} (p : N -> bool) (K : @Regex.cont R)
    (pos : nat) (s : jsstring) (cap : option jsstring) :
  (forall pos' c s' cap', p c = true -> K pos' (c :: s') cap' = None) ->
  Regex.plus p pos s cap K
  = if truthy (fst (span p s))
    then K (pos + List.length (fst (span p s)))%nat (snd (span p s)) cap
    else None.
Proof.
  intro HK. revert pos. induction s as [|c s IH]; intro pos;
    cbn [Regex.plus span]; [reflexivity|].
  destruct (p c) eqn:E; [|reflexivity].
  rewrite IH.
  pose proof (span_nil p s) as Hnil. pose proof (span_head p s) as Hhead.
  destruct (span p s) as [u v]. cbn [fst snd truthy List.length] in *.
  replace (pos + S (List.length u))%nat with (S pos + List.length u)%nat
    by lia.
  destruct u as [|a u]; cbn [truthy].
  - rewrite (Hnil eq_refl). cbn [List.length]. now rewrite Nat.add_0_r.
  - destruct (Hhead eq_refl) as (c' & s' & -> & Hc').
    rewrite (HK _ _ _ _ Hc'). now destruct (K _ _ _).
Qed.

Lemma is_quote_eq (c : N) : is_quote c = (34 =? c) || (39 =? c).
Proof.
  change (is_quote c) with ((34 =? c) || ((39 =? c) || false)).
  now rewrite orb_false_r.
Qed.

Lemma is_plain_eq (c : N) :
  is_plain c = negb ((34 =? c) || (39 =? c) || (41 =? c)).
Proof.
  change (is_plain c)
    with (negb ((34 =? c) || ((39 =? c) || ((41 =? c) || false)))).
  now rewrite orb_false_r, orb_assoc.
Qed.

Lemma is_quote_not_plain (c : N) : is_quote c = true -> is_plain c = false.
Proof.
  rewrite is_quote_eq, is_plain_eq. intros ->. reflexivity.
Qed.

Lemma closes_plain (c : N) (s : jsstring) :
  is_plain c = true -> closes (c :: s) = false.
Proof.
  rewrite is_plain_eq. unfold closes. rewrite is_quote_eq.
  destruct (34 =? c); [discriminate|]. destruct (39 =? c); [discriminate|].
  destruct (41 =? c); [discriminate|]. intros _.
  destruct s as [|a [|b s]]; reflexivity.
Qed.

Lemma run_tail (pos : nat) (v : jsstring) (cap : option jsstring) :
  Regex.run tail_re pos v cap (fun _ _ cap' => Some cap')
  = if closes v then Some cap else None.
Proof.
  unfold tail_re, closes, is_quote. cbn [Regex.run Regex.lit].
  change (N_of_ascii ")") with 41.
  destruct v as [|q [|c [|d v]]]; [reflexivity| | |].
  - destruct (Regex.one_of quote q); reflexivity.
  - destruct (Regex.one_of quote q); cbn [andb].
    + destruct (41 =? c); [reflexivity|]. now destruct (41 =? q).
    + now destruct (41 =? q).
  - destruct (Regex.one_of quote q).
    + destruct (41 =? c); now destruct (41 =? q).
    + now destruct (41 =? q).
Qed.

Lemma firstn_span (p : N -> bool) (s : jsstring) (pos : nat) :
  firstn (pos + List.length (fst (span p s)) - pos) s = fst (span p s).
Proof.
  rewrite Nat.add_comm, Nat.add_sub.
  rewrite (span_app p s) at 2.
  now rewrite firstn_app, Nat.sub_diag, firstn_all, firstn_O, app_nil_r.
Qed.

Lemma run_body (pos : nat) (s : jsstring) (cap : option jsstring) :
  Regex.run body_re pos s cap (fun _ _ cap' => Some cap') = topic_of s.
Proof.
  unfold body_re. cbn [Regex.run]. fold is_plain.
  rewrite plus_span.
  - rewrite run_tail, firstn_span. unfold topic_of.
    destruct (truthy _); [|reflexivity]. reflexivity.
  - intros pos' c s' cap' Hc. rewrite run_tail.
    now rewrite closes_plain.
Qed.

Lemma topic_of_quote (c : N) (s : jsstring) :
  is_quote c = true -> topic_of (c :: s) = None.
Proof.
  intro H. unfold topic_of. cbn [span].
  now rewrite (is_quote_not_plain c H).
Qed.

Lemma exec_help (code : jsstring) :
  Regex.exec re_help code = match_help code.
Proof.
  unfold re_help. rewrite exec_anchored.
  cbn [Regex.lits].
  change (Regex.Seq (Regex.Opt (Regex.Class (Regex.one_of quote)))
            (Regex.Seq
               (Regex.Group (Regex.Plus (Regex.none_of quote_or_paren)))
               (Regex.Seq (Regex.Opt (Regex.Class (Regex.one_of quote)))
                  (Regex.Seq (Regex.lit ")") Regex.Eol))))
    with (Regex.Seq (Regex.Opt (Regex.Class is_quote)) body_re).
  unfold match_help.
  destruct code as [|h [|e [|l [|p [|o rest]]]]];
    cbn [Regex.run Regex.lit];
    change (N_of_ascii "h") with 104; change (N_of_ascii "e") with 101;
    change (N_of_ascii "l") with 108; change (N_of_ascii "p") with 112;
    change (N_of_ascii "(") with 40;
    try reflexivity;
    try (destruct (104 =? h); [|reflexivity]);
    try (destruct (101 =? e); [|reflexivity]);
    try (destruct (108 =? l); [|reflexivity]);
    try (destruct (112 =? p); [|reflexivity]);
    try reflexivity.
  destruct (40 =? o); [|reflexivity]. cbn [andb].
  assert (Hfin : forall s,
    match topic_of s with
    | Some cap => Some match cap with Some g => g | None => [] end
    | None => None
    end
    = (let (topic, v) := span is_plain s in
       if truthy topic && closes v then Some topic else None)).
  { intro s. unfold topic_of. destruct (span is_plain s) as [u v].
    cbn [fst snd]. now destruct (truthy u && closes v). }
  rewrite <- Hfin. unfold strip_quote.
  destruct rest as [|c s']; rewrite ?run_body; [reflexivity|].
  destruct (is_quote c) eqn:E.
  - rewrite (topic_of_quote c s' E). now destruct (topic_of s').
  - reflexivity.
Qed.

Lemma isHelpRequest_direct (code : jsstring) :
  isHelpRequest code
  = match match_question code with
    | Some g => Some (trim g)
    | None => option_map trim (match_help code)
    end.
Proof.
  unfold isHelpRequest. rewrite exec_question, exec_help.
  destruct (match_question code); [reflexivity|].
  now destruct (match_help code).
Qed.

Lemma plain_is_plain (c : N) : plain c <-> is_plain c = true.
Proof.
  rewrite is_plain_eq, negb_true_iff, !orb_false_iff, !N.eqb_neq.
  unfold plain. intuition congruence.
Qed.

Lemma Forall_plain (s : jsstring) :
  Forall plain s <-> forallb is_plain s = true.
Proof.
  rewrite forallb_forall, Forall_forall.
  split; intros H c Hc; apply plain_is_plain, H, Hc.
Qed.

Lemma Forall_dot (s : jsstring) :
  Forall (fun c => isLineTerminator c = false) s
  <-> forallb Regex.dot s = true.
Proof.
  rewrite forallb_forall, Forall_forall. unfold Regex.dot.
  split; intros H c Hc; specialize (H c Hc).
  - now rewrite H.
  - now apply negb_true_iff.
Qed.

Lemma match_question_syntax (code topic : jsstring) :
  match_question code = Some topic <->
  (code = 63 :: topic /\ topic <> []
   /\ Forall (fun c => isLineTerminator c = false) topic).
Proof.
  unfold match_question. destruct code as [|c s].
  - split; [discriminate | now intros [? _]].
  - rewrite Forall_dot, <- truthy_true.
    destruct (N.eqb_spec 63 c) as [<-|Hc]; cbn [andb].
    + destruct (truthy s) eqn:Ht; cbn [andb].
      * destruct (forallb Regex.dot s) eqn:Hd.
        -- split; [intros [= ->]; now repeat split|].
           now intros ([= ->] & _ & _).
        -- split; [discriminate|]. intros ([= ->] & _ & H). congruence.
      * split; [discriminate|]. intros ([= ->] & H & _). congruence.
    + split; [discriminate|]. intros ([= H _] & _). congruence.
Qed.

Lemma optional_quote_cases (q : jsstring) :
  optional_quote q ->
  q = [] \/ exists c, q = [c] /\ is_quote c = true.
Proof.
  intros [-> | [-> | ->]]; [now left| |]; right; eexists; split;
    reflexivity.
Qed.

Lemma is_quote_optional (c : N) : is_quote c = true -> optional_quote [c].
Proof.
  rewrite is_quote_eq, orb_true_iff, !N.eqb_eq.
  intros [<- | <-]; [right; left | right; right]; reflexivity.
Qed.

Lemma closes_spec (v : jsstring) :
  closes v = true <-> exists q2, optional_quote q2 /\ v = q2 ++ [41].
Proof.
  unfold closes. split.
  - destruct v as [|q [|c [|d v]]]; try discriminate.
    + intro H. apply N.eqb_eq in H as <-. exists []. split; [now left|].
      reflexivity.
    + intro H. apply andb_true_iff in H as [Hq Hc].
      apply N.eqb_eq in Hc as <-. exists [q].
      split; [now apply is_quote_optional | reflexivity].
  - intros (q2 & Hq & ->).
    destruct (optional_quote_cases q2 Hq) as [-> | (c & -> & Hc)].
    + reflexivity.
    + cbn [app]. now rewrite Hc.
Qed.

Lemma match_help_syntax (code topic : jsstring) :
  match_help code = Some topic <->
  exists q1 q2,
    optional_quote q1 /\ optional_quote q2 /\ topic <> []
    /\ Forall plain topic
    /\ code = js "help(" ++ q1 ++ topic ++ q2 ++ js ")".
Proof.
  change (js "help(") with [104; 101; 108; 112; 40].
  change (js ")") with [41].
  split.
  - unfold match_help.
    destruct code as [|h [|e [|l [|p [|o rest]]]]]; try discriminate.
    destruct (N.eqb_spec 104 h) as [<-|]; [|discriminate].
    destruct (N.eqb_spec 101 e) as [<-|]; [|discriminate].
    destruct (N.eqb_spec 108 l) as [<-|]; [|discriminate].
    destruct (N.eqb_spec 112 p) as [<-|]; [|discriminate].
    destruct (N.eqb_spec 40 o) as [<-|]; [|discriminate].
    cbn [andb].
    pose proof (span_app is_plain (strip_quote rest)) as Happ.
    pose proof (span_forallb is_plain (strip_quote rest)) as Hall.
    destruct (span is_plain (strip_quote rest)) as [u v].
    cbn [fst snd] in *.
    destruct (truthy u) eqn:Hu; [|discriminate]. cbn [andb].
    destruct (closes v) eqn:Hv; [|discriminate]. intros [= ->].
    apply closes_spec in Hv as (q2 & Hq2 & ->).
    assert (Hq1 : exists q1, optional_quote q1
                             /\ rest = q1 ++ strip_quote rest).
    { unfold strip_quote. destruct rest as [|c s'].
      - exists []. split; [now left | reflexivity].
      - destruct (is_quote c) eqn:Hc.
        + exists [c]. split; [now apply is_quote_optional | reflexivity].
        + exists []. split; [now left | reflexivity]. }
    destruct Hq1 as (q1 & Hq1 & Hrest).
    exists q1, q2. repeat split; trivial.
    + now apply truthy_true.
    + now apply Forall_plain.
    + cbn [app]. rewrite Hrest at 1. now rewrite Happ.
  - intros (q1 & q2 & Hq1 & Hq2 & Hne & Hall & ->).
    cbn [app]. unfold match_help. cbn [N.eqb Pos.eqb andb].
    assert (Hstrip : strip_quote (q1 ++ topic ++ q2 ++ [41])
                     = topic ++ q2 ++ [41]).
    { destruct (optional_quote_cases q1 Hq1) as [-> | (c & -> & Hc)].
      - destruct topic as [|c topic]; [congruence|].
        cbn [app strip_quote]. inversion Hall as [|? ? Hc _]; subst.
        apply plain_is_plain in Hc.
        destruct (is_quote c) eqn:E; [|reflexivity].
        apply is_quote_not_plain in E. congruence.
      - cbn [app strip_quote]. now rewrite Hc. }
    rewrite Hstrip, span_stop.
    + apply truthy_true in Hne. rewrite Hne.
      now rewrite (proj2 (closes_spec (q2 ++ [41]))) by now exists q2.
    + now apply Forall_plain.
    + destruct Hq2 as [-> | [-> | ->]]; reflexivity.
Qed.

Lemma match_exclusive (code a : jsstring) :
  match_question code = Some a -> match_help code = None.
Proof.
  unfold match_question, match_help. destruct code as [|c s]; [discriminate|].
  destruct (N.eqb_spec 63 c) as [<-|]; [|discriminate].
  intros _. now destruct s as [|e [|l [|p [|o rest]]]].
Qed.

Lemma help_syntax_direct (code topic : jsstring) :
  HelpSyntax code topic <->
  match_question code = Some topic \/ match_help code = Some topic.
Proof.
  rewrite match_question_syntax, match_help_syntax. split.
  - intros [t Hne Hall | q1 q2 t Hq1 Hq2 Hne Hall].
    + left. now repeat split.
    + right. now exists q1, q2.
  - intros [(-> & Hne & Hall) | (q1 & q2 & Hq1 & Hq2 & Hne & Hall & ->)].
    + now constructor.
    + now constructor.
Qed.

Lemma isHelpRequest_syntax (code t : jsstring) :
  isHelpRequest code = Some t <->
  exists topic, HelpSyntax code topic /\ t = trim topic.
Proof.
  rewrite isHelpRequest_direct. split.
  - destruct (match_question code) as [g|] eqn:Eq.
    + intros [= <-]. exists g. split; [|reflexivity].
      apply help_syntax_direct. now left.
    + destruct (match_help code) as [g|] eqn:Eh; [|discriminate].
      intros [= <-]. exists g. split; [|reflexivity].
      apply help_syntax_direct. now right.
  - intros (topic & Hs & ->). apply help_syntax_direct in Hs as [Hq | Hh].
    + now rewrite Hq.
    + destruct (match_question code) as [g|] eqn:Eq.
      * apply match_exclusive in Eq. congruence.
      * now rewrite Hh.
Qed.

(** C5.  [isHelpRequest] depends on its argument alone and returns the
    trimmed topic exactly on the help syntax: it returns [t] if and only if
    the code reads [?topic] or [help(topic)], quotes optional, with [t] the
    trim of the topic, and [null] on every other code.  A match of the
    first pattern decides the result, and then the second pattern does not
    match.  The three examples evaluate as stated. *)
Theorem isHelpRequest_pattern :
  (forall code t,
     isHelpRequest code = Some t <->
     exists topic, HelpSyntax code topic /\ t = trim topic)
  /\ (forall code,
        isHelpRequest code = None <-> ~ exists topic, HelpSyntax code topic)
  /\ (forall code g,
        Regex.exec re_question code = Some g ->
        isHelpRequest code = Some (trim g)
        /\ Regex.exec re_help code = None)
  /\ isHelpRequest (js "?mean") = Some (js "mean")
  /\ isHelpRequest (js "help(" ++ [34] ++ js "plot" ++ [34] ++ js ")")
     = Some (js "plot")
  /\ isHelpRequest (js "1 + 1") = None.
Proof.
  split; [exact isHelpRequest_syntax|]. split; [|split].
  - intro code. split.
    + intros Hn (topic & Hs).
      assert (H : isHelpRequest code = Some (trim topic)).
      { apply isHelpRequest_syntax. now exists topic. }
      congruence.
    + intro Hn. destruct (isHelpRequest code) as [t|] eqn:E; [|reflexivity].
      exfalso. apply Hn. apply isHelpRequest_syntax in E as (topic & Hs & _).
      now exists topic.
  - intros code g Hg. split.
    + unfold isHelpRequest. now rewrite Hg.
    + rewrite exec_help. rewrite exec_question in Hg.
      now apply match_exclusive in Hg.
  - repeat split; reflexivity.
Qed.

Lemma isHelpRequest_pattern_witness :
  isHelpRequest (js "?mean") = Some (trim (js "mean"))
  /\ isHelpRequest (js "help(plot)") = Some (trim (js "plot")).
Proof.
  split.
  - apply (proj1 isHelpRequest_pattern). exists (js "mean").
    split; [|reflexivity]. apply help_question.
    + discriminate.
    + repeat constructor.
  - apply (proj1 isHelpRequest_pattern). exists (js "plot").
    split; [|reflexivity].
    apply (help_call [] [] (js "plot")).
    + now left.
    + now left.
    + discriminate.
    + repeat constructor; discriminate.
Defined.

(** ** Sample runs of the theorems *)

Local Open Scope Z_scope.

Lemma shelter_released_before_unlock_witness :
  isRunning (fst (runCode_try io_two (js "1 + 1")
                    (runCode_begin (js "1 + 1") ready_state))) = true
  /\ unreleased (webRcalls (runCode io_two (js "1 + 1") ready_state))
     = unreleased (webRcalls ready_state).
Proof.
  destruct (proj1 shelter_released_before_unlock io_two (js "1 + 1")
              ready_state eq_refl eq_refl ltac:(discriminate) eq_refl)
    as (Hrun & Hlocked & _ & Hcalls & _ & Hcount).
  split; [exact Hlocked|].
  rewrite Hrun, Hcalls. exact Hcount.
Defined.

Lemma history_most_recent_first_witness :
  commandHistory
    (submit_all (console_only [(js "a", io_two); (js " b ", io_two)])
       ready_state)
  = [js "b"; js "a"].
Proof.
  apply (proj1 (proj2 history_most_recent_first)
           [(js "a", io_two); (js " b ", io_two)] ready_state).
  - repeat constructor.
  - reflexivity.
Defined.

Lemma plot_navigation_saturates_witness :
  plotPrev_click (addPlot (ImageString (js "data:a")) ready_state)
  = addPlot (ImageString (js "data:a")) ready_state
  /\ plotNext_click (addPlot (ImageString (js "data:a")) ready_state)
     = addPlot (ImageString (js "data:a")) ready_state
  /\ 1 <= 2 <= 2.
Proof.
  destruct plot_navigation_saturates as (Hprev & Hnext & Hrange).
  split; [apply Hprev; reflexivity|].
  split; [apply Hnext; reflexivity|].
  apply (Hrange ready_state
           [Append (ImageString (js "data:a"));
            Append (ImageString (js "data:b"))]
           (mkView (Some (UrlString (js "data:b"))) 2 2 false true)).
  - apply reach_boot, reach_loaded.
  - reflexivity.
Defined.

Lemma history_entries_trimmed_witness :
  Forall trimmed_command
    (commandHistory
       (step (step ready_state (ConsoleType (js " 1 + 1 ")))
          (ConsoleEnter io_two))).
Proof.
  apply (proj1 history_entries_trimmed).
  apply reach_step, reach_step, reach_boot, reach_loaded.
Defined.

(** ** Further properties: recall in the console *)

Lemma handleConsoleDown_back (st : State) :
  0 < historyIndex st < zlength (commandHistory st) ->
  commandHistory (handleConsoleDown st) = commandHistory st
  /\ historyIndex (handleConsoleDown st) = historyIndex st - 1
  /\ consoleValue (handleConsoleDown st)
     = nth (Z.to_nat (historyIndex st - 1)) (commandHistory st) [].
Proof.
  intro H. unfold handleConsoleDown, setValue_history.
  destruct (Z.gtb_spec (historyIndex st) 0) as [E|E]; [|lia].
  replace (commandHistory (set_historyIndex (historyIndex st - 1) st))
    with (commandHistory st) by by_fields.
  replace (historyIndex (set_historyIndex (historyIndex st - 1) st))
    with (historyIndex st - 1) by by_fields.
  rewrite index_nth by lia. by_fields. now repeat split.
Qed.

Lemma handleConsoleDown_newest (st : State) :
  historyIndex st = 0 ->
  commandHistory (handleConsoleDown st) = commandHistory st
  /\ historyIndex (handleConsoleDown st) = -1
  /\ consoleValue (handleConsoleDown st) = [].
Proof.
  intro H. unfold handleConsoleDown. rewrite H. cbn. by_fields.
  now repeat split.
Qed.

Lemma handleConsoleDown_live (st : State) :
  historyIndex st < 0 -> handleConsoleDown st = st.
Proof.
  intro H. unfold handleConsoleDown.
  destruct (Z.gtb_spec (historyIndex st) 0); [lia|].
  destruct (Z.eqb_spec (historyIndex st) 0); [lia | reflexivity].
Qed.

Lemma downs_live (n : nat) (st : State) :
  historyIndex st < 0 -> downs n st = st.
Proof.
  intro H. induction n as [|n IH]; [reflexivity|].
  change (downs (S n) st) with (handleConsoleDown (downs n st)).
  rewrite IH. now apply handleConsoleDown_live.
Qed.

Lemma downs_succ (n : nat) (st : State) :
  downs (S n) st = downs n (handleConsoleDown st).
Proof. unfold downs. apply Nat.iter_succ_r. Qed.

(** X1.  From any entry of the history, pressing Down more times than the
    cursor counts brings the console back to the live line: the cursor is
    -1, the input is empty, the history is as it was, and further presses
    change nothing. *)
Theorem downs_return_to_live_line (st : State) (n : nat) :
  0 <= historyIndex st < zlength (commandHistory st) ->
  historyIndex st < Z.of_nat n ->
  historyIndex (downs n st) = -1
  /\ consoleValue (downs n st) = []
  /\ commandHistory (downs n st) = commandHistory st
  /\ handleConsoleDown (downs n st) = downs n st.
Proof.
  revert st. induction n as [|n IH]; intros st Hc Hn; [lia|].
  rewrite downs_succ.
  destruct (Z.eq_dec (historyIndex st) 0) as [E|E].
  - destruct (handleConsoleDown_newest st E) as (H1 & H2 & H3).
    rewrite downs_live by lia. repeat split; trivial.
    apply handleConsoleDown_live. lia.
  - destruct (handleConsoleDown_back st) as (H1 & H2 & H3); [lia|].
    destruct (IH (handleConsoleDown st)) as (I1 & I2 & I3 & I4).
    + rewrite H1, H2. lia.
    + rewrite H2. lia.
    + repeat split; trivial. now rewrite I3.
Qed.

Lemma downs_return_to_live_line_witness :
  let st := ups 2 (submit_all
                     (console_only [(js "a", io_two); (js "b", io_two)])
                     ready_state) in
  historyIndex st = 1
  /\ historyIndex (downs 2 st) = -1
  /\ consoleValue (downs 2 st) = [].
Proof.
  intro st. split; [reflexivity|].
  destruct (downs_return_to_live_line st 2) as (H1 & H2 & _).
  - split; [discriminate | reflexivity].
  - reflexivity.
  - split; [exact H1 | exact H2].
Defined.

(** X2.  Up followed by Down restores the cursor.  From an entry of the
    history the input shows that entry again; from the live line the input
    is empty afterwards, whatever had been typed there.  Down followed by
    Up, from an entry, shows that entry again. *)
Theorem up_down_round_trip (st : State) :
  -1 <= historyIndex st < zlength (commandHistory st) - 1 ->
  let st' := handleConsoleDown (handleConsoleUp st) in
  historyIndex st' = historyIndex st
  /\ commandHistory st' = commandHistory st
  /\ consoleValue st'
     = (if historyIndex st =? -1 then []
        else nth (Z.to_nat (historyIndex st)) (commandHistory st) []).
Proof.
  intros H st'. subst st'.
  destruct (handleConsoleUp_recall st H) as (U1 & U2 & U3).
  destruct (Z.eqb_spec (historyIndex st) (-1)) as [E|E].
  - destruct (handleConsoleDown_newest (handleConsoleUp st)) as (D1 & D2 & D3).
    { rewrite U2. lia. }
    rewrite D1, D2, D3, U1. repeat split. lia.
  - destruct (handleConsoleDown_back (handleConsoleUp st)) as (D1 & D2 & D3).
    { rewrite U1, U2. lia. }
    rewrite D1, D2, D3, U1, U2. repeat split; [lia|].
    f_equal. lia.
Qed.

Lemma up_down_round_trip_witness :
  let st := set_consoleValue (js "typed")
              (submit_all (console_only [(js "a", io_two)]) ready_state) in
  consoleValue st = js "typed"
  /\ consoleValue (handleConsoleDown (handleConsoleUp st)) = [].
Proof.
  intro st. split; [reflexivity|].
  destruct (up_down_round_trip st) as (_ & _ & H).
  - split; [discriminate | reflexivity].
  - exact H.
Defined.

(** X3.  Down followed by Up, from an entry of the history, restores the
    cursor and shows that entry. *)
Theorem down_up_round_trip (st : State) :
  0 <= historyIndex st < zlength (commandHistory st) ->
  let st' := handleConsoleUp (handleConsoleDown st) in
  historyIndex st' = historyIndex st
  /\ commandHistory st' = commandHistory st
  /\ consoleValue st'
     = nth (Z.to_nat (historyIndex st)) (commandHistory st) [].
Proof.
  intros H st'. subst st'.
  destruct (Z.eq_dec (historyIndex st) 0) as [E|E].
  - destruct (handleConsoleDown_newest st E) as (D1 & D2 & D3).
    destruct (handleConsoleUp_recall (handleConsoleDown st)) as (U1 & U2 & U3).
    { rewrite D1, D2. lia. }
    rewrite U1, U2, U3, D1, D2, E. now repeat split.
  - destruct (handleConsoleDown_back st) as (D1 & D2 & D3); [lia|].
    destruct (handleConsoleUp_recall (handleConsoleDown st)) as (U1 & U2 & U3).
    { rewrite D1, D2. lia. }
    rewrite U1, U2, U3, D1, D2. repeat split; [lia|]. f_equal. lia.
Qed.

Lemma down_up_round_trip_witness :
  let st := ups 1 (submit_all
                     (console_only [(js "a", io_two); (js "b", io_two)])
                     ready_state) in
  consoleValue (handleConsoleUp (handleConsoleDown st)) = js "b".
Proof.
  intro st. destruct (down_up_round_trip st) as (_ & _ & H).
  - split; [discriminate | reflexivity].
  - exact H.
Defined.

(** X4.  In every state of a session the cursor is -1 or an index of the
    history, and the entry that [handleConsoleUp] or [handleConsoleDown]
    hands to [setValue] exists: the lookup never yields [undefined]. *)
Theorem recall_stays_in_history (st : State) :
  reachable st ->
  -1 <= historyIndex st < zlength (commandHistory st)
  /\ (historyIndex st < zlength (commandHistory st) - 1 ->
      exists entry,
        index (commandHistory st) (historyIndex st + 1) = Some entry
        /\ consoleValue (handleConsoleUp st) = entry)
  /\ (0 < historyIndex st ->
      exists entry,
        index (commandHistory st) (historyIndex st - 1) = Some entry
        /\ consoleValue (handleConsoleDown st) = entry).
Proof.
  intro Hr. pose proof (cursor_inv_reachable st Hr) as Hc.
  unfold cursor_inv in Hc. split; [exact Hc|]. split.
  - intro H. eexists. split; [apply index_nth; lia|].
    now apply handleConsoleUp_recall.
  - intro H. eexists. split; [apply index_nth; lia|].
    now apply handleConsoleDown_back.
Qed.

Lemma recall_stays_in_history_witness :
  let st := step (step ready_state (ConsoleType (js "a")))
              (ConsoleEnter io_two) in
  -1 <= historyIndex st < zlength (commandHistory st).
Proof.
  intro st. apply recall_stays_in_history.
  apply reach_step, reach_step, reach_boot, reach_loaded.
Defined.



(** ** Further properties: the plot gallery *)

(** X6.  Next and Previous undo each other whenever the first of the two
    moves: in a state whose index points into the buffer, Previous after a
    moving Next, and Next after a moving Previous, give the state back. *)
Theorem plot_next_prev_inverse (st : State) :
  0 <= currentPlotIndex st < zlength (plotImages st) ->
  (currentPlotIndex st < zlength (plotImages st) - 1 ->
   plotPrev_click (plotNext_click st) = st)
  /\ (0 < currentPlotIndex st ->
      plotNext_click (plotPrev_click st) = st).
Proof.
  intro H. split; intro Hm.
  - unfold plotNext_click.
    destruct (Z.ltb_spec (currentPlotIndex st) (zlength (plotImages st) - 1));
      [|lia].
    unfold plotPrev_click.
    replace (currentPlotIndex
               (set_currentPlotIndex (currentPlotIndex st + 1) st))
      with (currentPlotIndex st + 1) by by_fields.
    destruct (Z.gtb_spec (currentPlotIndex st + 1) 0); [|lia].
    destruct st; unfold set_currentPlotIndex; cbn in *. f_equal. lia.
  - unfold plotPrev_click.
    destruct (Z.gtb_spec (currentPlotIndex st) 0); [|lia].
    unfold plotNext_click.
    replace (currentPlotIndex
               (set_currentPlotIndex (currentPlotIndex st - 1) st))
      with (currentPlotIndex st - 1) by by_fields.
    replace (plotImages (set_currentPlotIndex (currentPlotIndex st - 1) st))
      with (plotImages st) by by_fields.
    destruct (Z.ltb_spec (currentPlotIndex st - 1)
                (zlength (plotImages st) - 1)); [|lia].
    destruct st; unfold set_currentPlotIndex; cbn in *. f_equal. lia.
Qed.

Lemma plot_next_prev_inverse_witness :
  let st := plotPrev_click
              (gallery_run [Append (ImageString (js "a"));
                            Append (ImageString (js "b"))] ready_state) in
  currentPlotIndex st = 0
  /\ plotPrev_click (plotNext_click st) = st.
Proof.
  intro st. split; [reflexivity|].
  apply (proj1 (plot_next_prev_inverse st
                  (conj (Z.le_refl 0) eq_refl))).
  reflexivity.
Defined.

(** X7.  The arrow keys do what the two buttons do: in a state whose index
    is 0 on an empty buffer or points into the buffer, outside the editors
    Left is Previous and Right is Next; inside an editor, and for any other
    key, the listener changes nothing. *)
Theorem keydown_matches_buttons (st : State) :
  plot_inv st ->
  keydown false ArrowLeft st = plotPrev_click st
  /\ keydown false ArrowRight st = plotNext_click st
  /\ (forall key, keydown true key st = st)
  /\ (forall inEditor, keydown inEditor OtherKey st = st).
Proof.
  intro H. unfold keydown, plotPrev_click, plotNext_click, plot_inv in *.
  repeat split.
  - destruct (Z.gtb_spec (zlength (plotImages st)) 0) as [E|E];
      cbn [andb]; [reflexivity|].
    destruct (Z.gtb_spec (currentPlotIndex st) 0); [lia | reflexivity].
  - destruct (Z.gtb_spec (zlength (plotImages st)) 0) as [E|E];
      cbn [andb]; [reflexivity|].
    destruct (Z.ltb_spec (currentPlotIndex st) (zlength (plotImages st) - 1));
      [|reflexivity].
    destruct H as [[Hn Hi]|H]; [|lia].
    rewrite Hn in *. unfold zlength in *. cbn in *. lia.
  - now intros [].
Qed.

Lemma keydown_matches_buttons_witness :
  keydown false ArrowLeft
    (addPlot (ImageString (js "a")) (addPlot ImageOther ready_state))
  = plotPrev_click
      (addPlot (ImageString (js "a")) (addPlot ImageOther ready_state)).
Proof.
  apply keydown_matches_buttons. apply plot_inv_addPlot.
Defined.

Lemma iter_prev_index (k : nat) (st : State) :
  0 <= currentPlotIndex st ->
  currentPlotIndex (Nat.iter k plotPrev_click st)
  = Z.max 0 (currentPlotIndex st - Z.of_nat k)
  /\ plotImages (Nat.iter k plotPrev_click st) = plotImages st.
Proof.
  intro H. induction k as [|k [IH1 IH2]]; [cbn; split; [lia | reflexivity]|].
  change (Nat.iter (S k) plotPrev_click st)
    with (plotPrev_click (Nat.iter k plotPrev_click st)).
  set (s := Nat.iter k plotPrev_click st) in *.
  unfold plotPrev_click.
  destruct (Z.gtb_spec (currentPlotIndex s) 0).
  - split; [|rewrite <- IH2; by_fields].
    replace (currentPlotIndex (set_currentPlotIndex _ _))
      with (currentPlotIndex s - 1) by by_fields.
    lia.
  - split; [lia | exact IH2].
Qed.

Lemma iter_next_index (k : nat) (st : State) :
  currentPlotIndex st < zlength (plotImages st) ->
  currentPlotIndex (Nat.iter k plotNext_click st)
  = Z.min (zlength (plotImages st) - 1) (currentPlotIndex st + Z.of_nat k)
  /\ plotImages (Nat.iter k plotNext_click st) = plotImages st.
Proof.
  intro H. induction k as [|k [IH1 IH2]]; [cbn; split; [lia | reflexivity]|].
  change (Nat.iter (S k) plotNext_click st)
    with (plotNext_click (Nat.iter k plotNext_click st)).
  set (s := Nat.iter k plotNext_click st) in *.
  unfold plotNext_click. rewrite IH2.
  destruct (Z.ltb_spec (currentPlotIndex s) (zlength (plotImages st) - 1)).
  - split; [|rewrite <- IH2; by_fields].
    replace (currentPlotIndex (set_currentPlotIndex _ _))
      with (currentPlotIndex s + 1) by by_fields.
    lia.
  - split; [lia | exact IH2].
Qed.

(** X8.  Navigation saturates after any number of clicks: [k] clicks on
    Previous from index [i] lead to index [max 0 (i - k)], and [k] clicks on
    Next to index [min (length - 1) (i + k)]; the buffer is never changed
    by navigation. *)
Theorem plot_navigation_clicks (k : nat) (st : State) :
  0 <= currentPlotIndex st < zlength (plotImages st) ->
  currentPlotIndex (Nat.iter k plotPrev_click st)
  = Z.max 0 (currentPlotIndex st - Z.of_nat k)
  /\ currentPlotIndex (Nat.iter k plotNext_click st)
     = Z.min (zlength (plotImages st) - 1) (currentPlotIndex st + Z.of_nat k)
  /\ plotImages (Nat.iter k plotPrev_click st) = plotImages st
  /\ plotImages (Nat.iter k plotNext_click st) = plotImages st.
Proof.
  intro H.
  destruct (iter_prev_index k st) as [P1 P2]; [lia|].
  destruct (iter_next_index k st) as [N1 N2]; [lia|].
  now repeat split.
Qed.

Lemma plot_navigation_clicks_witness :
  let st := gallery_run [Append (ImageString (js "a"));
                         Append (ImageString (js "b"));
                         Append (ImageString (js "c"))] ready_state in
  currentPlotIndex (Nat.iter 5 plotPrev_click st) = 0.
Proof.
  intro st.
  exact (proj1 (plot_navigation_clicks 5 st (conj (Z.le_0_2) eq_refl))).
Defined.

(** X9.  What the plot panel shows in every state of a session: the
    placeholder exactly when the buffer is empty; otherwise an image that
    is an element of the buffer, namely the one at the current index, the
    total as the length of the buffer, Previous disabled exactly at
    position 1 and Next exactly at the last position, and a disabled
    button could not move the index anyway. *)
Theorem plot_view_consistent (st : State) :
  reachable st ->
  (updatePlotDisplay st = None <-> plotImages st = [])
  /\ (forall view,
        updatePlotDisplay st = Some view ->
        (exists img,
           image view = Some img
           /\ nth_error (plotImages st) (Z.to_nat (position view - 1))
              = Some img)
        /\ total view = zlength (plotImages st)
        /\ (prevDisabled view = true <-> position view = 1)
        /\ (nextDisabled view = true <-> position view = total view)
        /\ (prevDisabled view = true -> plotPrev_click st = st)
        /\ (nextDisabled view = true -> plotNext_click st = st)).
Proof.
  intro Hr. pose proof (plot_inv_reachable st Hr) as Hi.
  unfold updatePlotDisplay. split.
  - destruct (Z.eqb_spec (zlength (plotImages st)) 0) as [E|E].
    + split; [intros _; now apply zlength_nil_inv | reflexivity].
    + split; [discriminate|]. intro Hn. rewrite Hn in E. now elim E.
  - intros view Hv.
    destruct (Z.eqb_spec (zlength (plotImages st)) 0) as [E|E];
      [discriminate|].
    injection Hv as <-. cbn [image position total prevDisabled nextDisabled].
    destruct Hi as [[Hn _]|Hi]; [rewrite Hn in E; now elim E|].
    repeat split.
    + unfold index. destruct (Z.ltb_spec (currentPlotIndex st) 0); [lia|].
      replace (currentPlotIndex st + 1 - 1) with (currentPlotIndex st) by lia.
      destruct (nth_error (plotImages st) (Z.to_nat (currentPlotIndex st)))
        as [img|] eqn:En.
      * now exists img.
      * apply nth_error_None in En. unfold zlength in Hi. lia.
    + intro H. apply Z.eqb_eq in H. lia.
    + intro H. apply Z.eqb_eq. lia.
    + intro H. apply Z.eqb_eq in H. lia.
    + intro H. apply Z.eqb_eq. lia.
    + intro H. apply Z.eqb_eq in H. unfold plotPrev_click. now rewrite H.
    + intro H. apply Z.eqb_eq in H. unfold plotNext_click. rewrite H.
      now rewrite Z.ltb_irrefl.
Qed.

Lemma plot_view_consistent_witness :
  updatePlotDisplay ready_state = None <-> plotImages ready_state = [].
Proof.
  apply plot_view_consistent. apply reach_boot, reach_loaded.
Defined.

(** ** Further properties: the runner *)

Lemma plots_route (out : OutputRecord) (st : State) :
  plotImages (route out st) = plotImages st
  /\ currentPlotIndex (route out st) = currentPlotIndex st.
Proof.
  unfold route.
  repeat match goal with
         | |- context [if ?b then _ else _] => destruct b
         end; by_fields; now split.
Qed.

Lemma plots_addPlots (imgs : list ImageData) (st : State) :
  plotImages (fold_left (fun s img => addPlot img s) imgs st)
  = plotImages st ++ map toDataUrl imgs
  /\ currentPlotIndex (fold_left (fun s img => addPlot img s) imgs st)
     = match imgs with
       | [] => currentPlotIndex st
       | _ :: _ => zlength (plotImages st ++ map toDataUrl imgs) - 1
       end.
Proof.
  revert st. induction imgs as [|img imgs IH]; intro st; cbn [fold_left map].
  - now rewrite app_nil_r.
  - destruct (IH (addPlot img st)) as [-> ->].
    rewrite plotImages_addPlot, <- app_assoc. split; [reflexivity|].
    destruct imgs as [|img' imgs]; [|reflexivity].
    rewrite currentPlotIndex_addPlot. cbn [map app].
    rewrite zlength_app. lia.
Qed.

Lemma plots_consume (result : CaptureResult) (st : State) :
  plotImages (consume result st)
  = plotImages st ++ map toDataUrl (images result)
  /\ currentPlotIndex (consume result st)
     = match images result with
       | [] => currentPlotIndex st
       | _ :: _ =>
           zlength (plotImages st ++ map toDataUrl (images result)) - 1
       end.
Proof.
  unfold consume.
  destruct (plots_addPlots (images result)
              (fold_left (fun s out => route out s) (output result) st))
    as [-> ->].
  rewrite (fold_left_frame plotImages)
    by (intros; apply plots_route).
  rewrite (fold_left_frame currentPlotIndex)
    by (intros; apply plots_route).
  now split.
Qed.

Lemma forEach_echo_proj {X : Type} (proj : State -> X) :
  (forall text type s, proj (appendConsole text type s) = proj s) ->
  forall lines i st, proj (forEach_echo lines i st) = proj st.
Proof.
  intros Hp lines. induction lines as [|l lines IH]; intros i st;
    cbn [forEach_echo]; [reflexivity|].
  now rewrite IH, Hp.
Qed.

Lemma plots_runCode_begin (code : jsstring) (st : State) :
  plotImages (runCode_begin code st) = plotImages st
  /\ currentPlotIndex (runCode_begin code st) = currentPlotIndex st.
Proof.
  unfold runCode_begin.
  rewrite (forEach_echo_proj plotImages) by (intros; by_fields).
  rewrite (forEach_echo_proj currentPlotIndex) by (intros; by_fields).
  by_fields. now split.
Qed.

Lemma plots_simple (s : State) :
  (forall text type,
     plotImages (appendConsole text type s) = plotImages s
     /\ currentPlotIndex (appendConsole text type s) = currentPlotIndex s)
  /\ (forall c,
        plotImages (call c s) = plotImages s
        /\ currentPlotIndex (call c s) = currentPlotIndex s)
  /\ plotImages (runCode_end s) = plotImages s
  /\ currentPlotIndex (runCode_end s) = currentPlotIndex s.
Proof. by_fields. repeat split. Qed.

(** X10.  A run that gets past the guard and the help test appends the
    images of the result to the plot buffer, in the order of the result and
    after the images already there, whenever the evaluation resolves, be
    the release of the context rejected or not; the newest image is then
    the current one.  When the context is not acquired or the evaluation
    raises, or when the result has no image, the gallery is as before. *)
Theorem run_appends_images (io : Interp) (code : jsstring) (st : State) :
  isRunning st = false -> webR st = true -> code <> [] ->
  helpTopicMatch code = None ->
  let added :=
    match on_Shelter io, on_captureR io with
    | Resolved _, Resolved result => map toDataUrl (images result)
    | _, _ => []
    end in
  plotImages (runCode io code st) = plotImages st ++ added
  /\ currentPlotIndex (runCode io code st)
     = match added with
       | [] => currentPlotIndex st
       | _ :: _ => zlength (plotImages st ++ added) - 1
       end.
Proof.
  intros Hlock Hweb Hcode Hhelp added.
  rewrite runCode_evaluates by assumption.
  destruct (plots_simple
              (fst (runCode_try io code (runCode_begin code st))))
    as (_ & _ & -> & ->).
  rewrite runCode_try_cases.
  destruct (plots_runCode_begin code st) as [Hb1 Hb2].
  subst added.
  destruct (on_Shelter io) as [u|e].
  - cbn zeta.
    set (st1 := call (CallCaptureR code)
                  (call (CallShelter true) (runCode_begin code st))).
    assert (H1 : plotImages st1 = plotImages st
                 /\ currentPlotIndex st1 = currentPlotIndex st).
    { subst st1.
      destruct (proj1 (proj2 (plots_simple
                  (call (CallShelter true) (runCode_begin code st))))
                  (CallCaptureR code)) as [-> ->].
      destruct (proj1 (proj2 (plots_simple (runCode_begin code st)))
                  (CallShelter true)) as [-> ->].
      now split. }
    destruct H1 as [H1 H2].
    destruct (on_captureR io) as [result|e0]; destruct (on_purge io) as [v|e1];
      repeat match goal with
             | |- context [appendConsole ?t ?ty ?s] =>
                 destruct (proj1 (plots_simple s) t ty) as [-> ->]
             | |- context [call ?c ?s] =>
                 destruct (proj1 (proj2 (plots_simple s)) c) as [-> ->]
             end;
      try (destruct (plots_consume result st1) as [-> ->]);
      rewrite ?H1, ?H2, ?app_nil_r; try (now split).
    + split; [reflexivity|]. now destruct (images result).
    + split; [reflexivity|]. now destruct (images result).
  - destruct (proj1 (plots_simple
                (call (CallShelter false) (runCode_begin code st)))
                (js "Error: " ++ e) stderr) as [-> ->].
    destruct (proj1 (proj2 (plots_simple (runCode_begin code st)))
                (CallShelter false)) as [-> ->].
    rewrite Hb1, Hb2, app_nil_r. now split.
Qed.

Lemma run_appends_images_witness :
  plotImages
    (runCode
       (mkInterp (Resolved tt)
          (Resolved (mkResult [] [ImageBitmap 1; ImageString (js "u")]))
          (Rejected (js "closed")) (Resolved []))
       (js "plot(1)") ready_state)
  = [CanvasPng 1; UrlString (js "u")].
Proof.
  exact (proj1 (run_appends_images
                  (mkInterp (Resolved tt)
                     (Resolved
                        (mkResult [] [ImageBitmap 1; ImageString (js "u")]))
                     (Rejected (js "closed")) (Resolved []))
                  (js "plot(1)") ready_state eq_refl eq_refl
                  ltac:(discriminate) eq_refl)).
Defined.

Lemma getHelp_never_throws (io : Interp) (topic : jsstring) (st : State) :
  snd (getHelp io topic st) = Resolved tt.
Proof.
  unfold getHelp. destruct (negb (webR st)); [reflexivity|].
  unfold try_catch, bind, evalRString, exec.
  now destruct (on_evalRString io).
Qed.

(** X11.  A help request never engages the runner.  For a code that
    [isHelpRequest] maps to a non-empty topic, in a session whose
    interpreter exists and whose lock is free, [runCode] echoes the code as
    one command line, asks the interpreter for the topic once, and shows in
    the help panel the topic with the text received, or with the message of
    the failure after [Error getting help: ]; it does not throw, and the
    lock, the status, the plots and the evaluation contexts are as
    before. *)
Theorem runCode_help_request
    (io : Interp) (code topic : jsstring) (st : State) :
  isRunning st = false -> webR st = true ->
  helpTopicMatch code = Some topic ->
  let text :=
    match on_evalRString io with
    | Resolved text => text
    | Rejected message => js "Error getting help: " ++ message
    end in
  runCode io code st
  = displayHelp topic text
      (call (CallEvalRString topic)
         (appendConsole (js "> " ++ code) command st))
  /\ consoleOutput (runCode io code st)
     = consoleOutput st ++ [mkLine (js "> " ++ code) command]
  /\ webRcalls (runCode io code st)
     = webRcalls st ++ [CallEvalRString topic]
  /\ helpPanel (runCode io code st) = Some (topic, text)
  /\ isRunning (runCode io code st) = false
  /\ status (runCode io code st) = status st
  /\ plotImages (runCode io code st) = plotImages st
  /\ snd (getHelp io topic (appendConsole (js "> " ++ code) command st))
     = Resolved tt.
Proof.
  intros Hlock Hweb Hhelp text.
  assert (Hcode : truthy code = true).
  { destruct code; [discriminate Hhelp | reflexivity]. }
  assert (Heq : runCode io code st
                = displayHelp topic text
                    (call (CallEvalRString topic)
                       (appendConsole (js "> " ++ code) command st))).
  { unfold runCode. rewrite Hlock, Hweb, Hcode, Hhelp. cbn [orb negb].
    unfold getHelp.
    replace (webR (appendConsole (js "> " ++ code) command st))
      with true by (rewrite <- Hweb; by_fields).
    cbn [negb]. unfold try_catch, bind, evalRString, exec. subst text.
    now destruct (on_evalRString io). }
  split; [exact Heq|]. rewrite Heq.
  repeat split; try (by_fields; fail).
  apply getHelp_never_throws.
Qed.

Lemma runCode_help_request_witness :
  helpPanel
    (runCode (mkInterp (Resolved tt) (Resolved result_two) (Resolved tt)
                (Rejected (js "no network")))
       (js "?mean") ready_state)
  = Some (js "mean", js "Error getting help: no network").
Proof.
  exact (proj1 (proj2 (proj2 (proj2
           (runCode_help_request
              (mkInterp (Resolved tt) (Resolved result_two) (Resolved tt)
                 (Rejected (js "no network")))
              (js "?mean") (js "mean") ready_state
              eq_refl eq_refl eq_refl))))).
Defined.

(** X12.  The controls are blocked exactly while an evaluation is
    suspended.  For a run that gets past the guard and the help test: in
    the state at the first suspension the lock is held, the run button is
    disabled, the console input is read-only and the status is loading
    with the text [Running...]; when the run resolves, whichever way the
    interpreter answered and whatever the status was before, the lock is
    free, the button enabled, the input writable and the status ready with
    the text [Ready]. *)
Theorem run_blocks_then_restores_controls
    (io : Interp) (code : jsstring) (st : State) :
  isRunning st = false -> webR st = true -> code <> [] ->
  helpTopicMatch code = None ->
  (isRunning (runCode_begin code st) = true
   /\ runBtnDisabled (runCode_begin code st) = true
   /\ consoleReadOnly (runCode_begin code st) = true
   /\ status (runCode_begin code st) = Some (loading, js "Running..."))
  /\ (isRunning (runCode io code st) = false
      /\ runBtnDisabled (runCode io code st) = false
      /\ consoleReadOnly (runCode io code st) = false
      /\ status (runCode io code st) = Some (ready, js "Ready")
      /\ isReady (runCode io code st) = true).
Proof.
  intros Hlock Hweb Hcode Hhelp. split.
  - unfold runCode_begin.
    rewrite (forEach_echo_proj isRunning) by (intros; by_fields).
    rewrite (forEach_echo_proj runBtnDisabled) by (intros; by_fields).
    rewrite (forEach_echo_proj consoleReadOnly) by (intros; by_fields).
    rewrite (forEach_echo_proj status) by (intros; by_fields).
    by_fields. now repeat split.
  - rewrite runCode_evaluates by assumption.
    generalize (fst (runCode_try io code (runCode_begin code st))).
    intro s. by_fields. now repeat split.
Qed.

Lemma run_blocks_then_restores_controls_witness :
  isReady failed_state = false
  /\ isReady (runCode io_not_found (js "x") failed_state) = true.
Proof.
  split; [reflexivity|].
  apply (run_blocks_then_restores_controls io_not_found (js "x")
           failed_state eq_refl eq_refl ltac:(discriminate) eq_refl).
Defined.

Lemma split_lf_cons (s : jsstring) :
  exists first rest, split_lf s = first :: rest.
Proof.
  induction s as [|c s (first & rest & IH)]; cbn.
  - now exists [], [].
  - destruct (c =? 10)%N; [now exists [], (split_lf s)|].
    rewrite IH. now exists (c :: first), rest.
Qed.

Lemma join_split_lf (s : jsstring) : join_lf (split_lf s) = s.
Proof.
  induction s as [|c s IH]; [reflexivity|]. cbn [split_lf].
  destruct (split_lf_cons s) as (first & rest & Hs).
  destruct (N.eqb_spec c 10) as [->|Hc].
  - rewrite Hs in *. cbn [join_lf app]. cbn [join_lf] in IH.
    now rewrite IH.
  - rewrite Hs in *. destruct rest as [|l rest]; cbn [join_lf app] in *;
      now rewrite IH.
Qed.

Lemma split_lf_no_lf (s : jsstring) :
  Forall (fun line => ~ In 10%N line) (split_lf s).
Proof.
  induction s as [|c s IH]; cbn [split_lf].
  - repeat constructor. intros [].
  - destruct (N.eqb_spec c 10) as [->|Hc].
    + constructor; [intros []|exact IH].
    + destruct (split_lf s) as [|l ls];
        [repeat constructor; intros [H|[]]; congruence|].
      inversion IH as [|? ? Hl Hls]; subst. constructor; [|exact Hls].
      intros [H|H]; [congruence | now apply Hl].
Qed.

Lemma split_lf_length (s : jsstring) :
  List.length (split_lf s) = S (count_occ N.eq_dec s 10%N).
Proof.
  induction s as [|c s IH]; [reflexivity|]. cbn [split_lf count_occ].
  destruct (N.eqb_spec c 10) as [->|Hc].
  - destruct (N.eq_dec 10 10); [|congruence]. cbn. now rewrite IH.
  - destruct (N.eq_dec c 10); [congruence|].
    destruct (split_lf s); cbn in *; [discriminate | exact IH].
Qed.

(** X13.  The echo shows the submitted code line by line and loses
    nothing: it has one command line per line of the code, that is one
    more than the code has line feeds, the first one after [> ] and the
    others after [+ ]; no echoed line contains a line feed, and the lines
    joined by line feeds are the code. *)
Theorem echo_reproduces_code (code : jsstring) :
  exists first rest,
    split_lf code = first :: rest
    /\ echo code
       = mkLine (js "> " ++ first) command
         :: map (fun line => mkLine (js "+ " ++ line) command) rest
    /\ join_lf (first :: rest) = code
    /\ Forall (fun line => ~ In 10%N line) (first :: rest)
    /\ List.length (echo code) = S (count_occ N.eq_dec code 10%N)
    /\ (forall st,
          consoleOutput (runCode_begin code st)
          = consoleOutput st ++ echo code).
Proof.
  destruct (split_lf_cons code) as (first & rest & Hs).
  exists first, rest. split; [exact Hs|].
  split; [unfold echo; now rewrite Hs|].
  split; [rewrite <- Hs; apply join_split_lf|].
  split; [rewrite <- Hs; apply split_lf_no_lf|].
  split.
  - unfold echo. rewrite <- split_lf_length, Hs. cbn.
    now rewrite length_map.
  - intro st. apply runCode_begin_spec.
Qed.

(** ** Further properties: the start of the session *)

(** X14.  How the start ends.  [initWebR] creates the interpreter object
    whatever happens next, and sends its four requests in order up to and
    including the first one that is rejected, and none after it.  When
    the four awaited calls resolve, the session is ready: status ready,
    run button enabled, console input writable, the console showing the
    four lines of the installation.  When one is rejected, the status is
    error with the text [Initialization failed], the last line of the
    console is the message of the rejection after [Error: ], and the run
    button and the console input stay as they were. *)
Theorem initWebR_outcome (boot : Boot) (st : State) :
  webR (initWebR boot st) = true
  /\ isRunning (initWebR boot st) = isRunning st
  /\ (isReady (initWebR boot st) = true <-> boot_error boot = None)
  /\ webRcalls (initWebR boot st)
     = webRcalls st
       ++ match on_init boot, on_options boot, on_install boot with
          | Rejected _, _, _ => [CallInit]
          | Resolved _, Rejected _, _ => [CallInit; CallEvalR 0]
          | Resolved _, Resolved _, Rejected _ =>
              [CallInit; CallEvalR 0; CallEvalR 1]
          | Resolved _, Resolved _, Resolved _ =>
              [CallInit; CallEvalR 0; CallEvalR 1; CallEvalR 2]
          end
  /\ match boot_error boot with
     | None =>
         status (initWebR boot st) = Some (ready, js "Ready")
         /\ runBtnDisabled (initWebR boot st) = false
         /\ consoleReadOnly (initWebR boot st) = false
         /\ consoleOutput (initWebR boot st)
            = [mkLine (js "Installing animovement package...") system;
               mkLine (js "Loading animovement...") system;
               mkLine (js "Ready! animovement is loaded.") system;
               mkLine [] system]
     | Some message =>
         status (initWebR boot st)
         = Some (error, js "Initialization failed")
         /\ runBtnDisabled (initWebR boot st) = runBtnDisabled st
         /\ consoleReadOnly (initWebR boot st) = consoleReadOnly st
         /\ consoleOutput (initWebR boot st)
            = match on_init boot, on_options boot, on_install boot with
              | Resolved _, Resolved _, Rejected _ =>
                  [mkLine (js "Installing animovement package...") system;
                   error_line message]
              | Resolved _, Resolved _, Resolved _ =>
                  [mkLine (js "Installing animovement package...") system;
                   mkLine (js "Loading animovement...") system;
                   error_line message]
              | _, _, _ => consoleOutput st ++ [error_line message]
              end
     end.
Proof.
  destruct boot as [[[]|e1] [[]|e2] [[]|e3] [[]|e4]]; destruct st;
    unfold boot_error, isReady, initWebR; cbn;
    (split; [reflexivity|]); (split; [reflexivity|]);
    (split; [split; congruence|]);
    (split; [rewrite <- ?app_assoc; reflexivity|]);
    repeat split; reflexivity.
Qed.

Lemma initWebR_outcome_witness :
  isReady failed_state = false
  /\ status failed_state = Some (error, js "Initialization failed")
  /\ webRcalls failed_state = [CallInit; CallEvalR 0; CallEvalR 1]
  /\ consoleOutput failed_state
     = [mkLine (js "Installing animovement package...") system;
        error_line (js "download failed")].
Proof.
  pose proof (initWebR_outcome boot_failed (loaded sample_editor))
    as (_ & _ & Hready & Hcalls & Hstatus & _ & _ & Hout).
  split; [|split; [exact Hstatus | split; [exact Hcalls | exact Hout]]].
  destruct (isReady failed_state) eqn:E; [|reflexivity].
  discriminate (proj1 Hready E).
Defined.

Lemma initWebR_isRunning (boot : Boot) (st : State) :
  isRunning (initWebR boot st) = isRunning st.
Proof.
  destruct boot as [[[]|e1] [[]|e2] [[]|e3] [[]|e4]]; destruct st;
    reflexivity.
Qed.

Lemma initWebR_calls (boot : Boot) (st : State) :
  exists k,
    webRcalls (initWebR boot st)
    = webRcalls st
      ++ firstn k [CallInit; CallEvalR 0; CallEvalR 1; CallEvalR 2].
Proof.
  destruct boot as [[[]|e1] [[]|e2] [[]|e3] [[]|e4]]; destruct st;
    unfold initWebR; cbn;
    first [ exists 1%nat; rewrite <- ?app_assoc; reflexivity
          | exists 2%nat; rewrite <- ?app_assoc; reflexivity
          | exists 3%nat; rewrite <- ?app_assoc; reflexivity
          | exists 4%nat; rewrite <- ?app_assoc; reflexivity ].
Qed.

Lemma initWebR_unreleased (boot : Boot) (st : State) :
  unreleased (webRcalls (initWebR boot st)) = unreleased (webRcalls st).
Proof.
  destruct (initWebR_calls boot st) as (k & ->).
  rewrite unreleased_app.
  destruct k as [|[|[|[|[|k]]]]]; cbn; lia.
Qed.

Lemma step_keeps_unlocked (st : State) (ev : Event) :
  isRunning st = false -> isRunning (step st ev) = false.
Proof.
  intro H. destruct ev; cbn; try (rewrite <- H; by_fields; fail).
  - destruct (consoleReadOnly st); [exact H | rewrite <- H; by_fields].
  - unfold handleConsoleEnter. destruct (truthy _); [|exact H].
    apply runCode_keeps_unlocked. rewrite <- H. by_fields.
  - unfold handleConsoleUp, setValue_history. destruct (_ <? _); [|exact H].
    destruct (index _ _); rewrite <- H; by_fields.
  - unfold handleConsoleDown, setValue_history. destruct (_ >? _).
    + destruct (index _ _); rewrite <- H; by_fields.
    + destruct (_ =? _); [rewrite <- H; by_fields | exact H].
  - destruct (editor st); [rewrite <- H; by_fields | exact H].
  - unfold runFromEditor. destruct (editor st) as [ed|]; [|exact H].
    destruct (truthy (ed_selection ed)).
    + destruct (truthy _); [now apply runCode_keeps_unlocked | exact H].
    + set (st1 := if _ <? _ then _ else st).
      assert (H1 : isRunning st1 = false).
      { subst st1. destruct (_ <? _); [rewrite <- H; by_fields | exact H]. }
      destruct (truthy _); [now apply runCode_keeps_unlocked | exact H1].
  - unfold plotPrev_click. destruct (_ >? _); [rewrite <- H; by_fields|exact H].
  - unfold plotNext_click. destruct (_ <? _); [rewrite <- H; by_fields|exact H].
  - unfold keydown. destruct inEditor; [exact H|].
    destruct key; try exact H; destruct (_ && _); try exact H;
      rewrite <- H; by_fields.
Qed.

(** X15.  Between two events of a session no evaluation is in flight and
    no evaluation context is left: in every state reached by the start and
    any events, each handler having run to its end, the lock is free and
    every context acquired has been purged. *)
Theorem session_rests_unlocked (st : State) :
  reachable st ->
  isRunning st = false /\ unreleased (webRcalls st) = 0.
Proof.
  induction 1 as [ed|boot st _ [IH1 IH2]|ev st _ [IH1 IH2]].
  - split; reflexivity.
  - split.
    + now rewrite initWebR_isRunning.
    + now rewrite initWebR_unreleased.
  - split; [now apply step_keeps_unlocked|].
    now rewrite step_unreleased.
Qed.

Lemma session_rests_unlocked_witness :
  isRunning (step failed_state (EditorRun io_purge_rejected)) = false
  /\ unreleased
       (webRcalls (step failed_state (EditorRun io_purge_rejected))) = 0.
Proof.
  apply session_rests_unlocked.
  apply reach_step, reach_boot, reach_loaded.
Defined.

Lemma jsstring_eqb_eq (a b : jsstring) : jsstring_eqb a b = true <-> a = b.
Proof.
  revert b. induction a as [|x a IH]; intros [|y b]; cbn;
    try (split; [discriminate | discriminate]); [now split|].
  rewrite andb_true_iff, N.eqb_eq, IH. split.
  - now intros [-> ->].
  - intros [= -> ->]. now split.
Qed.

(** X16.  What the loop over the output shows of one record: at most one
    line, always the text of the record as it is; the class [stdout] only
    for a record of type [stdout], the class [stderr] for the types
    [stderr] and [message]; and nothing at all, the state being left as it
    is, for a record of any other type. *)
Theorem route_by_type (out : OutputRecord) (st : State) :
  (routed out = []
   \/ (routed out = [mkLine (out_data out) stdout]
       /\ out_type out = js "stdout")
   \/ (routed out = [mkLine (out_data out) stderr]
       /\ (out_type out = js "stderr" \/ out_type out = js "message")))
  /\ (out_type out <> js "stdout" ->
      out_type out <> js "stderr" ->
      out_type out <> js "message" ->
      route out st = st)
  /\ (blank (out_data out) = true ->
      out_type out <> js "message" ->
      route out st = st).
Proof.
  split; [|split].
  - rewrite routed_cases.
    destruct (jsstring_eqb (out_type out) (js "stdout")) eqn:E1.
    + apply jsstring_eqb_eq in E1.
      destruct (truthy (trim (out_data out))); cbn [andb].
      * right; left. now split.
      * rewrite E1. now left.
    + cbn [andb].
      destruct (jsstring_eqb (out_type out) (js "stderr")) eqn:E2.
      * apply jsstring_eqb_eq in E2.
        destruct (truthy (trim (out_data out))); cbn [andb].
        -- right; right. split; [reflexivity | now left].
        -- rewrite E2. now left.
      * cbn [andb].
        destruct (jsstring_eqb (out_type out) (js "message")) eqn:E3.
        -- apply jsstring_eqb_eq in E3. right; right.
           split; [reflexivity | now right].
        -- now left.
  - intros H1 H2 H3. unfold route.
    destruct (jsstring_eqb (out_type out) (js "stdout")) eqn:E1;
      [apply jsstring_eqb_eq in E1; contradiction|].
    destruct (jsstring_eqb (out_type out) (js "stderr")) eqn:E2;
      [apply jsstring_eqb_eq in E2; contradiction|].
    destruct (jsstring_eqb (out_type out) (js "message")) eqn:E3;
      [apply jsstring_eqb_eq in E3; contradiction|].
    reflexivity.
  - intros Hb H3. unfold route. rewrite (blank_trim _ Hb), !andb_false_r.
    destruct (jsstring_eqb (out_type out) (js "message")) eqn:E3;
      [apply jsstring_eqb_eq in E3; contradiction | reflexivity].
Qed.

Lemma route_by_type_witness :
  route (mkOut (js "warning") (js "NaNs produced")) ready_state
  = ready_state.
Proof.
  apply (proj1 (proj2 (route_by_type
                         (mkOut (js "warning") (js "NaNs produced"))
                         ready_state))); discriminate.
Defined.

(** ** Further properties: running from the editor *)

#[local] Instance editor_stable (e : option Editor) :
  RunnerStable (fun st => editor st = e).
Proof. split; intros; by_fields. Qed.

Lemma runCode_editor (io : Interp) (code : jsstring) (st : State) :
  editor (runCode io code st) = editor st.
Proof.
  now apply (stable_runCode _ (stable := editor_stable (editor st))).
Qed.

Lemma runFromEditor_line (io : Interp) (st : State)
    (lines : list jsstring) (c : nat) :
  editor st = Some (mkEditor [] lines c) ->
  (c < List.length lines)%nat ->
  editor (runFromEditor io st)
  = Some (mkEditor [] lines (Nat.min (c + 1) (List.length lines - 1))).
Proof.
  intros He Hc. unfold runFromEditor. rewrite He.
  cbn [ed_selection truthy ed_lines ed_cursorLine].
  set (st1 := if _ <? _ then _ else st).
  assert (H1 : editor st1
               = Some (mkEditor [] lines
                         (Nat.min (c + 1) (List.length lines - 1)))).
  { subst st1. unfold zlength.
    destruct (Z.ltb_spec (Z.of_nat c) (Z.of_nat (List.length lines) - 1)).
    - replace (Nat.min (c + 1) (List.length lines - 1)) with (S c) by lia.
      by_fields.
    - replace (Nat.min (c + 1) (List.length lines - 1)) with c by lia.
      exact He. }
  destruct (truthy _); [|exact H1].
  now rewrite runCode_editor.
Qed.

(** X17.  Stepping through the editor.  Without a selection each press of
    the run key moves the cursor one line down and stops at the last line:
    after [k] presses from line [c] of [n] lines the cursor is on line
    [min (c + k) (n - 1)], and the lines themselves are never changed.
    With a selection the editor is left as it is. *)
Theorem editor_runs_step_down :
  (forall ios st lines c,
     editor st = Some (mkEditor [] lines c) ->
     (c < List.length lines)%nat ->
     editor (editor_runs ios st)
     = Some (mkEditor [] lines
               (Nat.min (c + List.length ios) (List.length lines - 1))))
  /\ (forall io st ed,
        editor st = Some ed ->
        ed_selection ed <> [] ->
        editor (runFromEditor io st) = Some ed).
Proof.
  split.
  - intros ios. induction ios as [|io ios IH]; intros st lines c He Hc.
    + cbn. rewrite He. do 2 f_equal. lia.
    + cbn [editor_runs fold_left List.length].
      fold (editor_runs ios (runFromEditor io st)).
      rewrite (IH _ lines (Nat.min (c + 1) (List.length lines - 1))).
      * do 2 f_equal. lia.
      * now apply runFromEditor_line.
      * lia.
  - intros io st ed He Hs. unfold runFromEditor. rewrite He.
    apply truthy_true in Hs. rewrite Hs.
    destruct (truthy (trim (ed_selection ed))); [|exact He].
    now rewrite runCode_editor.
Qed.

Lemma editor_runs_step_down_witness :
  editor
    (editor_runs [io_two; io_two; io_two]
       (set_editor (Some (mkEditor [] [js "a"; js "b"] 0)) ready_state))
  = Some (mkEditor [] [js "a"; js "b"] 1).
Proof.
  exact (proj1 editor_runs_step_down [io_two; io_two; io_two]
           (set_editor (Some (mkEditor [] [js "a"; js "b"] 0)) ready_state)
           [js "a"; js "b"] 0%nat eq_refl (le_S 1 1 (le_n 1))).
Defined.

(** ** The matcher with flags *)

Section Inversion.
Context {R : Type}.
Variables (m : bool) (b : option N).
Implicit Types (k : @Re.cont R) (acc s : jsstring) (cap : option jsstring).

Lemma run_star_inv (p : N -> bool) acc s cap k (x : R) :
  Re.star p acc s cap k = Some x ->
  exists w s',
    s = w ++ s' /\ forallb p w = true /\ k (rev w ++ acc) s' cap = Some x.
Proof.
  revert acc. induction s as [|c s IH]; intros acc H; cbn [Re.star] in H.
  - now exists [], [].
  - destruct (p c) eqn:Ec.
    + destruct (Re.star p (c :: acc) s cap k) as [y|] eqn:Es.
      * injection H as ->. destruct (IH _ Es) as (w & s' & -> & Hw & Hk).
        exists (c :: w), s'. cbn. rewrite Ec, Hw, <- app_assoc.
        now repeat split.
      * now exists [], (c :: s).
    + now exists [], (c :: s).
Qed.

Lemma run_plus_inv (p : N -> bool) acc s cap k (x : R) :
  Re.run m b (Re.Plus p) acc s cap k = Some x ->
  exists w s',
    s = w ++ s' /\ w <> [] /\ forallb p w = true
    /\ k (rev w ++ acc) s' cap = Some x.
Proof.
  cbn [Re.run]. destruct s as [|c s]; [discriminate|].
  destruct (p c) eqn:Ec; [|discriminate]. intro H.
  destruct (run_star_inv _ _ _ _ _ _ H) as (w & s' & -> & Hw & Hk).
  exists (c :: w), s'. cbn. rewrite Ec, Hw, <- app_assoc.
  repeat split; trivial. discriminate.
Qed.

Lemma run_class_inv (p : N -> bool) acc s cap k (x : R) :
  Re.run m b (Re.Class p) acc s cap k = Some x ->
  exists c s', s = c :: s' /\ p c = true /\ k (c :: acc) s' cap = Some x.
Proof.
  cbn [Re.run]. destruct s as [|c s]; [discriminate|].
  destruct (p c) eqn:Ec; [|discriminate]. intro H. now exists c, s.
Qed.

Lemma run_bol_inv acc s cap k (x : R) :
  Re.run m b Re.Bol acc s cap k = Some x ->
  Re.at_bol m b acc = true /\ k acc s cap = Some x.
Proof.
  cbn [Re.run]. destruct (Re.at_bol m b acc); [now split | discriminate].
Qed.

Lemma run_eol_inv acc s cap k (x : R) :
  Re.run m b Re.Eol acc s cap k = Some x ->
  Re.at_eol m s = true /\ k acc s cap = Some x.
Proof.
  cbn [Re.run]. destruct (Re.at_eol m s); [now split | discriminate].
Qed.

(** A star whose continuation always succeeds takes the longest run. *)
Lemma run_star_final (p : N -> bool)
    (F : jsstring -> jsstring -> option jsstring -> R) acc s cap :
  Re.star p acc s cap (fun acc' s' cap' => Some (F acc' s' cap'))
  = Some (F (rev (fst (span p s)) ++ acc) (snd (span p s)) cap).
Proof.
  revert acc. induction s as [|c s IH]; intro acc; cbn [Re.star span].
  - reflexivity.
  - destruct (p c); [|reflexivity].
    rewrite IH. destruct (span p s) as [u v]. cbn [fst snd rev].
    now rewrite <- app_assoc.
Qed.

Lemma run_alt_inv (r1 r2 : Re.t) acc s cap k (x : R) :
  Re.run m b (Re.Alt r1 r2) acc s cap k = Some x ->
  Re.run m b r1 acc s cap k = Some x \/ Re.run m b r2 acc s cap k = Some x.
Proof.
  cbn [Re.run]. destruct (Re.run m b r1 acc s cap k); [now left | now right].
Qed.

Lemma run_seq (r1 r2 : Re.t) acc s cap k :
  Re.run m b (Re.Seq r1 r2) acc s cap k
  = Re.run m b r1 acc s cap
      (fun acc' s' cap' => Re.run m b r2 acc' s' cap' k).
Proof. reflexivity. Qed.

Lemma run_group (r : Re.t) acc s cap k :
  Re.run m b (Re.Group r) acc s cap k
  = Re.run m b r acc s cap
      (fun acc' s' _ =>
         k acc' s'
           (Some (rev (firstn (List.length acc' - List.length acc) acc')))).
Proof. reflexivity. Qed.
End Inversion.

Lemma last_cons_default {A : Type} (l : list A) (x d : A) :
  last (x :: l) d = last l x.
Proof.
  revert x d. induction l as [|y l IH]; intros x d; [reflexivity|].
  change (last (x :: y :: l) d) with (last (y :: l) d).
  rewrite IH. symmetry. apply IH.
Qed.

Lemma test_true_iff (m : bool) (r : Re.t) (s : jsstring) :
  Re.test m r s = true <->
  exists pre suf,
    s = pre ++ suf
    /\ Re.exec_at m r (last (map Some pre) None) suf <> None.
Proof.
  unfold Re.test.
  assert (H : forall bf,
    (exists found, Re.search m r bf s = Some found) <->
    exists pre suf,
      s = pre ++ suf
      /\ Re.exec_at m r (last (map Some pre) bf) suf <> None).
  { induction s as [|c s IH]; intro bf; cbn [Re.search].
    - split.
      + intros [found H].
        destruct (Re.exec_at m r bf []) eqn:E; [|discriminate].
        exists [], []. cbn. rewrite E. split; [reflexivity | discriminate].
      + intros (pre & suf & Hs & He).
        symmetry in Hs. apply app_eq_nil in Hs as [-> ->]. cbn in He.
        destruct (Re.exec_at m r bf []); [eauto | congruence].
    - split.
      + intros [found H].
        destruct (Re.exec_at m r bf (c :: s)) eqn:E.
        * exists [], (c :: s). cbn. rewrite E.
          split; [reflexivity | discriminate].
        * destruct (Re.search m r (Some c) s) as [[sk mt]|] eqn:Es;
            [|discriminate].
          destruct (proj1 (IH (Some c))) as (pre & suf & -> & He); [eauto|].
          exists (c :: pre), suf. split; [reflexivity|].
          cbn [map]. now rewrite last_cons_default.
      + intros (pre & suf & Hs & He).
        destruct (Re.exec_at m r bf (c :: s)) eqn:E; [eauto|].
        destruct pre as [|c' pre].
        * cbn in Hs, He. subst suf. congruence.
        * injection Hs as <- ->.
          destruct (proj2 (IH (Some c))) as [[sk mt] Hf].
          { exists pre, suf. split; [reflexivity|].
            cbn [map] in He. now rewrite last_cons_default in He. }
          rewrite Hf. eauto. }
  specialize (H None). destruct (Re.search m r None s).
  - split; [intros _; apply H; eauto | reflexivity].
  - split; [discriminate|]. intro H'. apply H in H' as [found H'].
    discriminate.
Qed.

(** ** Automatic indentation *)

Lemma search_indent (s : jsstring) :
  match0 (Re.search false re_indent None s) = fst (span isTrimmed s).
Proof.
  assert (H : Re.exec_at false re_indent None s
              = Some (Re.mkMatch (fst (span isTrimmed s)) None
                        (snd (span isTrimmed s)))).
  { unfold Re.exec_at, re_indent. cbn [Re.run Re.at_bol Re.previous].
    rewrite (run_star_final isTrimmed
               (fun acc s' cap => Re.mkMatch (rev acc) cap s')).
    now rewrite app_nil_r, rev_involutive. }
  destruct s as [|c s]; cbn [Re.search]; now rewrite H.
Qed.

Lemma exec_continues (bf : option N) (s : jsstring) :
  Re.exec_at false re_continues bf s <> None <-> In s continuation_tokens.
Proof.
  split.
  - destruct (Re.exec_at false re_continues bf s) as [mt|] eqn:E;
      [intros _ | congruence].
    unfold Re.exec_at, re_continues in E.
    cbn [Re.run Re.lits Re.lit Re.at_eol andb] in E.
    repeat match type of E with
           | (match ?a with Some _ => _ | None => _ end) = Some _ =>
               let Ea := fresh "Ea" in
               destruct a eqn:Ea; [clear E; rename Ea into E|]
           end;
    repeat match goal with
           | H : (match ?s with [] => None | _ :: _ => _ end) = Some _ |- _ =>
               destruct s; [discriminate H|]
           | H : (if ?c then _ else None) = Some _ |- _ =>
               let Ec := fresh "Ec" in
               destruct c eqn:Ec; [|discriminate H]
           | H : (N_of_ascii _ =? _)%N = true |- _ =>
               apply N.eqb_eq in H; cbn in H; subst
           | H : (match ?s with [] => _ | _ :: _ => _ end) = Some _ |- _ =>
               destruct s; [|discriminate H]
           end;
    repeat match goal with
           | H : Re.at_eol false ?s = true |- _ =>
               destruct s; [clear H | discriminate H]
           end;
    cbn; tauto.
  - unfold continuation_tokens. cbn [In].
    intros [<- | [<- | [<- | [<- | [<- | [<- | [<- | []]]]]]]];
      vm_compute; discriminate.
Qed.

Lemma span_prefix_trimStart (s : jsstring) :
  s = fst (span isTrimmed s) ++ trimStart s
  /\ forallb isTrimmed (fst (span isTrimmed s)) = true.
Proof.
  induction s as [|c s [IH1 IH2]]; cbn [span trimStart]; [now split|].
  destruct (isTrimmed c) eqn:E; [|now split].
  destruct (span isTrimmed s) as [u v]. cbn [fst] in *.
  split; [cbn; now f_equal | cbn; now rewrite E].
Qed.

(** X18.  The indentation the Enter key adds in the editor.  It is read
    off the line above the cursor line: it is the leading white space of
    that line, followed by two more spaces exactly when that line, its
    trailing white space removed, ends with one of the tokens [|>], [%>%],
    [+], [{], [(], [[] and [,].  It consists of white space only, and it
    is empty on the first line. *)
Theorem rAutoIndent_indentation (ed : Editor) :
  exists indent,
    prevLine_of ed = indent ++ trimStart (prevLine_of ed)
    /\ forallb isTrimmed indent = true
    /\ (rAutoIndent ed = indent \/ rAutoIndent ed = indent ++ js "  ")
    /\ (rAutoIndent ed = indent ++ js "  " <->
        exists before token,
          trimEnd (prevLine_of ed) = before ++ token
          /\ In token continuation_tokens)
    /\ forallb isTrimmed (rAutoIndent ed) = true
    /\ (ed_cursorLine ed = 0%nat -> rAutoIndent ed = []).
Proof.
  exists (fst (span isTrimmed (prevLine_of ed))).
  destruct (span_prefix_trimStart (prevLine_of ed)) as [Hsplit Hws].
  split; [exact Hsplit|]. split; [exact Hws|].
  unfold rAutoIndent. rewrite search_indent.
  set (indent := fst (span isTrimmed (prevLine_of ed))) in *.
  assert (Htest : Re.test false re_continues (trimEnd (prevLine_of ed)) = true
                  <-> exists before token,
                        trimEnd (prevLine_of ed) = before ++ token
                        /\ In token continuation_tokens).
  { rewrite test_true_iff. split.
    - intros (pre & suf & Hs & He). exists pre, suf.
      split; [exact Hs | now apply exec_continues in He].
    - intros (pre & suf & Hs & Hin). exists pre, suf.
      split; [exact Hs | now apply exec_continues]. }
  destruct (Re.test false re_continues (trimEnd (prevLine_of ed))) eqn:E.
  - split; [now right|].
    split; [split; [intros _; now apply Htest | reflexivity]|].
    split; [now rewrite forallb_app, Hws|].
    intro H0. unfold prevLine_of in E. rewrite H0 in E. discriminate E.
  - split; [now left|]. split.
    + split; [|intro H; apply Htest in H; discriminate H].
      intro H. apply (f_equal (@List.length N)) in H.
      rewrite length_app in H. cbn in H. lia.
    + split; [exact Hws|]. intro H0. subst indent.
      unfold prevLine_of. now rewrite H0.
Qed.

Lemma rAutoIndent_indentation_witness :
  rAutoIndent (mkEditor [] [js "  x |>  "; js "y"] 1) = js "    ".
Proof.
  destruct (rAutoIndent_indentation (mkEditor [] [js "  x |>  "; js "y"] 1))
    as (indent & Hsplit & _ & _ & Hiff & _).
  assert (Hi : indent = js "  ").
  { apply (app_inv_tail (trimStart (js "  x |>  "))). symmetry.
    exact Hsplit. }
  subst indent. apply Hiff.
  exists (js "  x "), (js "|>"). split; [reflexivity|]. now left.
Defined.

(** ** The markup of the help panel *)

Lemma replace_class (m : bool) (p : N -> bool) (t : jsstring)
    (bf : option N) (s : jsstring) :
  Re.replace_from m (Re.Class p) [Re.Text t] bf s 0
  = flat_map (fun c => if p c then t else [c]) s.
Proof.
  revert bf. induction s as [|c s IH]; intro bf; [reflexivity|].
  cbn [Re.replace_from Re.exec_at Re.run flat_map].
  destruct (p c).
  - cbn [Re.matched rev app List.length Re.expand flat_map].
    now rewrite app_nil_r, IH.
  - now rewrite IH.
Qed.

Lemma flat_map_flat_map {A B C : Type} (f : A -> list B) (g : B -> list C)
    (l : list A) :
  flat_map g (flat_map f l) = flat_map (fun x => flat_map g (f x)) l.
Proof.
  induction l as [|x l IH]; [reflexivity|]. cbn.
  now rewrite flat_map_app, IH.
Qed.

Lemma escapeHelp_chars (text : jsstring) :
  escapeHelp text = flat_map escape_char text.
Proof.
  unfold escapeHelp, Re.replace_all, Re.lit.
  rewrite !replace_class, !flat_map_flat_map.
  apply flat_map_ext. intro c.
  change (N_of_ascii "&") with 38%N. change (N_of_ascii "<") with 60%N.
  change (N_of_ascii ">") with 62%N. unfold escape_char.
  rewrite (N.eqb_sym c 38), (N.eqb_sym c 60), (N.eqb_sym c 62).
  destruct (N.eqb_spec 38 c) as [<-|H1]; [reflexivity|].
  cbn [flat_map app].
  destruct (N.eqb_spec 60 c) as [<-|H2]; [reflexivity|].
  cbn [flat_map app].
  destruct (N.eqb_spec 62 c) as [<-|H3]; reflexivity.
Qed.

Lemma escape_char_free (c x : N) :
  In x (escape_char c) -> x <> 60%N /\ x <> 62%N /\ x <> 95%N /\ x <> 58%N
                          \/ x = c.
Proof.
  unfold escape_char.
  destruct (N.eqb_spec c 38); [|destruct (N.eqb_spec c 60);
    [|destruct (N.eqb_spec c 62)]]; cbn;
    intros H;
    repeat (destruct H as [<-|H]; [left; repeat split; discriminate|]);
    try contradiction.
  destruct H as [<-|[]]. now right.
Qed.

Lemma escape_free (text : jsstring) (x : N) :
  In x (flat_map escape_char text) ->
  (x <> 60%N /\ x <> 62%N)
  /\ (x = 95%N \/ x = 58%N -> In x text).
Proof.
  intro H. apply in_flat_map in H as (c & Hc & Hx).
  destruct (escape_char_free c x Hx) as [(H1 & H2 & H3 & H4) | ->].
  - split; [now split|]. intros [-> | ->]; congruence.
  - split.
    + unfold escape_char in Hx.
      destruct (N.eqb_spec c 38) as [->|]; [split; discriminate|].
      destruct (N.eqb_spec c 60) as [->|];
        [cbn in Hx; repeat (destruct Hx as [Hx|Hx]; [discriminate Hx|]);
         contradiction|].
      destruct (N.eqb_spec c 62) as [->|];
        [cbn in Hx; repeat (destruct Hx as [Hx|Hx]; [discriminate Hx|]);
         contradiction|].
      now split.
    + intros _. exact Hc.
Qed.

Lemma escape_char_cons (c : N) :
  exists x t, escape_char c = x :: t
              /\ (c <> 38%N -> c <> 60%N -> c <> 62%N -> x = c /\ t = []).
Proof.
  unfold escape_char.
  destruct (N.eqb_spec c 38); [eexists _, _; split; [reflexivity | tauto]|].
  destruct (N.eqb_spec c 60); [eexists _, _; split; [reflexivity | tauto]|].
  destruct (N.eqb_spec c 62); [eexists _, _; split; [reflexivity | tauto]|].
  eexists _, _. split; [reflexivity | now split].
Qed.

Lemma escape_injective (s1 s2 : jsstring) :
  flat_map escape_char s1 = flat_map escape_char s2 -> s1 = s2.
Proof.
  revert s2. induction s1 as [|c1 s1 IH]; intros [|c2 s2] H.
  - reflexivity.
  - cbn in H. destruct (escape_char_cons c2) as (x & t & E & _).
    rewrite E in H. discriminate H.
  - cbn in H. destruct (escape_char_cons c1) as (x & t & E & _).
    rewrite E in H. discriminate H.
  - cbn [flat_map] in H.
    assert (Hc : c1 = c2 /\ flat_map escape_char s1 = flat_map escape_char s2).
    { unfold escape_char in H.
      destruct (N.eqb_spec c1 38) as [->|A1];
        [|destruct (N.eqb_spec c1 60) as [->|A2];
          [|destruct (N.eqb_spec c1 62) as [->|A3]]];
      (destruct (N.eqb_spec c2 38) as [->|B1];
        [|destruct (N.eqb_spec c2 60) as [->|B2];
          [|destruct (N.eqb_spec c2 62) as [->|B3]]]);
      cbn in H; try discriminate H;
      inversion H; subst; try congruence; now split. }
    destruct Hc as [-> Hc]. f_equal. now apply IH.
Qed.

(** X19.  The three replacements that escape.  Together they map each
    code unit on its own: [&], [<] and [>] become [&amp;], [&lt;] and
    [&gt;], any other one stays.  The escaped text contains neither [<] nor
    [>], and two different texts have different escaped texts. *)
Theorem escapeHelp_escapes (text : jsstring) :
  escapeHelp text = flat_map escape_char text
  /\ ~ In 60%N (escapeHelp text)
  /\ ~ In 62%N (escapeHelp text)
  /\ (forall text', escapeHelp text' = escapeHelp text -> text' = text).
Proof.
  rewrite escapeHelp_chars. repeat split.
  - intro H. now apply escape_free in H as [[H _] _].
  - intro H. now apply escape_free in H as [[_ H] _].
  - intros text' H. rewrite escapeHelp_chars in H. now apply escape_injective.
Qed.

Lemma firstn_rev_app (w acc : jsstring) :
  rev (firstn (List.length (rev w ++ acc) - List.length acc) (rev w ++ acc))
  = w.
Proof.
  rewrite length_app, Nat.add_sub, firstn_app, Nat.sub_diag, firstn_all.
  cbn [firstn]. now rewrite app_nil_r, rev_involutive.
Qed.

Lemma exec_underlined_inv (bf : option N) (s : jsstring) (mt : Re.Match) :
  Re.exec_at true re_underlined bf s = Some mt ->
  exists g,
    s = 95%N :: g ++ 95%N :: Re.rest mt
    /\ Re.matched mt = 95%N :: g ++ [95%N]
    /\ Re.group1 mt = Some g.
Proof.
  unfold Re.exec_at, re_underlined. rewrite run_seq. intro H.
  apply run_bol_inv in H as [_ H]. rewrite run_seq in H.
  apply run_class_inv in H as (c & s1 & -> & Hc & H).
  apply N.eqb_eq in Hc. cbn in Hc. subst c.
  rewrite run_seq, run_group in H.
  apply run_plus_inv in H as (w & s2 & -> & Hw & _ & H).
  rewrite run_seq in H.
  apply run_class_inv in H as (c & s3 & -> & Hc & H).
  apply N.eqb_eq in Hc. cbn in Hc. subst c.
  apply run_eol_inv in H as [_ H].
  injection H as <-. cbn [Re.rest Re.matched Re.group1].
  exists w. split; [reflexivity|]. split.
  - cbn [rev]. rewrite rev_app_distr, rev_involutive. reflexivity.
  - f_equal. apply (firstn_rev_app w [95%N]).
Qed.

Lemma exec_heading_inv (bf : option N) (s : jsstring) (mt : Re.Match) :
  Re.exec_at true re_heading bf s = Some mt ->
  exists c w,
    s = c :: w ++ 58%N :: Re.rest mt
    /\ Re.matched mt = c :: w ++ [58%N]
    /\ Re.group1 mt = Some (c :: w)
    /\ upper c = true
    /\ forallb letter_or_space w = true
    /\ Re.at_bol true bf [] = true.
Proof.
  unfold Re.exec_at, re_heading. rewrite run_seq. intro H.
  apply run_bol_inv in H as [Hbol H]. rewrite run_seq, run_group, run_seq in H.
  apply run_class_inv in H as (c & s1 & -> & Hc & H).
  apply run_plus_inv in H as (w & s2 & -> & _ & Hw & H).
  rewrite run_seq in H.
  apply run_class_inv in H as (c' & s3 & -> & Hc' & H).
  apply N.eqb_eq in Hc'. cbn in Hc'. subst c'.
  apply run_eol_inv in H as [_ H].
  injection H as <-. cbn [Re.rest Re.matched Re.group1].
  exists c, w. split; [reflexivity|]. split; [|split; [|now repeat split]].
  - cbn [rev]. rewrite !rev_app_distr, rev_involutive. reflexivity.
  - f_equal. pose proof (firstn_rev_app (c :: w) []) as Hf.
    rewrite app_nil_r in Hf. cbn [List.length] in Hf.
    rewrite Nat.sub_0_r in *. exact Hf.
Qed.

(** *** Where a [<] may stand *)

Lemma tag_starts_nil (tags : list jsstring) : tag_starts tags [].
Proof. intros [|c pre] suf H; discriminate H. Qed.

Lemma tag_starts_cons (tags : list jsstring) (c : N) (s : jsstring) :
  c <> 60%N -> tag_starts tags s -> tag_starts tags (c :: s).
Proof.
  intros Hc Hs [|c' pre] suf H; injection H as -> H; [congruence|].
  now apply (Hs pre suf).
Qed.

Lemma tag_starts_app (tags : list jsstring) (a b : jsstring) :
  tag_starts tags a -> tag_starts tags b -> tag_starts tags (a ++ b).
Proof.
  intros Ha Hb pre suf H.
  apply app_eq_app in H as (l & [[-> H] | [-> H]]).
  - destruct l as [|x l].
    + cbn in H. rewrite app_nil_r in *. subst b.
      destruct (Hb [] suf eq_refl) as (tag & r & Hin & E). now exists tag, r.
    + injection H as <- ->.
      destruct (Ha pre l eq_refl) as (tag & r & Hin & E).
      exists tag, (r ++ b). split; [exact Hin|].
      change (60%N :: l ++ b) with ((60%N :: l) ++ b).
      now rewrite E, app_assoc.
  - apply (Hb l suf). exact H.
Qed.

Lemma tag_starts_suffix (tags : list jsstring) (a b : jsstring) :
  tag_starts tags (a ++ b) -> tag_starts tags b.
Proof.
  intros H pre suf E. apply (H (a ++ pre) suf).
  now rewrite E, app_assoc.
Qed.

Lemma tag_starts_free (tags : list jsstring) (s : jsstring) :
  ~ In 60%N s -> tag_starts tags s.
Proof.
  intros Hs pre suf E. elim Hs. rewrite E. apply in_elt.
Qed.

Lemma tag_starts_tag (tags : list jsstring) (t : jsstring) :
  In (60%N :: t) tags -> ~ In 60%N t -> tag_starts tags (60%N :: t).
Proof.
  intros Hin Ht [|c pre] suf E.
  - exists (60%N :: t), []. split; [exact Hin|]. rewrite app_nil_r.
    symmetry. exact E.
  - injection E as <- E. elim Ht. rewrite E. apply in_elt.
Qed.

Lemma tag_starts_incl (tags tags' : list jsstring) (s : jsstring) :
  incl tags tags' -> tag_starts tags s -> tag_starts tags' s.
Proof.
  intros Hi Hs pre suf E. destruct (Hs pre suf E) as (tag & r & Hin & Er).
  exists tag, r. split; [now apply Hi | exact Er].
Qed.

Lemma not_in_forallb (x : N) (t : jsstring) :
  forallb (fun c => negb (c =? x)%N) t = true -> ~ In x t.
Proof.
  rewrite forallb_forall. intros H Hin. specialize (H x Hin).
  now rewrite N.eqb_refl in H.
Qed.

Lemma section_tags_shape (tag : jsstring) :
  In tag section_tags ->
  exists t,
    tag = 60%N :: t /\ ~ In 60%N t
    /\ forallb (fun c => negb (isLineTerminator c)) t = true.
Proof.
  intros [<- | [<- | []]]; eexists; (split; [reflexivity|]);
    (split; [apply not_in_forallb|]); reflexivity.
Qed.

Lemma tag_starts_section_tag (tag : jsstring) :
  In tag section_tags -> tag_starts section_tags tag.
Proof.
  intro Hin. destruct (section_tags_shape tag Hin) as (t & -> & Ht & _).
  now apply tag_starts_tag.
Qed.

Lemma upper_not_lt (c : N) : upper c = true -> c <> 60%N.
Proof.
  unfold upper, Re.range. cbn [N_of_ascii]. intros H ->. discriminate H.
Qed.

Lemma letter_or_space_not_lt (c : N) : letter_or_space c = true -> c <> 60%N.
Proof.
  unfold letter_or_space, Re.range. intros H ->. discriminate H.
Qed.

(** The first pass, on a text without [<]. *)
Lemma replace_underlined_tags (s : jsstring) :
  ~ In 60%N s ->
  forall bf skip,
    tag_starts section_tags
      (Re.replace_from true re_underlined
         [Re.Text help_section_open; Re.Group1; Re.Text div_close]
         bf s skip).
Proof.
  assert (Hexp : forall bf s mt,
            ~ In 60%N s ->
            Re.exec_at true re_underlined bf s = Some mt ->
            tag_starts section_tags
              (Re.expand
                 [Re.Text help_section_open; Re.Group1; Re.Text div_close]
                 mt)).
  { intros bf s0 mt Hs He.
    apply exec_underlined_inv in He as (g & Es & _ & Eg).
    unfold Re.expand. cbn [flat_map]. rewrite Eg, app_nil_r.
    apply tag_starts_app; [apply tag_starts_section_tag; now left|].
    apply tag_starts_app; [|apply tag_starts_section_tag; right; now left].
    apply tag_starts_free. intro Hin. apply Hs. rewrite Es.
    right. apply in_or_app. now left. }
  induction s as [|c s IH]; intros Hs bf skip.
  - destruct skip; cbn [Re.replace_from]; [|apply tag_starts_nil].
    destruct (Re.exec_at true re_underlined bf []) eqn:E;
      [|apply tag_starts_nil].
    rewrite app_nil_r. now apply (Hexp bf []).
  - assert (Hc : c <> 60%N) by (intros ->; apply Hs; now left).
    assert (Hs' : ~ In 60%N s) by (intro; apply Hs; now right).
    destruct skip; cbn [Re.replace_from]; [|now apply IH].
    destruct (Re.exec_at true re_underlined bf (c :: s)) eqn:E.
    + apply tag_starts_app; [now apply (Hexp bf (c :: s))|].
      destruct (Re.matched m);
        [apply tag_starts_cons; [exact Hc|] |]; now apply IH.
    + apply tag_starts_cons; [exact Hc | now apply IH].
Qed.

(** The second pass, on a text whose [<] all start a tag: while a tag is
    being copied (its rest is [t]) no heading can start, and a heading
    contains no [<]. *)
Lemma replace_heading_tags (s : jsstring) :
  (forall bf t s2,
     s = t ++ s2 ->
     ~ In 60%N t ->
     forallb (fun c => negb (isLineTerminator c)) t = true ->
     (t <> [] -> exists b, bf = Some b /\ isLineTerminator b = false) ->
     tag_starts section_tags s2 ->
     exists o2,
       Re.replace_from true re_heading
         [Re.Text help_section_open; Re.Group1; Re.Text (js ":</div>")]
         bf s 0
       = t ++ o2
       /\ tag_starts section_tags o2)
  /\ (forall bf w s2,
        s = w ++ s2 ->
        tag_starts section_tags s2 ->
        tag_starts section_tags
          (Re.replace_from true re_heading
             [Re.Text help_section_open; Re.Group1; Re.Text (js ":</div>")]
             bf s (List.length w))).
Proof.
  set (tmpl := [Re.Text help_section_open; Re.Group1;
                Re.Text (js ":</div>")]).
  assert (Hexp : forall bf s mt,
            Re.exec_at true re_heading bf s = Some mt ->
            tag_starts section_tags (Re.expand tmpl mt)).
  { intros bf s0 mt He.
    apply exec_heading_inv in He as (c & w & _ & _ & Eg & Hc & Hw & _).
    unfold Re.expand, tmpl. cbn [flat_map]. rewrite Eg, app_nil_r.
    apply tag_starts_app; [apply tag_starts_section_tag; now left|].
    apply tag_starts_app.
    - apply tag_starts_cons; [now apply upper_not_lt|].
      apply tag_starts_free. intro Hin.
      rewrite forallb_forall in Hw.
      now apply (letter_or_space_not_lt 60 (Hw _ Hin)).
    - change (js ":</div>") with (58%N :: div_close).
      apply tag_starts_cons; [discriminate|].
      apply tag_starts_section_tag. right; now left. }
  induction s as [|c s [IHc IHs]].
  - assert (Hcopy : forall bf,
              tag_starts section_tags
                (Re.replace_from true re_heading tmpl bf [] 0)).
    { intro bf. cbn [Re.replace_from].
      destruct (Re.exec_at true re_heading bf []) eqn:E;
        [|apply tag_starts_nil].
      rewrite app_nil_r. now apply (Hexp bf []). }
    split.
    + intros bf t s2 Es _ _ _ _. symmetry in Es.
      apply app_eq_nil in Es as [-> ->].
      exists (Re.replace_from true re_heading tmpl bf [] 0).
      split; [reflexivity | apply Hcopy].
    + intros bf w s2 Es _. symmetry in Es. apply app_eq_nil in Es as [-> ->].
      apply Hcopy.
  - assert (Hcopy : forall bf t s2,
     c :: s = t ++ s2 ->
     ~ In 60%N t ->
     forallb (fun c => negb (isLineTerminator c)) t = true ->
     (t <> [] -> exists b, bf = Some b /\ isLineTerminator b = false) ->
     tag_starts section_tags s2 ->
     exists o2,
       Re.replace_from true re_heading tmpl bf (c :: s) 0 = t ++ o2
       /\ tag_starts section_tags o2).
    { intros bf t s2 Es Ht Hlt Hbf Hs2. cbn [Re.replace_from].
      destruct (Re.exec_at true re_heading bf (c :: s)) as [mt|] eqn:E.
      - pose proof (Hexp _ _ _ E) as Hx.
        apply exec_heading_inv in E as (c' & w & Es' & Em & _ & _ & _ & Hbol).
        destruct t as [|c0 t].
        + cbn in Es. subst s2. exists (Re.expand tmpl mt
            ++ match Re.matched mt with
               | [] => c :: Re.replace_from true re_heading tmpl (Some c) s 0
               | _ :: w0 =>
                   Re.replace_from true re_heading tmpl (Some c) s
                     (List.length w0)
               end).
          split; [reflexivity|]. apply tag_starts_app; [exact Hx|].
          rewrite Em. injection Es' as <- Es'.
          apply (IHs (Some c) (w ++ [58%N]) (Re.rest mt)).
          * now rewrite <- app_assoc.
          * apply (tag_starts_suffix _ (c :: w ++ [58%N])).
            cbn [app]. rewrite <- app_assoc. cbn [app].
            now rewrite <- Es'.
        + destruct Hbf as (b0 & -> & Hb0); [discriminate|].
          unfold Re.at_bol in Hbol. cbn in Hbol. congruence.
      - destruct t as [|c0 t].
        + cbn in Es. subst s2.
          destruct (N.eq_dec c 60) as [->|Hc].
          * destruct (Hs2 [] s eq_refl) as (tag & r & Hin & Er).
            destruct (section_tags_shape tag Hin) as (t' & -> & Ht' & Hl').
            injection Er as ->.
            destruct (IHc (Some 60%N) t' r eq_refl Ht' Hl') as (o2 & -> & Ho2).
            -- intros _. now exists 60%N.
            -- apply (tag_starts_suffix _ (60%N :: t')). exact Hs2.
            -- exists (60%N :: t' ++ o2). split; [reflexivity|].
               change (60%N :: t' ++ o2) with ((60%N :: t') ++ o2).
               apply tag_starts_app; [now apply tag_starts_section_tag|].
               exact Ho2.
          * destruct (IHc (Some c) [] s eq_refl (fun H => H) eq_refl
                        (fun H => False_ind _ (H eq_refl))
                        (tag_starts_suffix _ [c] s Hs2))
              as (o2 & -> & Ho2).
            exists (c :: o2). split; [reflexivity|].
            now apply tag_starts_cons.
        + injection Es as <- Es. cbn [forallb] in Hlt.
          apply andb_true_iff in Hlt as [Hc0 Hlt].
          destruct (IHc (Some c) t s2 Es) as (o2 & -> & Ho2); trivial.
          * intro Hin. apply Ht. now right.
          * intros _. exists c. split; [reflexivity|].
            now apply negb_true_iff.
          * exists o2. now split. }
    split; [exact Hcopy|].
    intros bf w s2 Es Hs2. destruct w as [|c0 w].
    + cbn in Es. subst s2. cbn [List.length].
      destruct (Hcopy bf [] (c :: s) eq_refl (fun H => H) eq_refl
                  (fun H => False_ind _ (H eq_refl)) Hs2)
        as (o2 & -> & Ho2).
      exact Ho2.
    + injection Es as <- Es. cbn [List.length Re.replace_from].
      exact (IHs (Some c) w s2 Es Hs2).
Qed.

Lemma escapeHelp_escapes_witness :
  escapeHelp (js "a<b") = js "a&lt;b" /\ ~ In 60%N (escapeHelp (js "a<b")).
Proof.
  destruct (escapeHelp_escapes (js "a<b")) as (H1 & H2 & _).
  split; [exact H1 | exact H2].
Defined.

(** X20.  Help text cannot bring markup of its own into the panel.
    Whatever the text, every [<] of the formatted text is the first code
    unit of one of the two tags the formatter writes itself, the opening
    tag of a section heading and the closing tag of a division; and in the
    markup of the panel, after [displayHelp] as after [clearHelp], every
    [<] starts one of the five tags of the source. *)
Theorem formatHelp_only_own_tags :
  (forall text, tag_starts section_tags (formatHelp text))
  /\ (forall st, tag_starts help_tags (help_innerHTML st)).
Proof.
  assert (Hf : forall text, tag_starts section_tags (formatHelp text)).
  { intro text. unfold formatHelp, sectionsHelp, Re.replace_all.
    destruct (replace_heading_tags
                (Re.replace_from true re_underlined
                   [Re.Text help_section_open; Re.Group1; Re.Text div_close]
                   None (escapeHelp text) 0)) as [Hcopy _].
    destruct (Hcopy None [] _ eq_refl (fun H => H) eq_refl
                (fun H => False_ind _ (H eq_refl)))
      as (o2 & -> & Ho2); [|exact Ho2].
    apply replace_underlined_tags.
    rewrite escapeHelp_chars. intro H.
    now apply escape_free in H as [[H _] _]. }
  split; [exact Hf|].
  intro st. unfold help_innerHTML.
  destruct (helpPanel st) as [[topic text]|].
  - change (tag_starts help_tags
              (help_content_open ++ formatHelp text ++ js "</div>")).
    apply tag_starts_app; [|apply tag_starts_app].
    + apply tag_starts_tag; [cbn; tauto | apply not_in_forallb; reflexivity].
    + apply (tag_starts_incl section_tags); [|apply Hf].
      intros tag [<- | [<- | []]]; cbn; tauto.
    + apply (tag_starts_tag help_tags (js "/div>"));
        [cbn; tauto | apply not_in_forallb; reflexivity].
  - change (tag_starts help_tags
              (help_empty_open
               ++ js "Run ?topic or help(topic) to view documentation"
               ++ js "</span>")).
    apply tag_starts_app.
    + apply tag_starts_tag; [cbn; tauto | apply not_in_forallb; reflexivity].
    + apply tag_starts_app.
      * apply tag_starts_free, not_in_forallb. reflexivity.
      * apply (tag_starts_tag help_tags (js "/span>"));
          [cbn; tauto | apply not_in_forallb; reflexivity].
Qed.

Lemma replace_nothing (m : bool) (r : Re.t) (template : list Re.piece)
    (x : N) (s : jsstring) :
  (forall bf s' mt, Re.exec_at m r bf s' = Some mt -> In x s') ->
  ~ In x s ->
  forall bf, Re.replace_from m r template bf s 0 = s.
Proof.
  intros Hx. induction s as [|c s IH]; intros Hs bf; cbn [Re.replace_from].
  - destruct (Re.exec_at m r bf []) eqn:E; [|reflexivity].
    now apply Hx in E.
  - destruct (Re.exec_at m r bf (c :: s)) eqn:E.
    + apply Hx in E. contradiction.
    + f_equal. apply IH. intro H. apply Hs. now right.
Qed.

(** X21.  A help text without underscore and without colon gets no
    heading: it is shown escaped and otherwise as it is. *)
Theorem formatHelp_plain_text (text : jsstring) :
  ~ In 95%N text -> ~ In 58%N text ->
  formatHelp text = flat_map escape_char text.
Proof.
  intros H95 H58. unfold formatHelp, sectionsHelp, Re.replace_all.
  rewrite escapeHelp_chars.
  rewrite (replace_nothing true re_underlined _ 95%N).
  - apply (replace_nothing true re_heading _ 58%N).
    + intros bf s' mt E.
      apply exec_heading_inv in E as (c & w & -> & _).
      right. apply in_or_app. right. now left.
    + intro H. apply escape_free in H as [_ H]. apply H58, H. now right.
  - intros bf s' mt E. apply exec_underlined_inv in E as (g & -> & _).
    now left.
  - intro H. apply escape_free in H as [_ H]. apply H95, H. now left.
Qed.

Lemma formatHelp_plain_text_witness :
  formatHelp (js "if (a < b) x & y") = js "if (a &lt; b) x &amp; y".
Proof.
  apply (formatHelp_plain_text (js "if (a < b) x & y"));
    apply not_in_forallb; reflexivity.
Defined.

Lemma formatHelp_only_own_tags_witness :
  tag_starts section_tags (formatHelp (js "<script>Usage:</script>")).
Proof. exact (proj1 formatHelp_only_own_tags _). Defined.

Lemma echo_reproduces_code_witness :
  List.length (echo (js "f(1," ++ [10%N] ++ js "2)")) = 2%nat.
Proof.
  destruct (echo_reproduces_code (js "f(1," ++ [10%N] ++ js "2)"))
    as (first & rest & _ & _ & _ & _ & H & _).
  exact H.
Defined.

(** *** Headings, line by line *)

Lemma is_heading_spec (l : jsstring) :
  is_heading l = true <->
  exists c w,
    l = c :: w ++ [58%N] /\ upper c = true /\ w <> []
    /\ forallb letter_or_space w = true.
Proof.
  unfold is_heading. split.
  - destruct l as [|c w]; [discriminate|]. intro H.
    apply andb_true_iff in H as [Hc H].
    destruct (rev w) as [|colon rw] eqn:Er; [discriminate|].
    apply andb_true_iff in H as [H Hw]. apply andb_true_iff in H as [H1 H2].
    apply N.eqb_eq in H1 as ->.
    exists c, (rev rw). split.
    + f_equal. rewrite <- (rev_involutive w), Er. reflexivity.
    + split; [exact Hc|]. split.
      * destruct rw; [discriminate H2|]. cbn. now destruct (rev rw).
      * now rewrite forallb_rev.
  - intros (c & w & -> & Hc & Hne & Hw). rewrite Hc, rev_app_distr.
    cbn [rev app andb N.eqb Pos.eqb]. rewrite forallb_rev, Hw, andb_true_r.
    rewrite truthy_rev. now apply truthy_true.
Qed.

Lemma star_greedy {R : Type} (p : N -> bool) (w s' acc : jsstring)
    (cap : option jsstring) (k : @Re.cont R) (x : R) :
  forallb p w = true ->
  match s' with [] => True | c :: _ => p c = false end ->
  k (rev w ++ acc) s' cap = Some x ->
  Re.star p acc (w ++ s') cap k = Some x.
Proof.
  revert acc. induction w as [|a w IH]; intros acc Hw Hs Hk.
  - cbn [app rev] in *. destruct s' as [|c s']; cbn [Re.star]; [exact Hk|].
    now rewrite Hs.
  - cbn [forallb] in Hw. apply andb_true_iff in Hw as [Ha Hw].
    cbn [app Re.star]. rewrite Ha, (IH (a :: acc)); trivial.
    cbn [rev] in Hk. now rewrite <- app_assoc in Hk.
Qed.

Section Forward.
Context {R : Type}.
Variables (m : bool) (b : option N).
Implicit Types (k : @Re.cont R) (acc s : jsstring) (cap : option jsstring).

Lemma run_bol_eq acc s cap k :
  Re.at_bol m b acc = true -> Re.run m b Re.Bol acc s cap k = k acc s cap.
Proof. intro H. cbn [Re.run]. now rewrite H. Qed.

Lemma run_eol_eq acc s cap k :
  Re.at_eol m s = true -> Re.run m b Re.Eol acc s cap k = k acc s cap.
Proof. intro H. cbn [Re.run]. now rewrite H. Qed.

Lemma run_class_eq (p : N -> bool) (c : N) acc s cap k :
  p c = true ->
  Re.run m b (Re.Class p) acc (c :: s) cap k = k (c :: acc) s cap.
Proof. intro H. cbn [Re.run]. now rewrite H. Qed.

Lemma run_plus_eq (p : N -> bool) (c : N) acc s cap k :
  p c = true ->
  Re.run m b (Re.Plus p) acc (c :: s) cap k = Re.star p (c :: acc) s cap k.
Proof. intro H. cbn [Re.run]. now rewrite H. Qed.
End Forward.

Lemma exec_heading_match (bf : option N) (c : N) (w tail : jsstring) :
  upper c = true -> w <> [] -> forallb letter_or_space w = true ->
  Re.at_bol true bf [] = true -> Re.at_eol true tail = true ->
  Re.exec_at true re_heading bf (c :: w ++ 58%N :: tail)
  = Some (Re.mkMatch (c :: w ++ [58%N]) (Some (c :: w)) tail).
Proof.
  intros Hc Hne Hw Hbol Heol. unfold Re.exec_at, re_heading.
  rewrite run_seq, run_bol_eq by exact Hbol.
  rewrite run_seq, run_group, run_seq, run_class_eq by exact Hc.
  destruct w as [|a w]; [congruence|].
  cbn [forallb] in Hw. apply andb_true_iff in Hw as [Ha Hw].
  cbn [app]. rewrite run_plus_eq by exact Ha.
  apply (star_greedy letter_or_space w (58%N :: tail)); trivial.
  cbn beta. unfold Re.lit. rewrite run_seq, run_class_eq by reflexivity.
  rewrite run_eol_eq by exact Heol.
  f_equal. f_equal.
  - cbn [rev]. rewrite !rev_app_distr, rev_involutive. reflexivity.
  - f_equal. pose proof (firstn_rev_app (c :: a :: w) []) as Hf.
    rewrite app_nil_r in Hf. cbn [List.length] in Hf.
    rewrite Nat.sub_0_r in *. cbn [rev] in Hf.
    rewrite <- app_assoc in Hf. exact Hf.
Qed.

Lemma exec_heading_eol (bf : option N) (s : jsstring) (mt : Re.Match) :
  Re.exec_at true re_heading bf s = Some mt ->
  Re.at_eol true (Re.rest mt) = true.
Proof.
  unfold Re.exec_at, re_heading. rewrite run_seq. intro H.
  apply run_bol_inv in H as [_ H]. rewrite run_seq, run_group, run_seq in H.
  apply run_class_inv in H as (c & s1 & -> & Hc & H).
  apply run_plus_inv in H as (w & s2 & -> & _ & Hw & H).
  rewrite run_seq in H.
  apply run_class_inv in H as (c' & s3 & -> & Hc' & H).
  apply run_eol_inv in H as [Heol H].
  injection H as <-. exact Heol.
Qed.

Lemma heading_pass_tail (bf : option N) (tail : jsstring) :
  tail = [] \/ (exists t, tail = 10%N :: t) ->
  heading_pass bf tail 0 = after_line tail.
Proof.
  unfold heading_pass, after_line.
  intros [-> | [t ->]]; cbn [Re.replace_from].
  - destruct (Re.exec_at true re_heading bf []) as [mt|] eqn:E;
      [|reflexivity].
    apply exec_heading_inv in E as (c & w & E & _). discriminate E.
  - destruct (Re.exec_at true re_heading bf (10%N :: t)) as [mt|] eqn:E;
      [|reflexivity].
    apply exec_heading_inv in E as (c & w & E & _ & _ & Hc & _).
    injection E as <- _. discriminate Hc.
Qed.

Lemma heading_pass_skip (w : jsstring) (bf : option N) (tail : jsstring) :
  tail = [] \/ (exists t, tail = 10%N :: t) ->
  heading_pass bf (w ++ tail) (List.length w) = after_line tail.
Proof.
  intro Ht. revert bf. induction w as [|a w IH]; intro bf.
  - now apply heading_pass_tail.
  - cbn [app List.length]. unfold heading_pass. cbn [Re.replace_from].
    apply IH.
Qed.

Lemma heading_pass_copy (t : jsstring) (b : N) (tail : jsstring) :
  isLineTerminator b = false ->
  forallb (fun c => negb (isLineTerminator c)) t = true ->
  tail = [] \/ (exists t', tail = 10%N :: t') ->
  heading_pass (Some b) (t ++ tail) 0 = t ++ after_line tail.
Proof.
  intros Hb Ht Htail. revert b Hb.
  induction t as [|a t IH]; intros b Hb.
  - now apply heading_pass_tail.
  - cbn [forallb] in Ht. apply andb_true_iff in Ht as [Ha Ht].
    cbn [app]. unfold heading_pass. cbn [Re.replace_from].
    destruct (Re.exec_at true re_heading (Some b) (a :: t ++ tail))
      as [mt|] eqn:E.
    + apply exec_heading_inv in E as (c & w & _ & _ & _ & _ & _ & Hbol).
      unfold Re.at_bol in Hbol. cbn in Hbol. congruence.
    + f_equal. apply (IH Ht). now apply negb_true_iff.
Qed.

Lemma line_split_unique (x1 x2 y1 y2 : jsstring) :
  x1 ++ y1 = x2 ++ y2 ->
  forallb (fun c => negb (isLineTerminator c)) x1 = true ->
  forallb (fun c => negb (isLineTerminator c)) x2 = true ->
  Re.at_eol true y1 = true -> Re.at_eol true y2 = true ->
  x1 = x2 /\ y1 = y2.
Proof.
  revert x2. induction x1 as [|a x1 IH]; intros [|a2 x2] E H1 H2 E1 E2;
    cbn [app forallb] in *.
  - now split.
  - subst y1. cbn in E1. apply andb_true_iff in H2 as [H2 _].
    rewrite E1 in H2. discriminate H2.
  - subst y2. cbn in E2. apply andb_true_iff in H1 as [H1 _].
    rewrite E2 in H1. discriminate H1.
  - injection E as <- E.
    apply andb_true_iff in H1 as [_ H1]. apply andb_true_iff in H2 as [_ H2].
    destruct (IH x2 E H1 H2 E1 E2) as [-> ->]. now split.
Qed.

Lemma heading_chars (c : N) :
  upper c = true \/ letter_or_space c = true \/ c = 58%N ->
  isLineTerminator c = false
  /\ c <> 38%N /\ c <> 60%N /\ c <> 62%N /\ c <> 95%N.
Proof.
  unfold upper, letter_or_space, Re.range, isLineTerminator.
  change (N_of_ascii "A") with 65%N. change (N_of_ascii "Z") with 90%N.
  change (N_of_ascii "a") with 97%N. change (N_of_ascii "z") with 122%N.
  change (N_of_ascii " ") with 32%N.
  intros H.
  assert (Hr : (65 <= c <= 90)%N \/ (97 <= c <= 122)%N \/ c = 32%N
               \/ c = 58%N).
  { destruct H as [H | [H | H]].
    - apply andb_true_iff in H as [H1 H2].
      apply N.leb_le in H1, H2. left. lia.
    - apply orb_true_iff in H as [H | H].
      + apply orb_true_iff in H as [H | H];
          apply andb_true_iff in H as [H1 H2];
          apply N.leb_le in H1, H2; [left | right; left]; lia.
      + apply N.eqb_eq in H. right; right; left. lia.
    - now right; right; right. }
  repeat split; try (intros ->; lia).
  repeat (apply orb_false_iff; split); apply N.eqb_neq; lia.
Qed.

Lemma heading_line_chars (l : jsstring) (x : N) :
  is_heading l = true -> In x l ->
  isLineTerminator x = false
  /\ x <> 38%N /\ x <> 60%N /\ x <> 62%N /\ x <> 95%N.
Proof.
  intros H Hin. apply is_heading_spec in H as (c & w & -> & Hc & _ & Hw).
  apply heading_chars. destruct Hin as [<- | Hin]; [now left|].
  apply in_app_or in Hin as [Hin | [<- | []]].
  - right; left. rewrite forallb_forall in Hw. now apply Hw.
  - now right; right.
Qed.

Lemma exec_heading_full (bf : option N) (s : jsstring) (mt : Re.Match) :
  Re.exec_at true re_heading bf s = Some mt ->
  exists c w,
    s = c :: w ++ 58%N :: Re.rest mt
    /\ upper c = true /\ w <> []
    /\ forallb letter_or_space w = true
    /\ Re.at_eol true (Re.rest mt) = true.
Proof.
  unfold Re.exec_at, re_heading. rewrite run_seq. intro H.
  apply run_bol_inv in H as [_ H]. rewrite run_seq, run_group, run_seq in H.
  apply run_class_inv in H as (c & s1 & -> & Hc & H).
  apply run_plus_inv in H as (w & s2 & -> & Hne & Hw & H).
  rewrite run_seq in H.
  apply run_class_inv in H as (c' & s3 & -> & Hc' & H).
  apply N.eqb_eq in Hc'. cbn in Hc'. subst c'.
  apply run_eol_inv in H as [Heol H].
  injection H as <-. cbn [Re.rest]. now exists c, w.
Qed.

(** A line that is not a heading is copied; a heading is wrapped. *)
Lemma heading_pass_line (el tail : jsstring) (bf : option N) :
  forallb (fun c => negb (isLineTerminator c)) el = true ->
  tail = [] \/ (exists t, tail = 10%N :: t) ->
  Re.at_bol true bf [] = true ->
  heading_pass bf (el ++ tail) 0
  = (if is_heading el then help_section_open ++ el ++ div_close else el)
    ++ after_line tail.
Proof.
  intros Hel Htail Hbol.
  assert (Heol : Re.at_eol true tail = true).
  { destruct Htail as [-> | [t ->]]; reflexivity. }
  destruct (is_heading el) eqn:Eh.
  - apply is_heading_spec in Eh as (c & w & -> & Hc & Hne & Hw).
    unfold heading_pass.
    replace ((c :: w ++ [58%N]) ++ tail) with (c :: w ++ 58%N :: tail)
      by (cbn [app]; now rewrite <- app_assoc).
    cbn [Re.replace_from].
    rewrite (exec_heading_match bf c w tail Hc Hne Hw Hbol Heol).
    cbn [Re.matched]. unfold Re.expand, heading_template.
    cbn [flat_map Re.group1]. rewrite app_nil_r.
    change (Re.replace_from true re_heading
              [Re.Text help_section_open; Re.Group1; Re.Text (js ":</div>")]
              (Some c) (w ++ 58%N :: tail) (List.length (w ++ [58%N])))
      with (heading_pass (Some c) (w ++ 58%N :: tail)
              (List.length (w ++ [58%N]))).
    replace (w ++ 58%N :: tail) with ((w ++ [58%N]) ++ tail)
      by (now rewrite <- app_assoc).
    rewrite heading_pass_skip by exact Htail.
    f_equal. f_equal.
    change (js ":</div>") with ([58%N] ++ div_close).
    cbn [app]. f_equal. now rewrite <- app_assoc.
  - destruct el as [|a el]; [now apply heading_pass_tail|].
    cbn [forallb] in Hel. apply andb_true_iff in Hel as [Ha Hel].
    unfold heading_pass. cbn [app Re.replace_from].
    destruct (Re.exec_at true re_heading bf (a :: el ++ tail))
      as [mt|] eqn:E.
    + exfalso.
      apply exec_heading_full in E as (c & w & Es & Hc & Hne & Hw & Hr).
      destruct (line_split_unique (a :: el) (c :: w ++ [58%N]) tail
                  (Re.rest mt)) as [Hx _]; trivial.
      * cbn [app]. rewrite Es, <- app_assoc. reflexivity.
      * cbn [forallb]. now rewrite Ha, Hel.
      * cbn [forallb]. rewrite forallb_app. cbn [forallb].
        rewrite (proj1 (heading_chars c (or_introl Hc))). cbn [negb andb].
        rewrite andb_true_r. apply forallb_forall. intros x Hx.
        rewrite forallb_forall in Hw.
        now rewrite (proj1 (heading_chars x
                              (or_intror (or_introl (Hw x Hx))))).
      * assert (Hh : is_heading (a :: el) = true).
        { apply is_heading_spec. exists c, w. now repeat split. }
        congruence.
    + f_equal.
      change (Re.replace_from true re_heading heading_template (Some a)
                (el ++ tail) 0)
        with (heading_pass (Some a) (el ++ tail) 0).
      apply heading_pass_copy; trivial. now apply negb_true_iff.
Qed.

Lemma join_lf_cons (l : jsstring) (ls : list jsstring) :
  join_lf (l :: ls)
  = l ++ match ls with [] => [] | _ :: _ => 10%N :: join_lf ls end.
Proof. destruct ls; cbn [join_lf]; [now rewrite app_nil_r | reflexivity]. Qed.

Lemma in_join_lf (x : N) (ls : list jsstring) :
  In x (join_lf ls) -> x = 10%N \/ exists l, In l ls /\ In x l.
Proof.
  induction ls as [|l ls IH]; [intros []|]. rewrite join_lf_cons.
  intro H. apply in_app_or in H as [H | H].
  - right. exists l. split; [now left | exact H].
  - destruct ls as [|l' ls']; [destruct H|].
    destruct H as [<- | H]; [now left|].
    destruct (IH H) as [-> | (l0 & Hl0 & Hx)]; [now left|].
    right. exists l0. split; [now right | exact Hx].
Qed.

Lemma escape_join_lf (ls : list jsstring) :
  flat_map escape_char (join_lf ls)
  = join_lf (map (flat_map escape_char) ls).
Proof.
  induction ls as [|l ls IH]; [reflexivity|].
  cbn [map]. rewrite !join_lf_cons, flat_map_app. f_equal.
  destruct ls as [|l' ls']; [reflexivity|].
  cbn [map] in *. cbn [flat_map]. rewrite IH. reflexivity.
Qed.

Lemma escape_identity (l : jsstring) :
  (forall x, In x l -> x <> 38%N /\ x <> 60%N /\ x <> 62%N) ->
  flat_map escape_char l = l.
Proof.
  induction l as [|c l IH]; intro H; [reflexivity|]. cbn [flat_map].
  rewrite IH by (intros x Hx; apply H; now right).
  destruct (H c (or_introl eq_refl)) as (H1 & H2 & H3). unfold escape_char.
  destruct (N.eqb_spec c 38); [congruence|].
  destruct (N.eqb_spec c 60); [congruence|].
  destruct (N.eqb_spec c 62); [congruence|]. reflexivity.
Qed.

Lemma escape_has_amp (l : jsstring) :
  (exists x, In x l /\ (x = 38%N \/ x = 60%N \/ x = 62%N)) ->
  In 38%N (flat_map escape_char l).
Proof.
  intros (x & Hx & Hs). apply in_flat_map. exists x. split; [exact Hx|].
  destruct Hs as [-> | [-> | ->]]; now left.
Qed.

Lemma escape_nolt (l : jsstring) :
  forallb (fun c => negb (isLineTerminator c)) l = true ->
  forallb (fun c => negb (isLineTerminator c)) (flat_map escape_char l)
  = true.
Proof.
  induction l as [|c l IH]; [reflexivity|]. cbn [forallb flat_map].
  intro H. apply andb_true_iff in H as [Hc Hl].
  rewrite forallb_app, (IH Hl), andb_true_r. unfold escape_char.
  destruct (c =? 38)%N; [reflexivity|].
  destruct (c =? 60)%N; [reflexivity|].
  destruct (c =? 62)%N; [reflexivity|]. cbn. now rewrite Hc.
Qed.

Lemma is_heading_escape (l : jsstring) :
  (if is_heading (flat_map escape_char l)
   then help_section_open ++ flat_map escape_char l ++ div_close
   else flat_map escape_char l)
  = format_line l.
Proof.
  unfold format_line.
  destruct (is_heading l) eqn:Eh.
  - rewrite escape_identity.
    + now rewrite Eh.
    + intros x Hx.
      destruct (heading_line_chars l x Eh Hx) as (_ & H1 & H2 & H3 & _).
      now repeat split.
  - destruct (is_heading (flat_map escape_char l)) eqn:Ee; [|reflexivity].
    exfalso.
    assert (Hid : flat_map escape_char l = l).
    { apply escape_identity. intros x Hx.
      destruct (N.eq_dec x 38) as [->|H1];
        [|destruct (N.eq_dec x 60) as [->|H2];
          [|destruct (N.eq_dec x 62) as [->|H3]; [|now repeat split]]];
      exfalso;
      (assert (Ha : In 38%N (flat_map escape_char l))
         by (apply escape_has_amp; eexists; split; [exact Hx | tauto]));
      now destruct (heading_line_chars _ _ Ee Ha) as (_ & H & _). }
    rewrite Hid in Ee. congruence.
Qed.

Lemma heading_pass_lines (els : list jsstring) (bf : option N) :
  Forall (fun el => forallb (fun c => negb (isLineTerminator c)) el = true)
    els ->
  Re.at_bol true bf [] = true ->
  heading_pass bf (join_lf els) 0
  = join_lf
      (map (fun el =>
              if is_heading el
              then help_section_open ++ el ++ div_close else el)
         els).
Proof.
  intro Hall. revert bf.
  induction Hall as [|el els Hel Hall IH]; intros bf Hbol.
  - now apply heading_pass_tail; left.
  - cbn [map]. rewrite !join_lf_cons.
    rewrite heading_pass_line; trivial.
    + f_equal. destruct els as [|el' els']; [reflexivity|].
      cbn [map after_line]. f_equal. now apply IH.
    + destruct els; [now left | right; eauto].
Qed.

(** X22.  On a text without underscore the formatter works line by line.
    When no line of the text contains an underscore or a line terminator
    other than the line feeds that separate the lines, each line that
    reads as a heading (a capital letter, then letters and spaces, then a
    colon) is wrapped as it is in the tags of a section heading, and every
    other line is escaped; the line feeds stay. *)
Theorem formatHelp_heading_lines (lines : list jsstring) :
  Forall (fun l =>
            forallb (fun c => negb (isLineTerminator c) && negb (c =? 95)%N)
              l = true) lines ->
  formatHelp (join_lf lines) = join_lf (map format_line lines).
Proof.
  intro Hall.
  assert (Hchars : forall l x,
            In l lines -> In x l ->
            isLineTerminator x = false /\ x <> 95%N).
  { intros l x Hl Hx. rewrite Forall_forall in Hall.
    specialize (Hall l Hl). rewrite forallb_forall in Hall.
    specialize (Hall x Hx). apply andb_true_iff in Hall as [H1 H2].
    apply negb_true_iff in H1, H2. apply N.eqb_neq in H2. now split. }
  unfold formatHelp, sectionsHelp, Re.replace_all.
  rewrite escapeHelp_chars.
  rewrite (replace_nothing true re_underlined _ 95%N).
  - change (heading_pass None (flat_map escape_char (join_lf lines)) 0
            = join_lf (map format_line lines)).
    rewrite escape_join_lf, heading_pass_lines.
    + rewrite map_map. f_equal. apply map_ext. intro l.
      apply is_heading_escape.
    + apply Forall_forall. intros el Hel.
      apply in_map_iff in Hel as (l & <- & Hl). apply escape_nolt.
      apply forallb_forall. intros x Hx. apply negb_true_iff.
      now apply (Hchars l x).
    + reflexivity.
  - intros bf s' mt E. apply exec_underlined_inv in E as (g & -> & _).
    now left.
  - intro H. apply escape_free in H as [_ H].
    specialize (H (or_introl eq_refl)).
    apply in_join_lf in H as [H | (l & Hl & Hx)]; [discriminate H|].
    now apply (Hchars l 95%N Hl Hx).
Qed.

Lemma formatHelp_heading_lines_witness :
  formatHelp (js "Usage:" ++ [10%N] ++ js "mean(x) < 1")
  = help_section_open ++ js "Usage:" ++ div_close
    ++ [10%N] ++ js "mean(x) &lt; 1".
Proof.
  apply (formatHelp_heading_lines [js "Usage:"; js "mean(x) < 1"]).
  repeat constructor.
Defined.

(** ** Further properties: the status *)

Lemma runCode_status (io : Interp) (code : jsstring) (st : State) :
  status (runCode io code st) = status st
  \/ status (runCode io code st) = Some (ready, js "Ready").
Proof.
  unfold runCode.
  destruct (isRunning st || negb (webR st) || negb (truthy code));
    [now left|].
  destruct (helpTopicMatch code) as [topic|].
  - left. unfold getHelp.
    destruct (negb (webR (appendConsole (js "> " ++ code) command st)));
      [by_fields|].
    unfold try_catch, bind, evalRString, exec.
    destruct (on_evalRString io); by_fields.
  - right. generalize (fst (runCode_try io code (runCode_begin code st))).
    intro s. by_fields.
Qed.

Lemma step_status (st : State) (ev : Event) :
  status (step st ev) = status st
  \/ status (step st ev) = Some (ready, js "Ready").
Proof.
  destruct ev; cbn; try (left; by_fields; fail).
  - left. destruct (consoleReadOnly st); by_fields.
  - unfold handleConsoleEnter. destruct (truthy _); [|now left].
    match goal with
    | |- context [runCode io ?c ?s] =>
        destruct (runCode_status io c s) as [H | H]
    end; [left; rewrite H; by_fields | now right].
  - left. unfold handleConsoleUp, setValue_history.
    destruct (_ <? _); [|reflexivity]. destruct (index _ _); by_fields.
  - left. unfold handleConsoleDown, setValue_history. destruct (_ >? _).
    + destruct (index _ _); by_fields.
    + destruct (_ =? _); by_fields.
  - left. destruct (editor st); by_fields.
  - unfold runFromEditor. destruct (editor st) as [ed|]; [|now left].
    destruct (truthy (ed_selection ed)).
    + destruct (truthy _); [apply runCode_status | now left].
    + set (st1 := if _ <? _ then _ else st).
      assert (H1 : status st1 = status st).
      { subst st1. destruct (_ <? _); by_fields. }
      destruct (truthy _); [|now left].
      rewrite <- H1. apply runCode_status.
  - left. unfold plotPrev_click. destruct (_ >? _); by_fields.
  - left. unfold plotNext_click. destruct (_ <? _); by_fields.
  - left. unfold keydown. destruct inEditor; [reflexivity|].
    destruct key; try reflexivity; destruct (_ && _); by_fields.
Qed.

(** X23.  At rest the status never turns to loading or to error: an event
    leaves the status as it is or makes it ready with the text [Ready];
    so a session that is ready stays ready under any events. *)
Theorem status_only_turns_ready :
  (forall st ev,
     status (step st ev) = status st
     \/ status (step st ev) = Some (ready, js "Ready"))
  /\ (forall evs st, isReady st = true -> isReady (steps evs st) = true).
Proof.
  split; [exact step_status|].
  intros evs. induction evs as [|ev evs IH]; intros st H; [exact H|].
  cbn [steps fold_left]. apply IH.
  unfold isReady in *. destruct (step_status st ev) as [-> | ->];
    [exact H | reflexivity].
Qed.

Lemma status_only_turns_ready_witness :
  isReady
    (steps [ConsoleType (js "x"); ConsoleEnter io_not_found; ClickClearPlots]
       ready_state) = true.
Proof.
  apply (proj2 status_only_turns_ready). reflexivity.
Defined.
